(** * Grooopy: the tab clustering engine (src/clustering.js)

    A shallow embedding of [ClusteringEngine] and the properties of its
    pipeline: URL featurizer, pairwise similarity, agglomerative clustering,
    singleton consolidation and the final metadata pass.

    Conventions of the embedding.
    - JavaScript numbers are a parameter (class [Num]): the engine adds,
      multiplies, divides, takes square roots, compares, stores numbers in a
      [Float32Array] and reads elements that may be missing.  Three instances
      are given.  [FloatNum] is the arithmetic of the engine itself: IEEE 754
      binary64 with rounding to nearest, NaN and infinities, and rounding to
      binary32 on a store into a [Float32Array].  [QNum], exact rationals,
      and [RNum], the real numbers, are exact arithmetic without rounding,
      NaN or infinities: the engine runs on the first inside Rocq, and the
      analytic facts (normalized means, symmetry) are stated over the second
      and say so.  What is proved for every instance of [Num] holds of the
      engine's own arithmetic.
    - Arrays are lists, array positions are [nat]; tab identifiers and screen
      widths are [Z].
    - [async] methods are computations in the monad [Async], which threads the
      engine object (is the model loaded) and the log of the calls made to the
      collaborators (model, page scripting).
    - The collaborators are parameters.  The URL parser and the page script
      may fail ([None]); the model is taken to load and to embed every text.
    - [generateClusterName] is a parameter too: it only fills the [name] of a
      result. *)

From Stdlib Require Import Ascii String Bool Arith ZArith QArith Reals List.
From Stdlib Require Import Floats.SpecFloat.
From Stdlib Require Import Lia Lra Permutation Sorted.
Import ListNotations.

(* ------------------------------------------------------------------ *)
(** * Numbers *)

Class Num (num : Type) : Type := {
  nofZ : Z -> num;
  nadd : num -> num -> num;
  nsub : num -> num -> num;
  nmul : num -> num -> num;
  ndiv : num -> num -> num;
  nsqrt : num -> num;
  nltb : num -> num -> bool;   (* x < y *)
  nleb : num -> num -> bool;   (* x <= y *)
  (** The number a [Float32Array] holds after [x] is stored in it. *)
  nfround : num -> num;
  (** What [undefined], the value of a missing array element, is in
      arithmetic: NaN. *)
  nundefined : num;
  (** [x > -Infinity]: false of NaN and of [-Infinity] only. *)
  above_neg_infinity : num -> bool
}.

Section Numbers.
Context {num : Type} `{Num num}.

Definition nzero : num := nofZ 0.
Definition n_one : num := nofZ 1.
Definition nofnat (n : nat) : num := nofZ (Z.of_nat n).
(** A decimal literal [a / b], such as 0.38 = 38/100. *)
Definition dec (a b : Z) : num := ndiv (nofZ a) (nofZ b).
Definition ngtb (x y : num) : bool := nltb y x.
Definition ngeb (x y : num) : bool := nleb y x.
(** [Math.max] and [Math.min] of two numbers. *)
Definition nmax (x y : num) : num := if nltb x y then y else x.
Definition nmin (x y : num) : num := if nltb y x then y else x.
End Numbers.

(** Exact rationals.  The square root is the integer square root of
    numerator times denominator over the denominator: exact on squares of
    rationals, rounded down elsewhere.  Exact arithmetic has no rounding, no
    NaN and no infinity: a store changes nothing, every number is above
    [-Infinity], and a missing element counts as 0. *)
Definition Qsqrt (q : Q) : Q :=
  Z.sqrt (Qnum q * Zpos (Qden q)) # Qden q.

Definition Qltb (x y : Q) : bool :=
  match Qcompare x y with Lt => true | _ => false end.

#[export] Instance QNum : Num Q := {
  nofZ := inject_Z;
  nadd := Qplus;
  nsub := Qminus;
  nmul := Qmult;
  ndiv := Qdiv;
  nsqrt := Qsqrt;
  nltb := Qltb;
  nleb := Qle_bool;
  nfround := fun x => x;
  nundefined := inject_Z 0;
  above_neg_infinity := fun _ => true
}.

(** Real numbers: exact arithmetic again. *)
Definition Rltb (x y : R) : bool := if Rlt_dec x y then true else false.
Definition Rleb (x y : R) : bool := if Rle_dec x y then true else false.

#[export] Instance RNum : Num R := {
  nofZ := IZR;
  nadd := Rplus;
  nsub := Rminus;
  nmul := Rmult;
  ndiv := Rdiv;
  nsqrt := sqrt;
  nltb := Rltb;
  nleb := Rleb;
  nfround := fun x => x;
  nundefined := IZR 0;
  above_neg_infinity := fun _ => true
}.






(* ------------------------------------------------------------------ *)
(** * Strings and arrays *)

Open Scope string_scope.
Open Scope list_scope.
Open Scope nat_scope.

(** [s.split(sep)] for a separator given as a set of characters: the pieces
    between separators, empty pieces included; one empty piece for the empty
    string. *)
Fixpoint split_on (sep : ascii -> bool) (s : string) : list string :=
  match s with
  | EmptyString => [EmptyString]
  | String c rest =>
      if sep c then EmptyString :: split_on sep rest
      else match split_on sep rest with
           | [] => [String c EmptyString]
           | piece :: pieces => String c piece :: pieces
           end
  end.

(** [parts.join(sep)]. *)
Definition join (sep : string) (parts : list string) : string :=
  String.concat sep parts.

(** [arr.slice(-k)]: the last [k] entries (all of them when there are fewer). *)
Definition slice_last {A} (k : nat) (l : list A) : list A :=
  skipn (length l - k) l.

(** [arr.slice(0, k)]. *)
Definition slice_first {A} (k : nat) (l : list A) : list A := firstn k l.

(** [s.startsWith(p)]. *)
Fixpoint startsWith (p s : string) : bool :=
  match p, s with
  | EmptyString, _ => true
  | String _ _, EmptyString => false
  | String a p', String b s' => Ascii.eqb a b && startsWith p' s'
  end.

(** Every character of [s] satisfies [p]. *)
Fixpoint string_forallb (p : ascii -> bool) (s : string) : bool :=
  match s with
  | EmptyString => true
  | String c rest => p c && string_forallb p rest
  end.

(** [arr.includes(x)] on an array of strings. *)
Definition includes (l : list string) (x : string) : bool :=
  existsb (String.eqb x) l.

(** [arr.map((x, idx) => f(idx, x))], counting from [i]. *)
Fixpoint mapi_from {A B} (f : nat -> A -> B) (i : nat) (l : list A) : list B :=
  match l with
  | [] => []
  | x :: rest => f i x :: mapi_from f (S i) rest
  end.
Definition mapi {A B} (f : nat -> A -> B) (l : list A) : list B :=
  mapi_from f 0 l.

(** A JavaScript [Set] of strings: insertion order, no repetition. *)
Definition set_add (x : string) (s : list string) : list string :=
  if includes s x then s else s ++ [x].
Definition set_add_all (xs : list string) (s : list string) : list string :=
  fold_left (fun acc x => set_add x acc) xs s.
Definition set_of (xs : list string) : list string := set_add_all xs [].

(* ------------------------------------------------------------------ *)
(** * URL featurizer: [parseUrl] *)

(** What the platform's [URL] object gives the engine.  Both components are
    ASCII (the parser encodes anything else), so the length of a piece in
    characters is its length in UTF-16 units. *)
Record URL := mkURL { hostname : string; pathname : string }.

Record urlFeatures := mkFeatures {
  uf_domain : string;
  uf_baseDomain : string;
  uf_pathTokens : list string
}.

(** [hostname.replace(/^www\./, '')]. *)
Definition strip_www (h : string) : string :=
  if startsWith "www." h then String.substring 4 (String.length h - 4) h else h.

(** The separators of [/[\/\-_]/]. *)
Definition path_separator (c : ascii) : bool :=
  (Ascii.eqb c "/" || Ascii.eqb c "-" || Ascii.eqb c "_")%bool.
Definition dot (c : ascii) : bool := Ascii.eqb c ".".

Section Featurizer.
(** [new URL(s)]: the platform's parser; [None] when it throws. *)
Variable new_URL : string -> option URL.

Definition parseUrl (urlString : string) : urlFeatures :=
  match new_URL urlString with
  | Some url =>
      let hostname := strip_www (hostname url) in
      let parts := split_on dot hostname in
      mkFeatures
        hostname
        (if 2 <=? length parts then join "." (slice_last 2 parts) else hostname)
        (slice_first 5
           (filter (fun t => 2 <? String.length t)
              (split_on path_separator (pathname url))))
  | None => mkFeatures "" "" []
  end.
End Featurizer.

(* ------------------------------------------------------------------ *)
(** * Data model *)

(** A [chrome.tabs.Tab], as far as the engine reads it. *)
Record tab := mkTab {
  tab_id : Z;
  tab_url : option string;
  tab_title : string
}.

(** The entries of [enriched] and of [tabVectors]. *)
Record enrichedTab := mkEnriched {
  en_tab : tab;
  en_content : string;
  en_domain : string;
  en_baseDomain : string;
  en_pathTokens : list string
}.

Record tabVector (num : Type) := mkTabVector {
  tv_tab : tab;
  tv_content : string;
  tv_domain : string;
  tv_baseDomain : string;
  tv_pathTokens : list string;
  tv_embedding : list num
}.
Arguments mkTabVector {num} _ _ _ _ _ _.
Arguments tv_tab {num} _.
Arguments tv_content {num} _.
Arguments tv_domain {num} _.
Arguments tv_baseDomain {num} _.
Arguments tv_pathTokens {num} _.
Arguments tv_embedding {num} _.

(** A cluster object.  [isMisc] is absent (falsy) on every cluster but the
    catch-all. *)
Record cluster (num : Type) := mkCluster {
  indices : list nat;
  items : list (tabVector num);
  embeddings : list (list num);
  domains : list string;
  centroid : list num;
  isMisc : bool
}.
Arguments mkCluster {num} _ _ _ _ _ _.
Arguments indices {num} _.
Arguments items {num} _.
Arguments embeddings {num} _.
Arguments domains {num} _.
Arguments centroid {num} _.
Arguments isMisc {num} _.

Record ClusterResult := mkResult {
  name : string;
  color : string;
  tabIds : list Z
}.

(* ------------------------------------------------------------------ *)
(** * Asynchronous methods *)

(** Calls to the collaborators. *)
Inductive call :=
| LoadModel
| RunScript (tabId : Z)
| Embed (text : string).

(** The engine object between two steps: [this.extractor] is set or not, and
    what has been asked of the collaborators so far. *)
Record engine := mkEngine {
  extractor_loaded : bool;
  calls : list call
}.

Definition Async (A : Type) : Type := engine -> A * engine.

Definition ret {A} (a : A) : Async A := fun e => (a, e).
Definition bind {A B} (c : Async A) (k : A -> Async B) : Async B :=
  fun e => let (a, e') := c e in k a e'.
Definition called (c : call) : Async unit :=
  fun e => (tt, mkEngine (extractor_loaded e) (calls e ++ [c])).

Notation "x <- c ;; k" := (bind c (fun x => k))
  (at level 61, c at next level, right associativity).
Notation "c ;;; k" := (bind c (fun _ => k))
  (at level 61, right associativity).

(** [for (const x of xs) { out.push(await f(x)) }]. *)
Fixpoint for_each {A B} (f : A -> Async B) (xs : list A) : Async (list B) :=
  match xs with
  | [] => ret []
  | x :: rest => y <- f x ;; ys <- for_each f rest ;; ret (y :: ys)
  end.

(** [init]: the model is loaded once. *)
Definition init : Async unit :=
  fun e => if extractor_loaded e then (tt, e)
           else (tt, mkEngine true (calls e ++ [LoadModel])).

(* ------------------------------------------------------------------ *)
(** * Configuration ([this.config]) *)

Definition MIN_ORPHANS_FOR_MISC : nat := 3.
Definition PIXELS_PER_GROUP : Z := 130.
Definition MIN_GROUPS : Z := 2.
Definition MAX_GROUPS : Z := 10.

Section Config.
Context {num : Type} `{Num num}.
Definition CONTENT_SIMILARITY_THRESHOLD : num := dec 38 100.
Definition DOMAIN_AFFINITY_BOOST : num := dec 15 100.
Definition URL_PATH_BOOST : num := dec 8 100.
Definition SINGLETON_ABSORPTION_THRESHOLD : num := dec 25 100.
Definition SINGLETON_CLUSTER_THRESHOLD : num := dec 33 100.
End Config.

(* ------------------------------------------------------------------ *)
(** * Similarity *)

Section Similarity.
Context {num : Type} `{Num num}.

(** [cosineSimilarity]: the dot product, accumulated over the positions of
    [v1]; a position missing from [v2] reads as [undefined]. *)
Definition cosineSimilarity (v1 v2 : list num) : num :=
  fold_left (fun dot i =>
               nadd dot (nmul (nth i v1 nundefined) (nth i v2 nundefined)))
            (seq 0 (length v1)) nzero.

Definition commonTokens (tab1 tab2 : tabVector num) : list string :=
  filter (fun t => includes (tv_pathTokens tab2) t) (tv_pathTokens tab1).

Definition computePairwiseSimilarity (tab1 tab2 : tabVector num) : num :=
  let semanticSim := cosineSimilarity (tv_embedding tab1) (tv_embedding tab2) in
  let domainBoost :=
    if String.eqb (tv_domain tab1) (tv_domain tab2) then DOMAIN_AFFINITY_BOOST
    else if String.eqb (tv_baseDomain tab1) (tv_baseDomain tab2)
         then nmul DOMAIN_AFFINITY_BOOST (dec 5 10)
         else nzero in
  let common := commonTokens tab1 tab2 in
  let pathBoost :=
    if 0 <? length common
    then nmul URL_PATH_BOOST
           (nmin n_one
              (ndiv (nofnat (length common))
                 (nofnat (Nat.max (Nat.max (length (tv_pathTokens tab1))
                                           (length (tv_pathTokens tab2))) 1))))
    else nzero in
  nadd (nadd semanticSim domainBoost) pathBoost.

(** [buildSimilarityMatrix]: the score of the pair [(i, j)], [i < j], is
    computed once on [(tabVectors[i], tabVectors[j])] and written to both
    [matrix[i][j]] and [matrix[j][i]]; the diagonal stays 0. *)
Definition buildSimilarityMatrix (tabVectors : list (tabVector num))
  : list (list num) :=
  mapi (fun i ti =>
          mapi (fun j tj =>
                  if i <? j then computePairwiseSimilarity ti tj
                  else if j <? i then computePairwiseSimilarity tj ti
                  else nzero)
               tabVectors)
       tabVectors.

(** The cell [(i, j)] of a matrix in the statements below, 0 outside the
    matrix. *)
Definition entry (matrix : list (list num)) (i j : nat) : num :=
  nth j (nth i matrix []) nzero.

(** [matrix[i][j]] as the engine reads it in a sum: a cell that is missing
    from its row is [undefined].  A similarity matrix has a row for every
    tab, the engine builds it so before the loop reads it; without the row
    the source throws, and the model reads [undefined] again. *)
Definition cell (matrix : list (list num)) (i j : nat) : num :=
  nth j (nth i matrix []) nundefined.

End Similarity.

(* ------------------------------------------------------------------ *)
(** * Clusters: centroid, merge, absorb, clone, catch-all *)

Section Clusters.
Context {num : Type} `{Num num}.

(** [computeCentroid].  The source returns [null] for no embeddings; the
    engine never builds a cluster without members, and the model writes the
    empty array there.  The centroid of two embeddings or more is a
    [Float32Array]: every [+=] and [/=] on it stores its result there.  An
    embedding shorter than the first one has [undefined] at the positions it
    lacks. *)
Definition computeCentroid (embeddings : list (list num)) : list num :=
  match embeddings with
  | [] => []
  | [e] => e
  | e0 :: _ =>
      let dim := length e0 in
      let sum :=
        fold_left (fun centroid emb =>
                     mapi (fun i x => nfround (nadd x (nth i emb nundefined)))
                          centroid)
                  embeddings (repeat nzero dim) in
      let mag := nsqrt (fold_left (fun m x => nadd m (nmul x x)) sum nzero) in
      if ngtb mag nzero then map (fun x => nfround (ndiv x mag)) sum else sum
  end.

Definition singletonCluster (idx : nat) (tv : tabVector num) : cluster num :=
  mkCluster [idx] [tv] [tv_embedding tv] (set_of [tv_domain tv])
            (tv_embedding tv) false.

Definition mergeClusters (c1 c2 : cluster num) : cluster num :=
  let embeddings := embeddings c1 ++ embeddings c2 in
  mkCluster (indices c1 ++ indices c2)
            (items c1 ++ items c2)
            embeddings
            (set_of (domains c1 ++ domains c2))
            (computeCentroid embeddings)
            false.

(** [absorbIntoCluster(source, target)]: the target after the call. *)
Definition absorbIntoCluster (source target : cluster num) : cluster num :=
  let embeddings := embeddings target ++ embeddings source in
  mkCluster (indices target ++ indices source)
            (items target ++ items source)
            embeddings
            (set_add_all (domains source) (domains target))
            (computeCentroid embeddings)
            (isMisc target).

Definition cloneCluster (c : cluster num) : cluster num :=
  mkCluster (indices c) (items c) (embeddings c) (set_of (domains c))
            (centroid c) false.

Definition createMiscCluster (orphans : list (cluster num)) : cluster num :=
  mkCluster (flat_map indices orphans)
            (flat_map items orphans)
            (flat_map embeddings orphans)
            (set_of (flat_map domains orphans))
            (computeCentroid (flat_map embeddings orphans))
            true.

End Clusters.

(* ------------------------------------------------------------------ *)
(** * Agglomerative clustering *)

(** [-((-a) / b)]: [Math.ceil(a / b)] on integers. *)
Definition ceil_div (a b : Z) : Z := (- ((- a) / b))%Z.

Definition calculateGroupCapacity (screenWidth : Z) (tabCount : nat) : Z :=
  let estimated := (screenWidth / PIXELS_PER_GROUP)%Z in
  let clamped := Z.max MIN_GROUPS (Z.min MAX_GROUPS estimated) in
  let maxForTabs := Z.max 2 (ceil_div (Z.of_nat tabCount) 2) in
  Z.min clamped maxForTabs.

(** [arr.filter((_, idx) => keep(idx))], positions counted from [i]. *)
Fixpoint filteri_from {A} (keep : nat -> bool) (i : nat) (l : list A) : list A :=
  match l with
  | [] => []
  | x :: rest =>
      if keep i then x :: filteri_from keep (S i) rest
      else filteri_from keep (S i) rest
  end.
Definition filteri {A} (keep : nat -> bool) (l : list A) : list A :=
  filteri_from keep 0 l.

(** The pairs [(i, clusters[i]), (j, clusters[j])] with [i < j], in the order
    the two nested loops of [findBestMerge] visit them. *)
Fixpoint pairs_from {A} (i : nat) (l : list A) : list ((nat * A) * (nat * A)) :=
  match l with
  | [] => []
  | x :: rest =>
      mapi_from (fun j y => ((i, x), (j, y))) (S i) rest ++ pairs_from (S i) rest
  end.

(** One merge of the clustering loop, as the debug log reports it: the cluster
    list before the merge, the two positions merged and their similarity. *)
Record merge_event (num : Type) := mkMerge {
  ev_clusters : list (cluster num);
  ev_i : nat;
  ev_j : nat;
  ev_similarity : num
}.
Arguments mkMerge {num} _ _ _ _.
Arguments ev_clusters {num} _.
Arguments ev_i {num} _.
Arguments ev_j {num} _.
Arguments ev_similarity {num} _.

Section Agglomerative.
Context {num : Type} `{Num num}.

Definition computeAdaptiveThreshold (tabCount : nat) (targetGroups : Z) : num :=
  let base := CONTENT_SIMILARITY_THRESHOLD in
  let scaleFactor :=
    nmax (dec 85 100)
         (nsub n_one (nmul (nofZ (Z.of_nat tabCount - 10)) (dec 1 100))) in
  nmul base scaleFactor.

(** Average linkage of two clusters: the mean of the matrix cells over the
    pairs of their members. *)
Definition averageLinkage (originalMatrix : list (list num))
  (ci cj : cluster num) : num :=
  let '(totalSim, count) :=
    fold_left (fun acc idx1 =>
                 fold_left (fun '(totalSim, count) idx2 =>
                              (nadd totalSim (cell originalMatrix idx1 idx2),
                               S count))
                           (indices cj) acc)
              (indices ci) (nzero, 0) in
  if 0 <? count then ndiv totalSim (nofnat count) else nzero.

(** [findBestMerge]: [None] stands for the source's answer when no pair was
    taken, [{i: -1, j: -1, similarity: -Infinity}].  Until a pair is taken
    [bestSim] is [-Infinity], and a pair is taken when its linkage is above
    that. *)
Definition findBestMerge (clusters : list (cluster num))
  (originalMatrix : list (list num)) : option (nat * nat * num) :=
  fold_left (fun best '((i, ci), (j, cj)) =>
               let avgSim := averageLinkage originalMatrix ci cj in
               match best with
               | None =>
                   if above_neg_infinity avgSim then Some (i, j, avgSim)
                   else None
               | Some (_, _, bestSim) =>
                   if ngtb avgSim bestSim then Some (i, j, avgSim) else best
               end)
            (pairs_from 0 clusters) None.

(** The [while] loop of [agglomerativeClustering], with the merges it makes.
    [fuel] bounds the number of merges.  [None]: the loop did not return a
    cluster list (more than [fuel] merges, or [clusters[i]] undefined). *)
Fixpoint clusteringLoop (fuel : nat) (similarityMatrix : list (list num))
  (adaptiveThreshold : num) (targetGroups : Z) (clusters : list (cluster num))
  : option (list (cluster num) * list (merge_event num)) :=
  if (targetGroups <? Z.of_nat (length clusters))%Z then
    match findBestMerge clusters similarityMatrix with
    | None => Some (clusters, [])
    | Some (i, j, similarity) =>
        if nltb similarity adaptiveThreshold then Some (clusters, [])
        else
          match fuel, nth_error clusters i, nth_error clusters j with
          | S fuel', Some ci, Some cj =>
              let merged := mergeClusters ci cj in
              let clusters' :=
                filteri (fun idx => negb (idx =? i) && negb (idx =? j))
                        clusters ++ [merged] in
              match clusteringLoop fuel' similarityMatrix
                      adaptiveThreshold targetGroups clusters' with
              | Some (out, merges) =>
                  Some (out, mkMerge clusters i j similarity :: merges)
              | None => None
              end
          | _, _, _ => None
          end
    end
  else Some (clusters, []).

(** Each merge removes one cluster: as many merges as there are tabs are
    never reached (see [agglomerativeClustering_returns]). *)
Definition agglomerativeClustering_log (tabVectors : list (tabVector num))
  (similarityMatrix : list (list num)) (targetGroups : Z)
  : option (list (cluster num) * list (merge_event num)) :=
  let n := length tabVectors in
  let clusters := mapi singletonCluster tabVectors in
  let adaptiveThreshold := computeAdaptiveThreshold n targetGroups in
  clusteringLoop n similarityMatrix adaptiveThreshold targetGroups clusters.

Definition agglomerativeClustering (tabVectors : list (tabVector num))
  (similarityMatrix : list (list num)) (targetGroups : Z)
  : option (list (cluster num)) :=
  option_map fst
    (agglomerativeClustering_log tabVectors similarityMatrix targetGroups).

End Agglomerative.

(* ------------------------------------------------------------------ *)
(** * Singleton consolidation *)

(** [arr[idx] = f(arr[idx])]: the in-place update of one object of an array. *)
Fixpoint update_at {A} (idx : nat) (f : A -> A) (l : list A) : list A :=
  match l, idx with
  | [], _ => []
  | x :: rest, O => f x :: rest
  | x :: rest, S idx' => x :: update_at idx' f rest
  end.

Section Consolidation.
Context {num : Type} `{Num num}.

(** The scan shared by [clusterSingletonsTogether] and [findClosestCluster]:
    the position of the first cluster whose score is the highest and above
    -1 ([None] for [null]), and that score.  [i] is the position of the head
    of [clusters]. *)
Fixpoint scanBest (score : cluster num -> num) (i : nat)
  (clusters : list (cluster num)) (best : option nat) (bestScore : num)
  : option nat * num :=
  match clusters with
  | [] => (best, bestScore)
  | cluster :: rest =>
      let s := score cluster in
      if ngtb s bestScore then scanBest score (S i) rest (Some i) s
      else scanBest score (S i) rest best bestScore
  end.

(** [singleton.items[0].domain]. *)
Definition firstDomain (singleton : cluster num) : string :=
  match items singleton with
  | item :: _ => tv_domain item
  | [] => ""
  end.

Definition singletonScore (singleton cluster : cluster num) : num :=
  let sim := cosineSimilarity (centroid singleton) (centroid cluster) in
  let domainMatch := includes (domains cluster) (firstDomain singleton) in
  nadd sim (if domainMatch then DOMAIN_AFFINITY_BOOST else nzero).

(** One iteration of the loop of [clusterSingletonsTogether]. *)
Definition placeSingleton (clusters : list (cluster num))
  (singleton : cluster num) : list (cluster num) :=
  match scanBest (singletonScore singleton) 0 clusters None (nofZ (-1)) with
  | (Some idx, bestScore) =>
      if ngeb bestScore SINGLETON_CLUSTER_THRESHOLD
      then update_at idx (absorbIntoCluster singleton) clusters
      else clusters ++ [cloneCluster singleton]
  | (None, _) => clusters ++ [cloneCluster singleton]
  end.

Definition clusterSingletonsTogether (singletons : list (cluster num))
  : list (cluster num) :=
  if length singletons <=? 1 then singletons
  else fold_left placeSingleton singletons [].

Definition findClosestCluster (singleton : cluster num)
  (clusters : list (cluster num)) : option nat * num :=
  scanBest (fun cluster =>
              cosineSimilarity (centroid singleton) (centroid cluster))
           0 clusters None (nofZ (-1)).

(** One iteration of pass 2, on [(multiClusters, finalOrphans)]. *)
Definition absorbOrphan (state : list (cluster num) * list (cluster num))
  (orphan : cluster num) : list (cluster num) * list (cluster num) :=
  let '(multiClusters, finalOrphans) := state in
  match findClosestCluster orphan multiClusters with
  | (Some idx, similarity) =>
      if ngeb similarity SINGLETON_ABSORPTION_THRESHOLD
      then (update_at idx (absorbIntoCluster orphan) multiClusters, finalOrphans)
      else (multiClusters, finalOrphans ++ [orphan])
  | (None, _) => (multiClusters, finalOrphans ++ [orphan])
  end.

Definition isSingle (c : cluster num) : bool := length (items c) =? 1.
Definition isMulti (c : cluster num) : bool := 1 <? length (items c).

(** Passes 1 and 2: the multi-item clusters and the true orphans. *)
Definition consolidationPasses (clusters : list (cluster num))
  : list (cluster num) * list (cluster num) :=
  let singletons := filter isSingle clusters in
  let multiClusters := filter isMulti clusters in
  let singletonGroups := clusterSingletonsTogether singletons in
  let newMulti := filter isMulti singletonGroups in
  let orphans := filter isSingle singletonGroups in
  fold_left absorbOrphan orphans (multiClusters ++ newMulti, []).

Definition consolidateSingletons (clusters : list (cluster num))
  (groupCapacity : Z) : list (cluster num) :=
  let singletons := filter isSingle clusters in
  if length singletons =? 0 then clusters
  else
    let '(multiClusters, finalOrphans) := consolidationPasses clusters in
    if length finalOrphans =? 0 then multiClusters
    else if (Z.of_nat (length multiClusters + length finalOrphans)
               <=? groupCapacity)%Z
    then multiClusters ++ finalOrphans
    else if MIN_ORPHANS_FOR_MISC <=? length finalOrphans
    then multiClusters ++ [createMiscCluster finalOrphans]
    else multiClusters ++ finalOrphans.

End Consolidation.

(* ------------------------------------------------------------------ *)
(** * Cluster metadata and the pipeline *)

Definition colors : list string :=
  ["blue"; "green"; "yellow"; "red"; "pink"; "purple"; "cyan"; "orange"; "grey"].

(** [tab.url] as [new URL] reads it: a missing property is the string
    "undefined". *)
Definition urlString (t : tab) : string :=
  match tab_url t with Some u => u | None => "undefined" end.

(** The guard of the scripting branch of [extractAndEnrichTabs]. *)
Definition scriptable (t : tab) : bool :=
  match tab_url t with
  | Some u => negb (String.eqb u "") && negb (startsWith "chrome://" u)
              && negb (startsWith "edge://" u)
  | None => false
  end.

Section Pipeline.
Context {num : Type} `{Num num}.

(** The collaborators: the platform's URL parser, the text the injected page
    script yields ([None] when scripting fails or yields nothing), and the
    embedding model. *)
Variable new_URL : string -> option URL.
Variable executeScript : tab -> option string.
Variable extractor : string -> list num.
(** [generateClusterName] only fills the [name] of a result; it is left
    open. *)
Variable generateClusterName : cluster num -> Async string.

Definition enrichTab (t : tab) : Async enrichedTab :=
  let url := parseUrl new_URL (urlString t) in
  content <- (if scriptable t
              then called (RunScript (tab_id t)) ;;;
                   ret (match executeScript t with
                        | Some text => text
                        | None => tab_title t
                        end)
              else ret (tab_title t)) ;;
  ret (mkEnriched t content (uf_domain url) (uf_baseDomain url)
                  (uf_pathTokens url)).

Definition extractAndEnrichTabs (tabs : list tab) : Async (list enrichedTab) :=
  for_each enrichTab tabs.

Definition getEmbedding (text : string) : Async (list num) :=
  called (Embed text) ;;; ret (extractor text).

Definition generateEmbeddings (enrichedTabs : list enrichedTab)
  : Async (list (tabVector num)) :=
  for_each (fun item =>
              embedding <- getEmbedding (en_content item) ;;
              ret (mkTabVector (en_tab item) (en_content item) (en_domain item)
                               (en_baseDomain item) (en_pathTokens item)
                               embedding))
           enrichedTabs.

(** The loop of [generateClusterMetadata], from position [i]. *)
Fixpoint clusterMetadata_from (i : nat) (clusters : list (cluster num))
  : Async (list ClusterResult) :=
  match clusters with
  | [] => ret []
  | cluster :: rest =>
      if length (items cluster) =? 1 then clusterMetadata_from (S i) rest
      else
        name <- (if isMisc cluster then ret "MISC"
                 else generateClusterName cluster) ;;
        results <- clusterMetadata_from (S i) rest ;;
        ret (mkResult name
                      (nth (i mod length colors) colors "")
                      (map (fun item => tab_id (tv_tab item)) (items cluster))
             :: results)
  end.

Definition generateClusterMetadata (clusters : list (cluster num))
  : Async (list ClusterResult) :=
  clusterMetadata_from 0 clusters.

(** [clusterTabs].  [None]: the clustering loop did not return. *)
Definition clusterTabs (tabs : list tab) (screenWidth : Z)
  : Async (option (list ClusterResult)) :=
  init ;;;
  if length tabs <=? 2 then ret (Some [])
  else
    enrichedTabs <- extractAndEnrichTabs tabs ;;
    tabVectors <- generateEmbeddings enrichedTabs ;;
    let similarityMatrix := buildSimilarityMatrix tabVectors in
    let groupCapacity := calculateGroupCapacity screenWidth (length tabs) in
    match agglomerativeClustering tabVectors similarityMatrix groupCapacity with
    | None => ret None
    | Some clusters =>
        let clusters := consolidateSingletons clusters groupCapacity in
        result <- generateClusterMetadata clusters ;;
        ret (Some result)
    end.

End Pipeline.

(* ------------------------------------------------------------------ *)
(** * Reference definitions, in the words of the specification *)

Module Spec.

(** A leading "www." removed. *)
Definition without_www (h : string) : string :=
  match h with
  | String c1 (String c2 (String c3 (String c4 rest))) =>
      if Ascii.eqb c1 "w" && Ascii.eqb c2 "w" && Ascii.eqb c3 "w"
         && Ascii.eqb c4 "."
      then rest else h
  | _ => h
  end.

(** The last two entries of a list of at least two labels, joined by a
    dot. *)
Fixpoint last_two_labels (labels : list string) : option string :=
  match labels with
  | [] => None
  | [_] => None
  | [a; b] => Some (a ++ "." ++ b)%string
  | _ :: rest => last_two_labels rest
  end.

(** What "split on" a separator says, in words of its own: the string is
    the pieces in order with one separator between each two, and no piece
    holds a separator. *)
Definition is_dot (c : ascii) : Prop := c = "."%char.
Definition is_path_separator (c : ascii) : Prop :=
  c = "/"%char \/ c = "-"%char \/ c = "_"%char.

Definition free_of (sep : ascii -> Prop) (s : string) : Prop :=
  forall c, In c (list_ascii_of_string s) -> ~ sep c.

Inductive split_by (sep : ascii -> Prop) : string -> list string -> Prop :=
| split_last (piece : string) :
    free_of sep piece -> split_by sep piece [piece]
| split_next (piece : string) (c : ascii) (rest : string)
    (pieces : list string) :
    free_of sep piece -> sep c -> split_by sep rest pieces ->
    split_by sep (piece ++ String c rest)%string (piece :: pieces).

(** Walk the pieces in order, drop those of at most two characters, stop
    after [k] tokens. *)
Fixpoint take_tokens (k : nat) (pieces : list string) : list string :=
  match k, pieces with
  | O, _ => []
  | _, [] => []
  | S k', piece :: rest =>
      if String.length piece <=? 2 then take_tokens k rest
      else piece :: take_tokens k' rest
  end.

(** The features of a URL string: of one the parser refuses ([None]), the
    empty features; of a parsed one, the domain is the hostname without a
    leading "www.", the base domain the last two of its dot-separated labels
    (the domain itself when there are fewer than two), the path tokens the
    first five pieces of the path between '/', '-' and '_' that are longer
    than two characters. *)
Inductive featurizes : option URL -> urlFeatures -> Prop :=
| featurizes_refused : featurizes None (mkFeatures "" "" [])
| featurizes_parsed (url : URL) (labels pieces : list string) :
    split_by is_dot (without_www (hostname url)) labels ->
    split_by is_path_separator (pathname url) pieces ->
    featurizes (Some url)
      (mkFeatures (without_www (hostname url))
                  (match last_two_labels labels with
                   | Some base => base
                   | None => without_www (hostname url)
                   end)
                  (take_tokens 5 pieces)).

Local Open Scope R_scope.

(** The dot product of two vectors. *)
Fixpoint dot_product (a b : list R) : R :=
  match a, b with
  | x :: a', y :: b' => x * y + dot_product a' b'
  | _, _ => 0
  end.

(** The tokens present in both token sets. *)
Definition shared_tokens (ta tb : list string) : list string :=
  nodup string_dec (filter (fun t => if in_dec string_dec t tb then true else false) ta).

Definition pairwiseSimilarity (a b : tabVector R) : R :=
  let D := 15 / 100 in
  let P := 8 / 100 in
  let c := length (shared_tokens (tv_pathTokens a) (tv_pathTokens b)) in
  dot_product (tv_embedding a) (tv_embedding b)
  + (if string_dec (tv_domain a) (tv_domain b) then D
     else if string_dec (tv_baseDomain a) (tv_baseDomain b) then D / 2
     else 0)
  + (if (0 <? c)%nat
     then P * Rmin 1 (INR c / INR (Nat.max (Nat.max (length (tv_pathTokens a))
                                                    (length (tv_pathTokens b))) 1))
     else 0).






End Spec.

(* ------------------------------------------------------------------ *)
(** * Predicates of the statements *)

Section Predicates.
Context {num : Type} `{Num num}.

(** A cluster with at least one item. *)
Definition has_members (c : cluster num) : Prop := items c <> [].

(** The items of a cluster are the tab vectors at its indices. *)
Definition members_of (tabVectors : list (tabVector num)) (c : cluster num)
  : Prop :=
  Forall2 (fun i item => nth_error tabVectors i = Some item) (indices c) (items c).

(** [cluster.items.map(item => item.tab.id)]. *)
Definition item_ids (c : cluster num) : list Z :=
  map (fun item => tab_id (tv_tab item)) (items c).


(** A merge of the log was allowed: it was made with more clusters than the
    target, on the pair [findBestMerge] chose, whose similarity is the
    average linkage of the two clusters and is not below the threshold. *)
Definition merge_allowed (M : list (list num)) (thr : num) (target : Z)
  (ev : merge_event num) : Prop :=
  (target < Z.of_nat (length (ev_clusters ev)))%Z
  /\ findBestMerge (ev_clusters ev) M = Some (ev_i ev, ev_j ev, ev_similarity ev)
  /\ (exists ci cj,
         nth_error (ev_clusters ev) (ev_i ev) = Some ci
         /\ nth_error (ev_clusters ev) (ev_j ev) = Some cj
         /\ ev_similarity ev = averageLinkage M ci cj)
  /\ nltb (ev_similarity ev) thr = false.

(** Where the loop stops: at or below the target, or where the best
    similarity is below the threshold (no pair at all counts as below). *)
Definition loop_stopped (M : list (list num)) (thr : num) (target : Z)
  (clusters : list (cluster num)) : Prop :=
  (Z.of_nat (length clusters) <= target)%Z
  \/ findBestMerge clusters M = None
  \/ exists i j s, findBestMerge clusters M = Some (i, j, s) /\ nltb s thr = true.

(** The capacity bound as the specification words it: with enough true
    orphans for a catch-all, the consolidated list fits the capacity. *)
Definition capacity_respected (clusters : list (cluster num)) (groupCapacity : Z)
  : Prop :=
  MIN_ORPHANS_FOR_MISC <= length (snd (consolidationPasses clusters)) ->
  (Z.of_nat (length (consolidateSingletons clusters groupCapacity))
   <= groupCapacity)%Z.

End Predicates.




(* ------------------------------------------------------------------ *)
(** * Example inputs *)

Module Examples.

(** The [k]-th unit vector of dimension [d]. *)
Definition unit_vec {num} `{Num num} (d k : nat) : list num :=
  map (fun i => if i =? k then n_one else nzero) (seq 0 d).

(** A parser for the URLs of the examples, "https://host/path". *)
Definition new_URL (s : string) : option URL :=
  if startsWith "https://" s
  then match split_on (Ascii.eqb "/") (String.substring 8 (String.length s - 8) s) with
       | host :: path => Some (mkURL host (String.append "/" (join "/" path)))
       | [] => None
       end
  else None.

(** Page scripting is not available: the text of a tab is its title. *)
Definition executeScript (t : tab) : option string := None.

Definition topics : list string :=
  ["alpha"; "beta"; "gamma"; "delta"; "epsilon"; "zeta"].

Fixpoint position (text : string) (l : list string) : nat :=
  match l with
  | [] => 0
  | x :: rest => if String.eqb text x then 0 else S (position text rest)
  end.

(** A model with six orthogonal topics. *)
Definition extractor {num} `{Num num} (text : string) : list num :=
  unit_vec 6 (position text topics).

Definition generateClusterName {num} (c : cluster num) : Async string :=
  ret "GROUP".

Definition fresh : engine := mkEngine false [].

(** Nine tabs: three pairs on one topic each, and three tabs on topics of
    their own; the window is 500 pixels wide. *)
Definition crowded_tabs : list tab :=
  [mkTab 11 (Some "https://a.example/") "alpha";
   mkTab 12 (Some "https://b.example/") "alpha";
   mkTab 13 (Some "https://c.example/") "beta";
   mkTab 14 (Some "https://d.example/") "beta";
   mkTab 15 (Some "https://e.example/") "gamma";
   mkTab 16 (Some "https://f.example/") "gamma";
   mkTab 17 (Some "https://g.example/") "delta";
   mkTab 18 (Some "https://h.example/") "epsilon";
   mkTab 19 (Some "https://i.example/") "zeta"].

Definition crowded_width : Z := 500.

Definition tabVector_of {num} `{Num num} (t : tab) : tabVector num :=
  let url := parseUrl new_URL (urlString t) in
  mkTabVector t (tab_title t) (uf_domain url) (uf_baseDomain url)
              (uf_pathTokens url) (extractor (tab_title t)).

Definition crowded_tabVectors {num} `{Num num} : list (tabVector num) :=
  map tabVector_of crowded_tabs.

Definition crowded_capacity : Z :=
  calculateGroupCapacity crowded_width (length crowded_tabs).

(** The clusters the agglomerative pass returns on them, over the
    rationals. *)
Definition crowded_clusters : list (cluster Q) :=
  match agglomerativeClustering crowded_tabVectors
          (buildSimilarityMatrix crowded_tabVectors) crowded_capacity with
  | Some clusters => clusters
  | None => []
  end.

(** Two items that share the path token "docs"; the path of the first one
    repeats it. *)
Definition docs_twice {num} `{Num num} : tabVector num :=
  tabVector_of (mkTab 1 (Some "https://a.example/docs/docs") "alpha").
Definition docs_once {num} `{Num num} : tabVector num :=
  tabVector_of (mkTab 2 (Some "https://b.example/docs") "alpha").

End Examples.

(* ------------------------------------------------------------------ *)
(** * Cluster naming: [generateClusterName] *)

(** ASCII letters and digits.  Titles are byte strings; a byte that is not an
    ASCII letter or digit is a separator for [/[\W_]+/], as every character
    outside ASCII is in the source.  (Two characters outside ASCII have an
    ASCII lower case, U+0130 and U+212A; they are not modelled.) *)
Definition is_upper (c : ascii) : bool :=
  (65 <=? nat_of_ascii c) && (nat_of_ascii c <=? 90).
Definition is_lower (c : ascii) : bool :=
  (97 <=? nat_of_ascii c) && (nat_of_ascii c <=? 122).
Definition is_digit (c : ascii) : bool :=
  (48 <=? nat_of_ascii c) && (nat_of_ascii c <=? 57).
Definition to_lower (c : ascii) : ascii :=
  if is_upper c then ascii_of_nat (nat_of_ascii c + 32) else c.
Definition to_upper (c : ascii) : ascii :=
  if is_lower c then ascii_of_nat (nat_of_ascii c - 32) else c.

Fixpoint string_map (f : ascii -> ascii) (s : string) : string :=
  match s with
  | EmptyString => EmptyString
  | String c rest => String (f c) (string_map f rest)
  end.

(** [s.toLowerCase()] and [s.toUpperCase()], on ASCII letters; every other
    byte is kept. *)
Definition toLowerCase (s : string) : string := string_map to_lower s.
Definition toUpperCase (s : string) : string := string_map to_upper s.

(** The separators of [/[\W_]+/]. *)
Definition word_separator (c : ascii) : bool :=
  negb (is_upper c || is_lower c || is_digit c).

(** After the first piece of a split on runs of separators: an empty piece
    that is not the last one lies between two adjacent separators, and is not
    a piece of the split on runs. *)
Fixpoint drop_inner_empty (pieces : list string) : list string :=
  match pieces with
  | [] => []
  | piece :: rest =>
      match rest with
      | [] => [piece]
      | _ :: _ =>
          if String.eqb piece "" then drop_inner_empty rest
          else piece :: drop_inner_empty rest
      end
  end.

(** [s.split(/[sep]+/)]. *)
Definition split_runs (sep : ascii -> bool) (s : string) : list string :=
  match split_on sep s with
  | [] => []
  | first :: rest => first :: drop_inner_empty rest
  end.

(** [s.includes(' ')]. *)
Fixpoint has_space (s : string) : bool :=
  match s with
  | EmptyString => false
  | String c rest => Ascii.eqb c " " || has_space rest
  end.

Module Naming.

Definition stopWords : list string :=
  ["the"; "and"; "is"; "in"; "at"; "of"; "for"; "to"; "with"; "on"; "a"; "an";
   "http"; "https"; "com"; "www"; "video"; "watch"; "google"; "youtube";
   "org"; "en"; "this"; "that"; "your"; "you"; "are"; "was"; "were"; "been";
   "have"; "has"; "had"; "will"; "would"; "could"; "should"; "may"; "might";
   "new"; "latest"; "home"; "page"; "site"; "web"; "online"; "free"; "best"].

Definition genericLabels : list string :=
  ["com"; "org"; "net"; "io"; "co"; "www"].

(** The [Map] of candidates: keys in insertion order, each with its weight.
    [candidates.set(key, (candidates.get(key) || 0) + n)]. *)
Fixpoint bump (key : string) (n : nat) (candidates : list (string * nat))
  : list (string * nat) :=
  match candidates with
  | [] => [(key, n)]
  | (k, v) :: rest =>
      if String.eqb k key then (k, v + n) :: rest
      else (k, v) :: bump key n rest
  end.

(** The label of a domain that may name the cluster: the longest label that
    is longer than two characters and not generic, the later one of two of
    the same length; empty when there is none. *)
Definition mainLabel (domain : string) : string :=
  let parts :=
    filter (fun p => (2 <? String.length p) && negb (includes genericLabels p))
           (split_on dot domain) in
  fold_left (fun a b => if String.length b <? String.length a then a else b)
            parts "".

Definition addDomain (candidates : list (string * nat)) (domain : string)
  : list (string * nat) :=
  if String.eqb domain "" then candidates
  else let main := mainLabel domain in
       if String.eqb main "" then candidates else bump main 3 candidates.

(** The words of a title. *)
Definition titleWords (title : string) : list string :=
  filter (fun w => (2 <? String.length w) && negb (includes stopWords w))
         (split_runs word_separator (toLowerCase title)).

(** The bigrams [words[i] + ' ' + words[i+1]]. *)
Fixpoint bigrams (words : list string) : list string :=
  match words with
  | a :: (b :: _) as rest => String.append a (String " " b) :: bigrams rest
  | _ => []
  end.

Definition addTitle (candidates : list (string * nat)) (title : string)
  : list (string * nat) :=
  let words := titleWords title in
  let candidates := fold_left (fun acc w => bump w 1 acc) words candidates in
  fold_left (fun acc bigram => bump bigram 2 acc) (bigrams words) candidates.

Definition collectCandidates {num} (c : cluster num) : list (string * nat) :=
  fold_left addTitle (map (fun item => tab_title (tv_tab item)) (items c))
            (fold_left addDomain (domains c) []).

(** [entries.sort((a, b) => b[1] - a[1])]: by weight, heaviest first, entries
    of one weight in their order (the sort is stable). *)
Fixpoint insertByWeight (x : string * nat) (sorted : list (string * nat))
  : list (string * nat) :=
  match sorted with
  | [] => [x]
  | y :: rest =>
      if snd y <? snd x then x :: y :: rest else y :: insertByWeight x rest
  end.
Definition sortByWeight (entries : list (string * nat)) : list (string * nat) :=
  fold_left (fun sorted x => insertByWeight x sorted) entries [].

Definition topCandidates (candidates : list (string * nat)) : list string :=
  map fst (slice_first 6 (sortByWeight candidates)).

(** [w.charAt(0).toUpperCase() + w.slice(1)]. *)
Definition capitalize (w : string) : string :=
  match w with
  | EmptyString => EmptyString
  | String c rest => String (to_upper c) rest
  end.

Definition formatName (bestName : string) : string :=
  if has_space bestName
  then join " " (map capitalize (split_on (Ascii.eqb " ") bestName))
  else toUpperCase bestName.

(** What the candidate table keeps: distinct keys, none empty. *)
Definition table_ok (m : list (string * nat)) : Prop :=
  NoDup (map fst m) /\ Forall (fun k => k <> "") (map fst m).

Section Namer.
Context {num : Type} `{Num num}.
Variable extractor : string -> list num.

(** The loop that scores the top candidates against the centroid. *)
Fixpoint pickBest (centroid : list num) (candidates : list string)
  (bestName : string) (bestScore : num) : Async string :=
  match candidates with
  | [] => ret bestName
  | candidate :: rest =>
      vec <- getEmbedding extractor candidate ;;
      let score := cosineSimilarity vec centroid in
      if ngtb score bestScore then pickBest centroid rest candidate score
      else pickBest centroid rest bestName bestScore
  end.

Definition generateClusterName (c : cluster num) : Async string :=
  let candidates := collectCandidates c in
  if length candidates =? 0 then ret "GROUP"
  else
    let top := topCandidates candidates in
    bestName <- pickBest (centroid c) top (hd "" top) (nofZ (-1)) ;;
    ret (formatName bestName).

End Namer.
End Naming.

(* ------------------------------------------------------------------ *)
(** * The tab manager: [applyGroups] (src/tabManager.js) *)

(** A tab as the tab manager reads it. *)
Record windowTab := mkWindowTab { wt_id : Z; wt_groupId : Z }.

(** [chrome.tabGroups.TAB_GROUP_ID_NONE]. *)
Definition TAB_GROUP_ID_NONE : Z := (-1)%Z.

(** Calls to the browser. *)
Inductive chromeCall :=
| Ungroup (tabIds : list Z)
| Group (tabIds : list Z)
| UpdateGroup (groupId : Z) (title color : string).

Definition isGroupCall (c : chromeCall) : bool :=
  match c with Group _ => true | _ => false end.

Section TabManager.
(** [chrome.tabs.group] for the group definition at a position of the list:
    the identifier of the new group, [None] when the call throws. *)
Variable tabs_group : nat -> list Z -> option Z.

(** The calls one group definition leads to. *)
Definition applyGroup (position : nat) (groupDef : ClusterResult)
  : list chromeCall :=
  if length (tabIds groupDef) =? 0 then []
  else if (length (tabIds groupDef) =? 1) && negb (String.eqb (name groupDef) "MISC")
  then []
  else Group (tabIds groupDef)
       :: match tabs_group position (tabIds groupDef) with
          | Some groupId => [UpdateGroup groupId (name groupDef) (color groupDef)]
          | None => []
          end.

(** [applyGroups]: the calls it makes, in order.  A call that throws is
    caught and the loop goes on. *)
Definition applyGroups (groups : list ClusterResult) (allTabs : list windowTab)
  : list chromeCall :=
  let tabsInGroups :=
    filter (fun t => negb (wt_groupId t =? TAB_GROUP_ID_NONE)%Z) allTabs in
  (if 0 <? length tabsInGroups then [Ungroup (map wt_id tabsInGroups)] else [])
  ++ concat (mapi applyGroup groups).

End TabManager.

(* ------------------------------------------------------------------ *)
(** * Properties of the featurizer *)

Lemma substring_whole (s : string) : String.substring 0 (String.length s) s = s.
Proof. induction s as [|c s IH]; simpl; [reflexivity | now rewrite IH]. Qed.

Lemma strip_www_spec (h : string) : strip_www h = Spec.without_www h.
Proof.
  unfold strip_www.
  destruct h as [|c1 [|c2 [|c3 [|c4 r]]]];
    cbn [startsWith Spec.without_www];
    rewrite ?(Ascii.eqb_sym "w"), ?(Ascii.eqb_sym ".");
    repeat match goal with
           | |- context [Ascii.eqb ?a ?b] => destruct (Ascii.eqb a b)
           end; try reflexivity.
  cbn [andb String.length Nat.sub String.substring].
  rewrite Nat.sub_0_r. apply substring_whole.
Qed.

Lemma split_on_nonempty (sep : ascii -> bool) (s : string) : split_on sep s <> [].
Proof.
  destruct s as [|c s]; simpl; [discriminate|].
  destruct (sep c); [discriminate|].
  destruct (split_on sep s); discriminate.
Qed.

Lemma last_two_labels_spec (labels : list string) :
  Spec.last_two_labels labels =
  if 2 <=? length labels then Some (join "." (slice_last 2 labels)) else None.
Proof.
  unfold slice_last, join.
  induction labels as [|a rest IH]; [reflexivity|].
  destruct rest as [|b [|c rest]]; [reflexivity | reflexivity |].
  change (Spec.last_two_labels (a :: b :: c :: rest))
    with (Spec.last_two_labels (b :: c :: rest)).
  rewrite IH. cbn [length Nat.leb Nat.sub skipn].
  now rewrite Nat.sub_0_r.
Qed.

Lemma take_tokens_spec (k : nat) (pieces : list string) :
  Spec.take_tokens k pieces =
  slice_first k (filter (fun t => 2 <? String.length t) pieces).
Proof.
  unfold slice_first. revert k.
  induction pieces as [|p rest IH]; intros k.
  - destruct k; reflexivity.
  - destruct k as [|k]; [reflexivity|].
    simpl. rewrite Nat.ltb_antisym.
    destruct (String.length p <=? 2); simpl.
    + apply IH.
    + now rewrite IH.
Qed.

(** The pieces of a split hold no separator, and the pieces of a split on
    the dot, joined by dots again, are the string split. *)
Lemma split_on_pieces (sep : ascii -> bool) (s : string) :
  Forall (fun piece => string_forallb (fun c => negb (sep c)) piece = true)
         (split_on sep s).
Proof.
  induction s as [|c s IH]; simpl.
  - repeat constructor.
  - destruct (sep c) eqn:E.
    + constructor; [reflexivity | exact IH].
    + destruct (split_on sep s) as [|piece pieces].
      * repeat constructor. simpl. now rewrite E.
      * inversion IH; subst. constructor; [|assumption].
        simpl. rewrite E. assumption.
Qed.

Lemma join_split_dot (s : string) : join "." (split_on dot s) = s.
Proof.
  unfold join.
  induction s as [|c s IH]; [reflexivity|].
  simpl. destruct (dot c) eqn:E.
  - unfold dot in E. apply Ascii.eqb_eq in E. subst c.
    pose proof (split_on_nonempty dot s) as NE.
    destruct (split_on dot s) as [|p ps]; [congruence|].
    simpl in *. now rewrite IH.
  - pose proof (split_on_nonempty dot s) as NE.
    destruct (split_on dot s) as [|p ps]; [congruence|].
    simpl in *. destruct ps; simpl in *; now rewrite <- IH.
Qed.

(** The splitting function of the engine splits as the specification says,
    and there is one way only to split a string. *)
Lemma free_of_empty (sep : ascii -> Prop) : Spec.free_of sep "".
Proof. intros c []. Qed.

Lemma free_of_cons (sep : ascii -> Prop) (c : ascii) (s : string) :
  Spec.free_of sep (String c s) <-> ~ sep c /\ Spec.free_of sep s.
Proof.
  unfold Spec.free_of. simpl. split.
  - intros Hfree. split; [apply Hfree; now left|].
    intros x Hx. apply Hfree. now right.
  - intros [Hc Hs] x [<- | Hx]; auto.
Qed.

Lemma split_on_split_by (sepb : ascii -> bool) (sep : ascii -> Prop)
  (s : string) :
  (forall c, sepb c = true <-> sep c) ->
  Spec.split_by sep s (split_on sepb s).
Proof.
  intros Hsep. induction s as [|c s IH]; simpl.
  - constructor. apply free_of_empty.
  - destruct (sepb c) eqn:E.
    + apply (Spec.split_next sep "" c s); [apply free_of_empty | | exact IH].
      now apply Hsep.
    + assert (~ sep c) as Hc by (rewrite <- Hsep, E; discriminate).
      inversion IH as [piece Hfree Hs Hpieces
                      |piece c' rest pieces Hfree Hc' Hrest Hs Hpieces]; subst.
      * constructor. now apply free_of_cons.
      * apply (Spec.split_next sep (String c piece) c' rest pieces); auto.
        now apply free_of_cons.
Qed.

Lemma split_point_unique (sep : ascii -> Prop) (p p' : string) (c c' : ascii)
  (rest rest' : string) :
  Spec.free_of sep p -> Spec.free_of sep p' -> sep c -> sep c' ->
  (p ++ String c rest)%string = (p' ++ String c' rest')%string ->
  p = p' /\ c = c' /\ rest = rest'.
Proof.
  revert p'. induction p as [|a p IH]; intros [|a' p'] Hp Hp' Hc Hc' Heq;
    simpl in Heq.
  - injection Heq as -> ->. auto.
  - injection Heq as -> _. apply free_of_cons in Hp'. tauto.
  - injection Heq as -> _. apply free_of_cons in Hp. tauto.
  - injection Heq as -> Heq.
    apply free_of_cons in Hp. apply free_of_cons in Hp'.
    destruct (IH p' (proj2 Hp) (proj2 Hp') Hc Hc' Heq) as (-> & -> & ->). auto.
Qed.

Lemma free_of_no_split (sep : ascii -> Prop) (p : string) (c : ascii)
  (rest : string) :
  sep c -> ~ Spec.free_of sep (p ++ String c rest).
Proof.
  intros Hc Hfree. induction p as [|a p IH]; simpl in Hfree.
  - apply free_of_cons in Hfree. tauto.
  - apply free_of_cons in Hfree. tauto.
Qed.

Lemma split_by_unique (sep : ascii -> Prop) (s : string)
  (pieces pieces' : list string) :
  Spec.split_by sep s pieces -> Spec.split_by sep s pieces' -> pieces = pieces'.
Proof.
  intros Hsplit. revert pieces'.
  induction Hsplit as [piece Hfree | piece c rest pieces Hfree Hc Hrest IH];
    intros pieces' Hsplit'.
  - inversion Hsplit' as [piece' Hfree' Hs Hp
                         |piece' c' rest' ps' Hfree' Hc' Hrest' Hs Hp]; subst.
    + reflexivity.
    + exfalso. exact (free_of_no_split sep piece' c' rest' Hc' Hfree).
  - inversion Hsplit' as [piece' Hfree' Hs Hp
                         |piece' c' rest' ps' Hfree' Hc' Hrest' Hs Hp]; subst.
    + exfalso. exact (free_of_no_split sep piece c rest Hc Hfree').
    + destruct (split_point_unique sep piece' piece c' c rest' rest
                  Hfree' Hfree Hc' Hc Hs) as (-> & -> & ->).
      f_equal. now apply IH.
Qed.

Lemma dot_is_dot (c : ascii) : dot c = true <-> Spec.is_dot c.
Proof. unfold dot, Spec.is_dot. apply Ascii.eqb_eq. Qed.

Lemma path_separator_is_path_separator (c : ascii) :
  path_separator c = true <-> Spec.is_path_separator c.
Proof.
  unfold path_separator, Spec.is_path_separator.
  rewrite !orb_true_iff, !Ascii.eqb_eq. tauto.
Qed.

(** C8.  [parseUrl] is total (a URL the platform refuses gives the empty
    features, nothing is thrown) and its answer is the features of the
    specification, the only ones there are: the domain, the hostname without
    a leading "www."; the base domain, the last two dot-separated labels of
    the domain when there are at least two, the domain itself otherwise; the
    path tokens, the pieces of the path between '/', '-' and '_' that are
    longer than two characters, the first five of them in order.  The labels
    are the one way to write the domain as dot-free strings with a dot
    between each two, and likewise the pieces of the path.  So every token
    is longer than two characters and there are at most five. *)
Theorem parseUrl_featurizes (new_URL : string -> option URL) (urlString : string) :
  Spec.featurizes (new_URL urlString) (parseUrl new_URL urlString)
  /\ (forall features,
         Spec.featurizes (new_URL urlString) features ->
         features = parseUrl new_URL urlString)
  /\ Forall (fun t => 2 < String.length t)
            (uf_pathTokens (parseUrl new_URL urlString))
  /\ length (uf_pathTokens (parseUrl new_URL urlString)) <= 5.
Proof.
  assert (forall url,
             parseUrl (fun _ => Some url) urlString
             = mkFeatures
                 (Spec.without_www (hostname url))
                 (match Spec.last_two_labels
                          (split_on dot (Spec.without_www (hostname url))) with
                  | Some base => base
                  | None => Spec.without_www (hostname url)
                  end)
                 (Spec.take_tokens 5 (split_on path_separator (pathname url))))
    as Hcode.
  { intros url. unfold parseUrl. rewrite strip_www_spec.
    rewrite last_two_labels_spec, take_tokens_spec.
    now destruct (2 <=? length (split_on dot (Spec.without_www (hostname url)))). }
  assert (parseUrl new_URL urlString
          = match new_URL urlString with
            | Some url => parseUrl (fun _ => Some url) urlString
            | None => mkFeatures "" "" []
            end) as Hcases
      by (unfold parseUrl; destruct (new_URL urlString); reflexivity).
  split; [|split; [|split]].
  - rewrite Hcases. destruct (new_URL urlString) as [url|]; [|constructor].
    rewrite Hcode. constructor.
    + apply split_on_split_by, dot_is_dot.
    + apply split_on_split_by, path_separator_is_path_separator.
  - intros features Hspec. rewrite Hcases.
    inversion Hspec as [Hnone | url labels pieces Hlabels Hpieces Hsome]; subst.
    + reflexivity.
    + rewrite Hcode.
      rewrite (split_by_unique _ _ _ _ Hlabels
                 (split_on_split_by dot _ _ dot_is_dot)).
      rewrite (split_by_unique _ _ _ _ Hpieces
                 (split_on_split_by path_separator _ _
                    path_separator_is_path_separator)).
      reflexivity.
  - unfold parseUrl. destruct (new_URL urlString) as [url|]; [|constructor].
    cbn [uf_pathTokens]. unfold slice_first.
    apply Forall_forall. intros t Ht.
    assert (In t (filter (fun t => 2 <? String.length t)
                    (split_on path_separator (pathname url)))) as Hin.
    { rewrite <- (firstn_skipn 5). apply in_or_app. now left. }
    apply filter_In in Hin. destruct Hin as [_ Hlen].
    now apply Nat.ltb_lt in Hlen.
  - unfold parseUrl. destruct (new_URL urlString) as [url|]; [|cbn; lia].
    cbn [uf_pathTokens]. unfold slice_first. apply firstn_le_length.
Qed.


(* ------------------------------------------------------------------ *)
(** * Arrays *)

Lemma mapi_from_length {A B} (f : nat -> A -> B) (i : nat) (l : list A) :
  length (mapi_from f i l) = length l.
Proof. revert i. induction l; intros; simpl; auto. Qed.

Lemma mapi_from_In {A B} (f : nat -> A -> B) (i : nat) (l : list A) (z : B) :
  In z (mapi_from f i l) ->
  exists k x, z = f (i + k) x /\ nth_error l k = Some x.
Proof.
  revert i. induction l as [|a l IH]; intros i Hin; simpl in Hin; [easy|].
  destruct Hin as [<- | Hin].
  - exists 0, a. now rewrite Nat.add_0_r.
  - destruct (IH _ Hin) as (k & x & -> & Hk).
    exists (S k), x. split; [f_equal; lia | exact Hk].
Qed.

Lemma flat_map_mapi_from {A B C} (g : B -> list C) (f : nat -> A -> B)
  (i : nat) (l : list A) :
  flat_map g (mapi_from f i l) = concat (mapi_from (fun k x => g (f k x)) i l).
Proof. revert i. induction l; intros; simpl; [|rewrite IHl]; reflexivity. Qed.

Lemma update_at_length {A} (idx : nat) (f : A -> A) (l : list A) :
  length (update_at idx f l) = length l.
Proof. revert idx. induction l; intros [|idx]; simpl; auto. Qed.

Lemma Forall_update_at {A} (P : A -> Prop) (idx : nat) (f : A -> A) (l : list A) :
  (forall x, P x -> P (f x)) -> Forall P l -> Forall P (update_at idx f l).
Proof.
  intros Hf. revert idx.
  induction l as [|a l IH]; intros idx Hl; [destruct idx; constructor|].
  inversion Hl; subst. destruct idx; simpl; constructor; auto.
Qed.

Lemma flat_map_update_at {A B} (g : A -> list B) (idx : nat) (f : A -> A)
  (extra : list B) (l : list A) :
  idx < length l ->
  (forall x, g (f x) = g x ++ extra) ->
  Permutation (flat_map g (update_at idx f l)) (flat_map g l ++ extra).
Proof.
  intros Hidx Hf. revert idx Hidx.
  induction l as [|a l IH]; intros idx Hidx; simpl in *; [lia|].
  destruct idx as [|idx]; simpl.
  - rewrite Hf. rewrite <- !app_assoc.
    apply Permutation_app_head, Permutation_app_comm.
  - rewrite <- app_assoc. apply Permutation_app_head, IH. lia.
Qed.

Lemma filter_partition {A} (p q : A -> bool) (l : list A) :
  Forall (fun x => q x = negb (p x)) l ->
  Permutation (filter p l ++ filter q l) l.
Proof.
  induction 1 as [|x l Hx _ IH]; simpl; [constructor|].
  rewrite Hx. destruct (p x); simpl.
  - now constructor.
  - now apply Permutation_sym, Permutation_cons_app, Permutation_sym.
Qed.

Lemma filteri_from_all {A} (keep : nat -> bool) (k : nat) (l : list A) :
  (forall idx, k <= idx -> keep idx = true) -> filteri_from keep k l = l.
Proof.
  revert k. induction l as [|a l IH]; intros k Hk; simpl; [reflexivity|].
  rewrite Hk by lia. f_equal. apply IH. intros; apply Hk; lia.
Qed.

Lemma filteri_from_remove_one {A} (keep : nat -> bool) (k b : nat) (y : A)
  (l : list A) :
  k <= b -> nth_error l (b - k) = Some y ->
  (forall idx, k <= idx -> keep idx = negb (idx =? b)) ->
  Permutation l (y :: filteri_from keep k l).
Proof.
  revert k. induction l as [|a l IH]; intros k Hkb Hy Hkeep.
  - destruct (b - k); discriminate.
  - simpl. rewrite Hkeep by lia.
    destruct (Nat.eqb_spec k b) as [->|Hne]; simpl.
    + rewrite Nat.sub_diag in Hy. injection Hy as ->.
      rewrite filteri_from_all; [reflexivity|].
      intros idx Hidx. rewrite Hkeep by lia.
      destruct (Nat.eqb_spec idx b); [lia | reflexivity].
    + replace (b - k) with (S (b - S k)) in Hy by lia. simpl in Hy.
      rewrite perm_swap. constructor.
      apply IH; [lia | assumption | intros; apply Hkeep; lia].
Qed.

Lemma filteri_from_remove_two {A} (k a b : nat) (x y : A) (l : list A) :
  k <= a -> a < b ->
  nth_error l (a - k) = Some x -> nth_error l (b - k) = Some y ->
  Permutation l
    (x :: y :: filteri_from (fun idx => negb (idx =? a) && negb (idx =? b)) k l).
Proof.
  revert k. induction l as [|c l IH]; intros k Hka Hab Hx Hy.
  - destruct (a - k); discriminate.
  - simpl. destruct (Nat.eqb_spec k a) as [->|Hne]; simpl.
    + rewrite Nat.sub_diag in Hx. injection Hx as ->.
      constructor.
      replace (b - a) with (S (b - S a)) in Hy by lia. simpl in Hy.
      apply filteri_from_remove_one with (b := b); [lia | assumption |].
      intros idx Hidx. destruct (Nat.eqb_spec idx a); [lia | reflexivity].
    + destruct (Nat.eqb_spec k b); [lia|]. simpl.
      replace (a - k) with (S (a - S k)) in Hx by lia.
      replace (b - k) with (S (b - S k)) in Hy by lia. simpl in Hx, Hy.
      apply Permutation_trans with (c :: x :: y ::
        filteri_from (fun idx => negb (idx =? a) && negb (idx =? b)) (S k) l).
      * constructor. apply IH; [lia | assumption | assumption | assumption].
      * apply Permutation_trans with (x :: c :: y ::
          filteri_from (fun idx => negb (idx =? a) && negb (idx =? b)) (S k) l);
          [apply perm_swap | constructor; apply perm_swap].
Qed.

Lemma filteri_remove_two {A} (a b : nat) (x y : A) (l : list A) :
  a < b -> nth_error l a = Some x -> nth_error l b = Some y ->
  Permutation l
    (x :: y :: filteri (fun idx => negb (idx =? a) && negb (idx =? b)) l).
Proof.
  intros. apply filteri_from_remove_two; rewrite ?Nat.sub_0_r; auto; lia.
Qed.

Lemma pairs_from_In {A} (i : nat) (l : list A) (a b : nat) (x y : A) :
  In ((a, x), (b, y)) (pairs_from i l) ->
  i <= a /\ a < b /\ nth_error l (a - i) = Some x /\ nth_error l (b - i) = Some y.
Proof.
  revert i. induction l as [|c l IH]; intros i Hin; simpl in Hin; [easy|].
  apply in_app_or in Hin. destruct Hin as [Hin | Hin].
  - apply mapi_from_In in Hin. destruct Hin as (k & z & Heq & Hk).
    injection Heq as -> -> -> ->.
    repeat split; try lia.
    + now rewrite Nat.sub_diag.
    + match goal with |- nth_error _ ?n = _ => replace n with (S k) by lia end.
      exact Hk.
  - apply IH in Hin. destruct Hin as (Hia & Hab & Hx & Hy).
    replace (a - i) with (S (a - S i)) by lia.
    replace (b - i) with (S (b - S i)) by lia.
    repeat split; try lia; assumption.
Qed.

Lemma pairs_from_short {A} (i : nat) (l : list A) :
  length l <= 1 -> pairs_from i l = [].
Proof. destruct l as [|x [|y l]]; simpl; intros; auto; lia. Qed.


(* ------------------------------------------------------------------ *)
(** * The clustering loop *)

Section LoopFacts.
Context {num : Type} `{Num num}.

(** [findBestMerge] answers with two positions [i < j] of the list and the
    average linkage of the clusters there. *)
Lemma findBestMerge_sound (clusters : list (cluster num))
  (M : list (list num)) (i j : nat) (s : num) :
  findBestMerge clusters M = Some (i, j, s) ->
  exists ci cj, i < j /\ nth_error clusters i = Some ci
                /\ nth_error clusters j = Some cj
                /\ s = averageLinkage M ci cj.
Proof.
  unfold findBestMerge.
  pose proof (@pairs_from_In _ 0 clusters) as Hpairs.
  set (step := fun best '((i, ci), (j, cj)) => _).
  assert (forall ps best,
             (forall a b x y, In ((a, x), (b, y)) ps ->
                 a < b /\ nth_error clusters a = Some x
                 /\ nth_error clusters b = Some y) ->
             (forall a b t, best = Some (a, b, t) ->
                 exists ci cj, a < b /\ nth_error clusters a = Some ci
                               /\ nth_error clusters b = Some cj
                               /\ t = averageLinkage M ci cj) ->
             forall a b t, fold_left step ps best = Some (a, b, t) ->
                 exists ci cj, a < b /\ nth_error clusters a = Some ci
                               /\ nth_error clusters b = Some cj
                               /\ t = averageLinkage M ci cj) as Hfold.
  { induction ps as [|[[a x] [b y]] ps IH]; intros best Hps Hbest; simpl.
    - exact Hbest.
    - apply IH.
      + intros; apply Hps; now right.
      + destruct (Hps a b x y (or_introl eq_refl)) as (Hab & Hx & Hy).
        intros a' b' t Hstep.
        destruct best as [[[bi bj] bs]|]; simpl in Hstep.
        * destruct (ngtb (averageLinkage M x y) bs).
          -- injection Hstep as <- <- <-. now exists x, y.
          -- now apply Hbest.
        * destruct (above_neg_infinity (averageLinkage M x y)); [|discriminate].
          injection Hstep as <- <- <-. now exists x, y. }
  apply Hfold.
  - intros a b x y Hin. apply Hpairs in Hin.
    rewrite !Nat.sub_0_r in Hin. tauto.
  - discriminate.
Qed.

Lemma findBestMerge_short (clusters : list (cluster num)) (M : list (list num)) :
  length clusters <= 1 -> findBestMerge clusters M = None.
Proof.
  intros Hlen. unfold findBestMerge. now rewrite pairs_from_short.
Qed.

(** What one merge does to the cluster list. *)
Lemma merge_step_perm (clusters : list (cluster num)) (i j : nat)
  (ci cj : cluster num) :
  i < j -> nth_error clusters i = Some ci -> nth_error clusters j = Some cj ->
  Permutation clusters
    (ci :: cj :: filteri (fun idx => negb (idx =? i) && negb (idx =? j)) clusters).
Proof. apply filteri_remove_two. Qed.

Lemma merge_step_length (clusters : list (cluster num)) (i j : nat)
  (ci cj : cluster num) :
  i < j -> nth_error clusters i = Some ci -> nth_error clusters j = Some cj ->
  S (length (filteri (fun idx => negb (idx =? i) && negb (idx =? j)) clusters
             ++ [mergeClusters ci cj])) = length clusters.
Proof.
  intros Hij Hi Hj.
  rewrite (Permutation_length (merge_step_perm clusters i j ci cj Hij Hi Hj)).
  rewrite length_app. simpl. lia.
Qed.

(** The loop returns: one unit of fuel per cluster beyond the first is
    enough. *)
Lemma clusteringLoop_returns (fuel : nat) (M : list (list num)) (thr : num)
  (target : Z) (clusters : list (cluster num)) :
  length clusters <= S fuel ->
  exists out merges, clusteringLoop fuel M thr target clusters = Some (out, merges).
Proof.
  revert clusters. induction fuel as [|fuel IH]; intros clusters Hlen.
  - simpl. destruct (target <? Z.of_nat (length clusters))%Z; [|eauto].
    rewrite findBestMerge_short by lia. eauto.
  - simpl. destruct (target <? Z.of_nat (length clusters))%Z; [|eauto].
    destruct (findBestMerge clusters M) as [[[i j] s]|] eqn:Hbest; [|eauto].
    destruct (nltb s thr); [eauto|].
    destruct (findBestMerge_sound _ _ _ _ _ Hbest) as (ci & cj & Hij & Hi & Hj & _).
    rewrite Hi, Hj.
    pose proof (merge_step_length clusters i j ci cj Hij Hi Hj) as Hl.
    destruct (IH (filteri (fun idx => negb (idx =? i) && negb (idx =? j)) clusters
                  ++ [mergeClusters ci cj])) as (out & merges & ->); [lia|].
    eauto.
Qed.

Lemma clusteringLoop_merges (fuel : nat) (M : list (list num)) (thr : num)
  (target : Z) (clusters out : list (cluster num))
  (merges : list (merge_event num)) :
  clusteringLoop fuel M thr target clusters = Some (out, merges) ->
  Forall (merge_allowed M thr target) merges.
Proof.
  revert clusters out merges.
  induction fuel as [|fuel IH]; intros clusters out merges; simpl.
  - destruct (target <? Z.of_nat (length clusters))%Z.
    + destruct (findBestMerge clusters M) as [[[i j] s]|].
      * destruct (nltb s thr); intros [= <- <-]; constructor.
      * intros [= <- <-]; constructor.
    + intros [= <- <-]; constructor.
  - destruct (target <? Z.of_nat (length clusters))%Z eqn:Hguard.
    + destruct (findBestMerge clusters M) as [[[i j] s]|] eqn:Hbest.
      * destruct (nltb s thr) eqn:Hthr; [intros [= <- <-]; constructor|].
        destruct (nth_error clusters i) as [ci|] eqn:Hi; [|discriminate].
        destruct (nth_error clusters j) as [cj|] eqn:Hj; [|discriminate].
        destruct (clusteringLoop fuel M thr target _) as [[out' merges']|] eqn:Hrec;
          [|discriminate].
        intros [= <- <-]. constructor; [|eapply IH; eassumption].
        unfold merge_allowed; simpl.
        apply Z.ltb_lt in Hguard.
        destruct (findBestMerge_sound _ _ _ _ _ Hbest) as (ci' & cj' & _ & Hi' & Hj' & Hs).
        repeat split; auto. exists ci', cj'. auto.
      * intros [= <- <-]; constructor.
    + intros [= <- <-]; constructor.
Qed.

Lemma clusteringLoop_stopped (fuel : nat) (M : list (list num)) (thr : num)
  (target : Z) (clusters out : list (cluster num))
  (merges : list (merge_event num)) :
  clusteringLoop fuel M thr target clusters = Some (out, merges) ->
  loop_stopped M thr target out.
Proof.
  revert clusters out merges.
  induction fuel as [|fuel IH]; intros clusters out merges; simpl.
  - destruct (target <? Z.of_nat (length clusters))%Z eqn:Hguard.
    + destruct (findBestMerge clusters M) as [[[i j] s]|] eqn:Hbest.
      * destruct (nltb s thr) eqn:Hthr; [|discriminate].
        intros [= <- <-]. right; right. eauto.
      * intros [= <- <-]. right; left. assumption.
    + intros [= <- <-]. left. now apply Z.ltb_ge.
  - destruct (target <? Z.of_nat (length clusters))%Z eqn:Hguard.
    + destruct (findBestMerge clusters M) as [[[i j] s]|] eqn:Hbest.
      * destruct (nltb s thr) eqn:Hthr.
        { intros [= <- <-]. right; right. eauto. }
        destruct (nth_error clusters i) as [ci|] eqn:Hi; [|discriminate].
        destruct (nth_error clusters j) as [cj|] eqn:Hj; [|discriminate].
        destruct (clusteringLoop fuel M thr target _) as [[out' merges']|] eqn:Hrec;
          [|discriminate].
        intros [= <- <-]. eapply IH; eassumption.
      * intros [= <- <-]. right; left. assumption.
    + intros [= <- <-]. left. now apply Z.ltb_ge.
Qed.

(** The loop stops at once where the best similarity is below the
    threshold, whatever the number of clusters. *)
Lemma clusteringLoop_stops_below (fuel : nat) (M : list (list num)) (thr : num)
  (target : Z) (clusters : list (cluster num)) (i j : nat) (s : num) :
  findBestMerge clusters M = Some (i, j, s) -> nltb s thr = true ->
  clusteringLoop fuel M thr target clusters = Some (clusters, []).
Proof.
  intros Hbest Hthr. destruct fuel; simpl;
    destruct (target <? Z.of_nat (length clusters))%Z; try reflexivity;
    now rewrite Hbest, Hthr.
Qed.

End LoopFacts.


(* ------------------------------------------------------------------ *)
(** * Properties every cluster keeps *)

Section ClusterInvariant.
Context {num : Type} `{Num num}.

(** A property of clusters that the four cluster-building operations keep
    holds of every cluster the clusterer and the consolidator return. *)
Variable P : cluster num -> Prop.
Hypothesis P_merge : forall c1 c2, P c1 -> P c2 -> P (mergeClusters c1 c2).
Hypothesis P_absorb : forall s t, P s -> P t -> P (absorbIntoCluster s t).
Hypothesis P_clone : forall c, P c -> P (cloneCluster c).
Hypothesis P_misc : forall orphans,
  Forall P orphans -> Forall (fun c => isSingle c = true) orphans ->
  MIN_ORPHANS_FOR_MISC <= length orphans -> P (createMiscCluster orphans).

Lemma filteri_from_Forall (keep : nat -> bool) (k : nat) (l : list (cluster num)) :
  Forall P l -> Forall P (filteri_from keep k l).
Proof.
  intros Hl. revert k. induction Hl; intros k; simpl; [constructor|].
  destruct (keep k); [constructor|]; auto.
Qed.

Lemma clusteringLoop_invariant (fuel : nat) (M : list (list num)) (thr : num)
  (target : Z) (clusters out : list (cluster num))
  (merges : list (merge_event num)) :
  Forall P clusters ->
  clusteringLoop fuel M thr target clusters = Some (out, merges) ->
  Forall P out.
Proof.
  revert clusters out merges.
  induction fuel as [|fuel IH]; intros clusters out merges HP; simpl;
    destruct (target <? Z.of_nat (length clusters))%Z;
    try (intros [= <- <-]; assumption);
    destruct (findBestMerge clusters M) as [[[i j] s]|];
    try (intros [= <- <-]; assumption);
    destruct (nltb s thr); try (intros [= <- <-]; assumption);
    try discriminate.
  destruct (nth_error clusters i) as [ci|] eqn:Hi; [|discriminate].
  destruct (nth_error clusters j) as [cj|] eqn:Hj; [|discriminate].
  destruct (clusteringLoop fuel M thr target _) as [[out' merges']|] eqn:Hrec;
    [|discriminate].
  intros [= <- <-]. eapply IH; [|eassumption].
  apply Forall_app. split.
  - now apply filteri_from_Forall.
  - constructor; [|constructor].
    apply P_merge; eapply Forall_forall; eauto using nth_error_In.
Qed.

Lemma placeSingleton_invariant (clusters : list (cluster num))
  (singleton : cluster num) :
  Forall P clusters -> P singleton -> Forall P (placeSingleton clusters singleton).
Proof.
  intros Hcs Hs. unfold placeSingleton.
  destruct (scanBest _ _ _ _ _) as [[idx|] bestScore].
  - destruct (ngeb bestScore SINGLETON_CLUSTER_THRESHOLD).
    + apply Forall_update_at; auto.
    + apply Forall_app; split; auto.
  - apply Forall_app; split; auto.
Qed.

Lemma clusterSingletonsTogether_invariant (singletons : list (cluster num)) :
  Forall P singletons -> Forall P (clusterSingletonsTogether singletons).
Proof.
  intros Hs. unfold clusterSingletonsTogether.
  destruct (length singletons <=? 1); [assumption|].
  assert (forall acc, Forall P acc -> Forall P (fold_left placeSingleton singletons acc))
    as Hfold.
  { induction Hs; intros acc Hacc; simpl; [assumption|].
    apply IHHs. now apply placeSingleton_invariant. }
  apply Hfold. constructor.
Qed.

Lemma absorbOrphan_invariant (multi finalOrphans : list (cluster num))
  (orphan : cluster num) :
  Forall P multi -> Forall P finalOrphans -> P orphan ->
  Forall P (fst (absorbOrphan (multi, finalOrphans) orphan))
  /\ Forall P (snd (absorbOrphan (multi, finalOrphans) orphan)).
Proof.
  intros Hm Hf Ho. unfold absorbOrphan.
  destruct (findClosestCluster orphan multi) as [[idx|] similarity].
  - destruct (ngeb similarity SINGLETON_ABSORPTION_THRESHOLD); simpl; split; auto.
    + apply Forall_update_at; auto.
    + apply Forall_app; split; auto.
  - simpl; split; auto. apply Forall_app; split; auto.
Qed.

Lemma absorbOrphans_invariant (orphans multi finalOrphans : list (cluster num)) :
  Forall P orphans -> Forall P multi -> Forall P finalOrphans ->
  Forall P (fst (fold_left absorbOrphan orphans (multi, finalOrphans)))
  /\ Forall P (snd (fold_left absorbOrphan orphans (multi, finalOrphans))).
Proof.
  intros Ho. revert multi finalOrphans.
  induction Ho as [|o orphans Hhead _ IH]; intros multi finalOrphans Hm Hf;
    cbn [fold_left].
  - auto.
  - destruct (absorbOrphan_invariant multi finalOrphans o Hm Hf Hhead) as [H1 H2].
    destruct (absorbOrphan (multi, finalOrphans) o) as [m' f']. simpl in H1, H2.
    now apply IH.
Qed.

Lemma Forall_filter {A} (Q : A -> Prop) (p : A -> bool) (l : list A) :
  Forall Q l -> Forall Q (filter p l).
Proof.
  induction 1; simpl; [constructor|]. destruct (p x); [constructor|]; auto.
Qed.

Lemma consolidationPasses_invariant (clusters : list (cluster num)) :
  Forall P clusters ->
  Forall P (fst (consolidationPasses clusters))
  /\ Forall P (snd (consolidationPasses clusters)).
Proof.
  intros HP. unfold consolidationPasses.
  apply absorbOrphans_invariant.
  - apply Forall_filter, clusterSingletonsTogether_invariant, Forall_filter, HP.
  - apply Forall_app; split.
    + now apply Forall_filter.
    + apply Forall_filter, clusterSingletonsTogether_invariant, Forall_filter, HP.
  - constructor.
Qed.

End ClusterInvariant.

(* ------------------------------------------------------------------ *)
(** * The shape of the consolidated list *)

Section Shape.
Context {num : Type} `{Num num}.

Lemma isMulti_not_single (c : cluster num) :
  has_members c -> isMulti c = negb (isSingle c).
Proof.
  unfold has_members, isMulti, isSingle.
  destruct (items c) as [|x [|y l]]; intros Hne; [now destruct Hne | | ];
    reflexivity.
Qed.

Lemma has_members_merge (c1 c2 : cluster num) :
  has_members c1 -> has_members c2 -> has_members (mergeClusters c1 c2).
Proof. unfold has_members; simpl. destruct (items c1); simpl; congruence. Qed.

Lemma has_members_absorb (s t : cluster num) :
  has_members s -> has_members t -> has_members (absorbIntoCluster s t).
Proof. unfold has_members; simpl. destruct (items t); simpl; congruence. Qed.

Lemma has_members_clone (c : cluster num) :
  has_members c -> has_members (cloneCluster c).
Proof. auto. Qed.

Lemma singles_items_length (orphans : list (cluster num)) :
  Forall (fun c => isSingle c = true) orphans ->
  length (flat_map items orphans) = length orphans.
Proof.
  induction 1 as [|c l Hc _ IH]; simpl; [reflexivity|].
  rewrite length_app, IH. unfold isSingle in Hc.
  apply Nat.eqb_eq in Hc. lia.
Qed.

Lemma has_members_misc (orphans : list (cluster num)) :
  Forall has_members orphans ->
  Forall (fun c => isSingle c = true) orphans ->
  MIN_ORPHANS_FOR_MISC <= length orphans ->
  has_members (createMiscCluster orphans).
Proof.
  intros _ Hs Hlen. unfold has_members; simpl.
  pose proof (singles_items_length orphans Hs) as Hl.
  unfold MIN_ORPHANS_FOR_MISC in Hlen.
  destruct (flat_map items orphans); simpl in *; [lia | discriminate].
Qed.

Lemma isMulti_absorb (s t : cluster num) :
  isMulti t = true -> isMulti (absorbIntoCluster s t) = true.
Proof.
  unfold isMulti; simpl. rewrite length_app, !Nat.ltb_lt. lia.
Qed.

Lemma filter_true {A} (p : A -> bool) (l : list A) :
  Forall (fun x => p x = true) (filter p l).
Proof.
  induction l as [|x l IH]; simpl; [constructor|].
  destruct (p x) eqn:E; [constructor|]; auto.
Qed.

Lemma absorbOrphan_shape (multi finalOrphans : list (cluster num))
  (orphan : cluster num) :
  isSingle orphan = true ->
  Forall (fun c => isMulti c = true) multi ->
  Forall (fun c => isSingle c = true) finalOrphans ->
  Forall (fun c => isMulti c = true)
         (fst (absorbOrphan (multi, finalOrphans) orphan))
  /\ Forall (fun c => isSingle c = true)
            (snd (absorbOrphan (multi, finalOrphans) orphan)).
Proof.
  intros Ho Hm Hf. unfold absorbOrphan.
  destruct (findClosestCluster orphan multi) as [[idx|] similarity].
  - destruct (ngeb similarity SINGLETON_ABSORPTION_THRESHOLD); simpl; split; auto.
    + apply Forall_update_at; auto using isMulti_absorb.
    + apply Forall_app; split; auto.
  - simpl; split; auto. apply Forall_app; split; auto.
Qed.

Lemma absorbOrphans_shape (orphans multi finalOrphans : list (cluster num)) :
  Forall (fun c => isSingle c = true) orphans ->
  Forall (fun c => isMulti c = true) multi ->
  Forall (fun c => isSingle c = true) finalOrphans ->
  Forall (fun c => isMulti c = true)
         (fst (fold_left absorbOrphan orphans (multi, finalOrphans)))
  /\ Forall (fun c => isSingle c = true)
            (snd (fold_left absorbOrphan orphans (multi, finalOrphans))).
Proof.
  intros Ho. revert multi finalOrphans.
  induction Ho as [|o orphans Hhead _ IH]; intros multi finalOrphans Hm Hf;
    cbn [fold_left].
  - auto.
  - destruct (absorbOrphan_shape multi finalOrphans o Hhead Hm Hf) as [H1 H2].
    destruct (absorbOrphan (multi, finalOrphans) o) as [m' f']. simpl in H1, H2.
    now apply IH.
Qed.

Lemma consolidationPasses_shape (clusters : list (cluster num)) :
  Forall (fun c => isMulti c = true) (fst (consolidationPasses clusters))
  /\ Forall (fun c => isSingle c = true) (snd (consolidationPasses clusters)).
Proof.
  unfold consolidationPasses. apply absorbOrphans_shape.
  - apply filter_true.
  - apply Forall_app; split; apply filter_true.
  - constructor.
Qed.

(** The consolidated list is a run of multi-item clusters followed by a run
    of single-item clusters. *)
Lemma consolidateSingletons_shape (clusters : list (cluster num)) (cap : Z) :
  Forall has_members clusters ->
  exists multis singles,
    consolidateSingletons clusters cap = multis ++ singles
    /\ Forall (fun c => isMulti c = true) multis
    /\ Forall (fun c => isSingle c = true) singles.
Proof.
  intros Hmem. unfold consolidateSingletons.
  destruct (length (filter isSingle clusters) =? 0) eqn:Hnone.
  - exists clusters, []. rewrite app_nil_r.
    split; [reflexivity|]. split; [|constructor].
    apply Nat.eqb_eq in Hnone. apply length_zero_iff_nil in Hnone.
    apply Forall_forall. intros c Hc.
    rewrite isMulti_not_single by (eapply Forall_forall; eauto).
    destruct (isSingle c) eqn:Hs; [|reflexivity].
    assert (In c (filter isSingle clusters)) as Hin by (apply filter_In; auto).
    rewrite Hnone in Hin. destruct Hin.
  - destruct (consolidationPasses_shape clusters) as [Hm Hs].
    destruct (consolidationPasses clusters) as [multi finalOrphans];
      cbn [fst snd] in *.
    destruct (length finalOrphans =? 0).
    { exists multi, []. rewrite app_nil_r. repeat split; auto. }
    destruct (Z.of_nat (length multi + length finalOrphans) <=? cap)%Z.
    { exists multi, finalOrphans. auto. }
    destruct (MIN_ORPHANS_FOR_MISC <=? length finalOrphans) eqn:Hmin.
    + exists (multi ++ [createMiscCluster finalOrphans]), [].
      rewrite app_nil_r. split; [reflexivity|]. split; [|constructor].
      apply Forall_app; split; [assumption|]. constructor; [|constructor].
      unfold isMulti; simpl. rewrite singles_items_length by assumption.
      apply Nat.leb_le in Hmin. unfold MIN_ORPHANS_FOR_MISC in Hmin.
      apply Nat.ltb_lt. lia.
    + exists multi, finalOrphans. auto.
Qed.

End Shape.


(* ------------------------------------------------------------------ *)
(** * Members are neither lost nor repeated *)

Section Members.
Context {num : Type} `{Num num}.

Lemma scanBest_position (score : cluster num -> num) (i : nat)
  (clusters : list (cluster num)) (best : option nat) (bestScore : num)
  (idx : nat) (s : num) :
  scanBest score i clusters best bestScore = (Some idx, s) ->
  best = Some idx \/ (i <= idx /\ idx < i + length clusters).
Proof.
  revert i best bestScore.
  induction clusters as [|c clusters IH]; intros i best bestScore; simpl.
  - intros [= -> _]. now left.
  - destruct (ngtb (score c) bestScore); intros Hscan;
      apply IH in Hscan; destruct Hscan as [Hb | Hb].
    + injection Hb as <-. right. lia.
    + right. lia.
    + now left.
    + right. lia.
Qed.

Lemma scanBest_in_range (score : cluster num -> num)
  (clusters : list (cluster num)) (bestScore : num) (idx : nat) (s : num) :
  scanBest score 0 clusters None bestScore = (Some idx, s) ->
  idx < length clusters.
Proof.
  intros Hscan. apply scanBest_position in Hscan.
  destruct Hscan as [Hb | Hb]; [discriminate | lia].
Qed.

(** A per-cluster list of members ([indices], [items] or [embeddings]) that
    merging and absorbing concatenate. *)
Variable A : Type.
Variable f : cluster num -> list A.
Hypothesis f_merge : forall c1 c2, f (mergeClusters c1 c2) = f c1 ++ f c2.
Hypothesis f_absorb : forall s t, f (absorbIntoCluster s t) = f t ++ f s.
Hypothesis f_clone : forall c, f (cloneCluster c) = f c.
Hypothesis f_misc : forall orphans, f (createMiscCluster orphans) = flat_map f orphans.

Lemma flat_map_perm (l l' : list (cluster num)) :
  Permutation l l' -> Permutation (flat_map f l) (flat_map f l').
Proof.
  induction 1; simpl.
  - constructor.
  - now apply Permutation_app_head.
  - rewrite !app_assoc. apply Permutation_app_tail, Permutation_app_comm.
  - eapply Permutation_trans; eassumption.
Qed.

Lemma clusteringLoop_members (fuel : nat) (M : list (list num)) (thr : num)
  (target : Z) (clusters out : list (cluster num))
  (merges : list (merge_event num)) :
  clusteringLoop fuel M thr target clusters = Some (out, merges) ->
  Permutation (flat_map f out) (flat_map f clusters).
Proof.
  revert clusters out merges.
  induction fuel as [|fuel IH]; intros clusters out merges; simpl;
    destruct (target <? Z.of_nat (length clusters))%Z;
    try (intros [= <- <-]; reflexivity);
    destruct (findBestMerge clusters M) as [[[i j] s]|] eqn:Hbest;
    try (intros [= <- <-]; reflexivity);
    destruct (nltb s thr); try (intros [= <- <-]; reflexivity);
    try discriminate.
  destruct (findBestMerge_sound _ _ _ _ _ Hbest) as (ci & cj & Hij & Hi & Hj & _).
  rewrite Hi, Hj.
  destruct (clusteringLoop fuel M thr target _) as [[out' merges']|] eqn:Hrec;
    [|discriminate].
  intros [= <- <-]. apply IH in Hrec.
  eapply Permutation_trans; [exact Hrec|].
  rewrite flat_map_app. simpl. rewrite app_nil_r, f_merge.
  eapply Permutation_trans; [apply Permutation_app_comm|].
  rewrite <- app_assoc.
  apply Permutation_sym.
  exact (flat_map_perm _ _ (merge_step_perm clusters i j ci cj Hij Hi Hj)).
Qed.

Lemma placeSingleton_members (clusters : list (cluster num))
  (singleton : cluster num) :
  Permutation (flat_map f (placeSingleton clusters singleton))
              (flat_map f clusters ++ f singleton).
Proof.
  unfold placeSingleton.
  destruct (scanBest _ _ _ _ _) as [[idx|] bestScore] eqn:Hscan.
  - destruct (ngeb bestScore SINGLETON_CLUSTER_THRESHOLD).
    + apply flat_map_update_at; [|intros; apply f_absorb].
      eapply scanBest_in_range; eassumption.
    + rewrite flat_map_app. simpl. now rewrite app_nil_r, f_clone.
  - rewrite flat_map_app. simpl. now rewrite app_nil_r, f_clone.
Qed.

Lemma clusterSingletonsTogether_members (singletons : list (cluster num)) :
  Permutation (flat_map f (clusterSingletonsTogether singletons))
              (flat_map f singletons).
Proof.
  unfold clusterSingletonsTogether.
  destruct (length singletons <=? 1); [reflexivity|].
  assert (forall acc,
             Permutation (flat_map f (fold_left placeSingleton singletons acc))
                         (flat_map f acc ++ flat_map f singletons)) as Hfold.
  { induction singletons as [|s singletons IH]; intros acc; simpl.
    - now rewrite app_nil_r.
    - eapply Permutation_trans; [apply IH|].
      rewrite app_assoc.
      apply Permutation_app_tail, placeSingleton_members. }
  apply (Hfold []).
Qed.

Lemma absorbOrphan_members (multi finalOrphans : list (cluster num))
  (orphan : cluster num) :
  Permutation
    (flat_map f (fst (absorbOrphan (multi, finalOrphans) orphan))
     ++ flat_map f (snd (absorbOrphan (multi, finalOrphans) orphan)))
    ((flat_map f multi ++ flat_map f finalOrphans) ++ f orphan).
Proof.
  unfold absorbOrphan, findClosestCluster.
  destruct (scanBest _ _ _ _ _) as [[idx|] similarity] eqn:Hscan.
  - destruct (ngeb similarity SINGLETON_ABSORPTION_THRESHOLD); simpl.
    + eapply Permutation_trans.
      * apply Permutation_app_tail.
        apply flat_map_update_at with (extra := f orphan);
          [|intros; apply f_absorb].
        eapply scanBest_in_range; eassumption.
      * rewrite <- !app_assoc. apply Permutation_app_head, Permutation_app_comm.
    + rewrite flat_map_app. simpl. now rewrite app_nil_r, app_assoc.
  - simpl. rewrite flat_map_app. simpl. now rewrite app_nil_r, app_assoc.
Qed.

Lemma absorbOrphans_members (orphans multi finalOrphans : list (cluster num)) :
  Permutation
    (flat_map f (fst (fold_left absorbOrphan orphans (multi, finalOrphans)))
     ++ flat_map f (snd (fold_left absorbOrphan orphans (multi, finalOrphans))))
    ((flat_map f multi ++ flat_map f finalOrphans) ++ flat_map f orphans).
Proof.
  revert multi finalOrphans.
  induction orphans as [|o orphans IH]; intros multi finalOrphans;
    cbn [fold_left flat_map].
  - now rewrite app_nil_r.
  - pose proof (absorbOrphan_members multi finalOrphans o) as Hstep.
    destruct (absorbOrphan (multi, finalOrphans) o) as [m' f'].
    cbn [fst snd] in Hstep.
    eapply Permutation_trans; [apply IH|].
    rewrite app_assoc. now apply Permutation_app_tail.
Qed.

Lemma consolidationPasses_members (clusters : list (cluster num)) :
  Forall has_members clusters ->
  Permutation
    (flat_map f (fst (consolidationPasses clusters))
     ++ flat_map f (snd (consolidationPasses clusters)))
    (flat_map f clusters).
Proof.
  intros Hmem. unfold consolidationPasses.
  set (groups := clusterSingletonsTogether (filter isSingle clusters)).
  assert (Forall has_members groups) as Hgroups.
  { apply clusterSingletonsTogether_invariant;
      auto using has_members_absorb, has_members_clone, Forall_filter. }
  eapply Permutation_trans; [apply absorbOrphans_members|].
  simpl. rewrite app_nil_r, flat_map_app, <- app_assoc.
  rewrite <- flat_map_app.
  eapply Permutation_trans.
  - apply Permutation_app_head.
    apply flat_map_perm.
    eapply Permutation_trans; [apply Permutation_app_comm|].
    apply filter_partition.
    eapply Forall_impl; [|exact Hgroups]. apply isMulti_not_single.
  - eapply Permutation_trans.
    + apply Permutation_app_head. apply clusterSingletonsTogether_members.
    + rewrite <- flat_map_app. apply flat_map_perm.
      eapply Permutation_trans; [apply Permutation_app_comm|].
      apply filter_partition.
      eapply Forall_impl; [|exact Hmem]. apply isMulti_not_single.
Qed.

(** The consolidator neither loses nor repeats a member. *)
Lemma consolidateSingletons_members (clusters : list (cluster num)) (cap : Z) :
  Forall has_members clusters ->
  Permutation (flat_map f (consolidateSingletons clusters cap))
              (flat_map f clusters).
Proof.
  intros Hmem. unfold consolidateSingletons.
  destruct (length (filter isSingle clusters) =? 0); [reflexivity|].
  pose proof (consolidationPasses_members clusters Hmem) as Hpasses.
  destruct (consolidationPasses clusters) as [multi finalOrphans];
    cbn [fst snd] in Hpasses.
  destruct (length finalOrphans =? 0) eqn:Hzero.
  { apply Nat.eqb_eq, length_zero_iff_nil in Hzero. subst finalOrphans.
    simpl in Hpasses. now rewrite app_nil_r in Hpasses. }
  destruct (Z.of_nat (length multi + length finalOrphans) <=? cap)%Z.
  { now rewrite flat_map_app. }
  destruct (MIN_ORPHANS_FOR_MISC <=? length finalOrphans).
  - rewrite flat_map_app. simpl. now rewrite app_nil_r, f_misc.
  - now rewrite flat_map_app.
Qed.

End Members.


(* ------------------------------------------------------------------ *)
(** * From the tab vectors to the consolidated clusters *)

Section Clustering.
Context {num : Type} `{Num num}.

Lemma consolidateSingletons_invariant (P : cluster num -> Prop)
  (clusters : list (cluster num)) (cap : Z) :
  (forall s t, P s -> P t -> P (absorbIntoCluster s t)) ->
  (forall c, P c -> P (cloneCluster c)) ->
  (forall orphans,
      Forall P orphans -> Forall (fun c => isSingle c = true) orphans ->
      MIN_ORPHANS_FOR_MISC <= length orphans -> P (createMiscCluster orphans)) ->
  Forall P clusters -> Forall P (consolidateSingletons clusters cap).
Proof.
  intros Pabsorb Pclone Pmisc HP. unfold consolidateSingletons.
  destruct (length (filter isSingle clusters) =? 0); [assumption|].
  destruct (consolidationPasses_invariant P Pabsorb Pclone clusters HP) as [Hm Ho].
  destruct (consolidationPasses_shape clusters) as [_ Hs].
  destruct (consolidationPasses clusters) as [multi finalOrphans];
    cbn [fst snd] in *.
  destruct (length finalOrphans =? 0); [assumption|].
  destruct (Z.of_nat (length multi + length finalOrphans) <=? cap)%Z.
  { apply Forall_app; auto. }
  destruct (MIN_ORPHANS_FOR_MISC <=? length finalOrphans) eqn:Hmin.
  - apply Forall_app; split; [assumption|].
    constructor; [|constructor]. apply Pmisc; auto. now apply Nat.leb_le.
  - apply Forall_app; auto.
Qed.

Lemma singletons_indices (i : nat) (tabVectors : list (tabVector num)) :
  flat_map indices (mapi_from singletonCluster i tabVectors)
  = seq i (length tabVectors).
Proof.
  revert i. induction tabVectors as [|tv tvs IH]; intros i; simpl;
    [|rewrite IH]; reflexivity.
Qed.

Lemma singletons_items (i : nat) (tabVectors : list (tabVector num)) :
  flat_map items (mapi_from singletonCluster i tabVectors) = tabVectors.
Proof.
  revert i. induction tabVectors as [|tv tvs IH]; intros i; simpl;
    [|rewrite IH]; reflexivity.
Qed.

Lemma singletons_Forall (P : cluster num -> Prop) (i : nat)
  (tabVectors : list (tabVector num)) :
  (forall k tv, nth_error tabVectors k = Some tv -> P (singletonCluster (i + k) tv)) ->
  Forall P (mapi_from singletonCluster i tabVectors).
Proof.
  revert i. induction tabVectors as [|tv tvs IH]; intros i HP; simpl;
    constructor.
  - specialize (HP 0 tv eq_refl). now rewrite Nat.add_0_r in HP.
  - apply IH. intros k tv' Hk. specialize (HP (S k) tv' Hk).
    now replace (S i + k) with (i + S k) by lia.
Qed.

(** [agglomerativeClustering] returns a cluster list. *)
Lemma agglomerativeClustering_returns (tabVectors : list (tabVector num))
  (M : list (list num)) (target : Z) :
  exists clusters merges,
    agglomerativeClustering_log tabVectors M target = Some (clusters, merges)
    /\ agglomerativeClustering tabVectors M target = Some clusters.
Proof.
  unfold agglomerativeClustering, agglomerativeClustering_log.
  destruct (clusteringLoop_returns (length tabVectors) M
              (computeAdaptiveThreshold (length tabVectors) target) target
              (mapi singletonCluster tabVectors)) as (out & merges & Hloop).
  { unfold mapi. rewrite mapi_from_length. lia. }
  exists out, merges. now rewrite Hloop.
Qed.

Lemma agglomerativeClustering_log_of (tabVectors : list (tabVector num))
  (M : list (list num)) (target : Z) (clusters : list (cluster num)) :
  agglomerativeClustering tabVectors M target = Some clusters ->
  exists merges,
    agglomerativeClustering_log tabVectors M target = Some (clusters, merges).
Proof.
  unfold agglomerativeClustering.
  destruct (agglomerativeClustering_log tabVectors M target) as [[out merges]|];
    simpl; [|discriminate].
  intros [= <-]. now exists merges.
Qed.

(** A property of the initial singletons that the operations keep holds of
    every cluster of the consolidated list. *)
Lemma clustering_invariant (P : cluster num -> Prop)
  (tabVectors : list (tabVector num)) (M : list (list num)) (target cap : Z)
  (clusters : list (cluster num)) :
  (forall c1 c2, P c1 -> P c2 -> P (mergeClusters c1 c2)) ->
  (forall s t, P s -> P t -> P (absorbIntoCluster s t)) ->
  (forall c, P c -> P (cloneCluster c)) ->
  (forall orphans,
      Forall P orphans -> Forall (fun c => isSingle c = true) orphans ->
      MIN_ORPHANS_FOR_MISC <= length orphans -> P (createMiscCluster orphans)) ->
  (forall k tv, nth_error tabVectors k = Some tv -> P (singletonCluster k tv)) ->
  agglomerativeClustering tabVectors M target = Some clusters ->
  Forall P clusters /\ Forall P (consolidateSingletons clusters cap).
Proof.
  intros Pmerge Pabsorb Pclone Pmisc Pinit Hagg.
  apply agglomerativeClustering_log_of in Hagg. destruct Hagg as [merges Hlog].
  assert (Forall P clusters) as HP.
  { eapply clusteringLoop_invariant; [exact Pmerge | | exact Hlog].
    apply singletons_Forall. exact Pinit. }
  split; [exact HP|]. now apply consolidateSingletons_invariant.
Qed.

Lemma clustering_has_members (tabVectors : list (tabVector num))
  (M : list (list num)) (target : Z) (clusters : list (cluster num)) :
  agglomerativeClustering tabVectors M target = Some clusters ->
  Forall has_members clusters.
Proof.
  intros Hagg.
  apply (clustering_invariant has_members tabVectors M target 0%Z clusters);
    auto using has_members_merge, has_members_absorb, has_members_clone,
               has_members_misc.
  intros k tv _. discriminate.
Qed.

(** Members of any kind are kept from the tab vectors to the consolidated
    list. *)
Lemma clustering_members {A} (f : cluster num -> list A)
  (tabVectors : list (tabVector num)) (M : list (list num)) (target cap : Z)
  (clusters : list (cluster num)) :
  (forall c1 c2, f (mergeClusters c1 c2) = f c1 ++ f c2) ->
  (forall s t, f (absorbIntoCluster s t) = f t ++ f s) ->
  (forall c, f (cloneCluster c) = f c) ->
  (forall orphans, f (createMiscCluster orphans) = flat_map f orphans) ->
  agglomerativeClustering tabVectors M target = Some clusters ->
  Permutation (flat_map f (consolidateSingletons clusters cap))
              (flat_map f (mapi singletonCluster tabVectors)).
Proof.
  intros fmerge fabsorb fclone fmisc Hagg.
  pose proof (clustering_has_members _ _ _ _ Hagg) as Hmem.
  apply agglomerativeClustering_log_of in Hagg. destruct Hagg as [merges Hlog].
  eapply Permutation_trans.
  - apply consolidateSingletons_members; assumption.
  - eapply clusteringLoop_members; [exact fmerge | exact Hlog].
Qed.

End Clustering.


(* ------------------------------------------------------------------ *)
(** * The pipeline *)

Lemma NoDup_map_on {A B} (g : A -> B) (l : list A) :
  (forall x y, In x l -> In y l -> g x = g y -> x = y) ->
  NoDup l -> NoDup (map g l).
Proof.
  intros Hinj Hl. induction Hl as [|x l Hx Hl IH]; simpl; constructor.
  - intros Hin. apply in_map_iff in Hin. destruct Hin as (y & Hy & Hin).
    apply Hx. rewrite (Hinj x y); auto; [now left | now right].
  - apply IH. intros; apply Hinj; auto; now right.
Qed.

Lemma NoDup_app_disjoint {A} (l1 l2 : list A) (x : A) :
  NoDup (l1 ++ l2) -> In x l1 -> In x l2 -> False.
Proof.
  induction l1 as [|a l1 IH]; simpl; intros Hnd H1 H2; [exact H1|].
  inversion Hnd as [|? ? Ha Hnd']; subst.
  destruct H1 as [-> | H1].
  - apply Ha. apply in_or_app. now right.
  - now apply IH.
Qed.

Lemma NoDup_concat_disjoint {A} (L : list (list A)) (p q : nat) (a b : list A)
  (x : A) :
  NoDup (concat L) -> p <> q ->
  nth_error L p = Some a -> nth_error L q = Some b ->
  In x a -> In x b -> False.
Proof.
  revert p q. induction L as [|l L IH]; intros p q Hnd Hpq Hp Hq Ha Hb.
  - destruct p; discriminate.
  - simpl in Hnd.
    assert (forall k c, nth_error L k = Some c -> In x c -> In x (concat L)) as Hin.
    { intros k c Hk Hc. apply in_concat. exists c. eauto using nth_error_In. }
    destruct p as [|p], q as [|q]; simpl in Hp, Hq.
    + congruence.
    + injection Hp as ->.
      eapply (NoDup_app_disjoint _ _ x Hnd); eauto.
    + injection Hq as ->.
      eapply (NoDup_app_disjoint _ _ x Hnd); eauto.
    + apply (IH p q); auto. now apply NoDup_app_remove_l in Hnd.
Qed.

Section PipelineFacts.
Context {num : Type} `{Num num}.
Variable new_URL : string -> option URL.
Variable executeScript : tab -> option string.
Variable extractor : string -> list num.
Variable generateClusterName : cluster num -> Async string.

Lemma for_each_value {A B} (f : A -> Async B) (g : A -> B) (xs : list A)
  (e : engine) :
  (forall x e', fst (f x e') = g x) -> fst (for_each f xs e) = map g xs.
Proof.
  intros Hf. revert e. induction xs as [|x xs IH]; intros e; simpl; [reflexivity|].
  unfold bind. specialize (Hf x e). destruct (f x e) as [y e1]. simpl in Hf.
  specialize (IH e1). destruct (for_each f xs e1) as [ys e2]. simpl in *.
  now rewrite Hf, IH.
Qed.

(** The tab vectors are the tabs, in order, each with its features. *)
Lemma tabVectors_of_tabs (tabs : list tab) (e e' : engine) :
  map tv_tab
    (fst (generateEmbeddings extractor
            (fst (extractAndEnrichTabs new_URL executeScript tabs e)) e'))
  = tabs.
Proof.
  unfold generateEmbeddings, extractAndEnrichTabs.
  rewrite for_each_value with
    (g := fun item => mkTabVector (en_tab item) (en_content item) (en_domain item)
                        (en_baseDomain item) (en_pathTokens item)
                        (extractor (en_content item))) by reflexivity.
  rewrite for_each_value with
    (g := fun t => mkEnriched t
                     (if scriptable t
                      then match executeScript t with
                           | Some text => text
                           | None => tab_title t
                           end
                      else tab_title t)
                     (uf_domain (parseUrl new_URL (urlString t)))
                     (uf_baseDomain (parseUrl new_URL (urlString t)))
                     (uf_pathTokens (parseUrl new_URL (urlString t)))).
  - rewrite !map_map. simpl. apply map_id.
  - intros t e1. unfold enrichTab, bind, called, ret.
    destruct (scriptable t); reflexivity.
Qed.

(** What [clusterTabs] does on three tabs or more. *)
Lemma clusterTabs_run (tabs : list tab) (screenWidth : Z) (e : engine) :
  2 < length tabs ->
  exists tabVectors clusters e2,
    map tv_tab tabVectors = tabs
    /\ agglomerativeClustering tabVectors (buildSimilarityMatrix tabVectors)
         (calculateGroupCapacity screenWidth (length tabs)) = Some clusters
    /\ clusterTabs new_URL executeScript extractor generateClusterName
         tabs screenWidth e
       = (Some (fst (generateClusterMetadata generateClusterName
                       (consolidateSingletons clusters
                          (calculateGroupCapacity screenWidth (length tabs))) e2)),
          snd (generateClusterMetadata generateClusterName
                 (consolidateSingletons clusters
                    (calculateGroupCapacity screenWidth (length tabs))) e2)).
Proof.
  intros Hlen. unfold clusterTabs, bind.
  destruct (init e) as [[] e0].
  destruct (Nat.leb_spec (length tabs) 2) as [Hle|_]; [lia|].
  pose proof (tabVectors_of_tabs tabs e0) as Htabs.
  destruct (extractAndEnrichTabs new_URL executeScript tabs e0) as [enriched e1].
  specialize (Htabs e1). simpl in Htabs.
  destruct (generateEmbeddings extractor enriched e1) as [tabVectors e2].
  simpl in Htabs.
  destruct (agglomerativeClustering_returns tabVectors
              (buildSimilarityMatrix tabVectors)
              (calculateGroupCapacity screenWidth (length tabs)))
    as (clusters & merges & _ & Hagg).
  exists tabVectors, clusters, e2. rewrite Hagg.
  repeat split; auto.
  destruct (generateClusterMetadata _ _ e2); reflexivity.
Qed.

(** The metadata pass on a run of multi-item clusters followed by
    single-item clusters: one result per multi-item cluster, in order, with
    the colour of its position. *)
Lemma clusterMetadata_singles (i : nat) (singles : list (cluster num)) (e : engine) :
  Forall (fun c => isSingle c = true) singles ->
  fst (clusterMetadata_from generateClusterName i singles e) = [].
Proof.
  intros Hs. revert i. induction Hs as [|c l Hc _ IH]; intros i; simpl;
    [reflexivity|].
  unfold isSingle in Hc. rewrite Hc. apply IH.
Qed.

Lemma clusterMetadata_shape (i : nat) (multis singles : list (cluster num))
  (e : engine) :
  Forall (fun c => isMulti c = true) multis ->
  Forall (fun c => isSingle c = true) singles ->
  let results := fst (clusterMetadata_from generateClusterName i
                        (multis ++ singles) e) in
  map tabIds results = map item_ids multis
  /\ map color results
     = map (fun k => nth (k mod length colors) colors "") (seq i (length multis)).
Proof.
  intros Hm Hs. revert i e.
  induction Hm as [|c l Hc _ IH]; intros i e; cbn zeta.
  - simpl app. rewrite clusterMetadata_singles by assumption. split; reflexivity.
  - cbn [app clusterMetadata_from].
    unfold isMulti in Hc. apply Nat.ltb_lt in Hc.
    destruct (Nat.eqb_spec (length (items c)) 1) as [E|_]; [lia|].
    unfold bind.
    destruct ((if isMisc c then ret "MISC" else generateClusterName c) e)
      as [nm e1].
    specialize (IH (S i) e1). cbn zeta in IH.
    destruct (clusterMetadata_from generateClusterName (S i) (l ++ singles) e1)
      as [results e2].
    cbn [fst ret map tabIds color length seq] in *.
    destruct IH as [IH1 IH2]. now rewrite IH1, IH2.
Qed.

End PipelineFacts.


Section PipelineTheorems.
Context {num : Type} `{Num num}.
Variable new_URL : string -> option URL.
Variable executeScript : tab -> option string.
Variable extractor : string -> list num.
Variable generateClusterName : cluster num -> Async string.

Lemma members_of_ids (tabVectors : list (tabVector num)) (c : cluster num) :
  members_of tabVectors c ->
  item_ids c
  = map (fun i => nth i (map (fun tv => tab_id (tv_tab tv)) tabVectors) 0%Z)
        (indices c).
Proof.
  unfold members_of, item_ids.
  induction 1 as [|i item idxs its Hi _ IH]; simpl; [reflexivity|].
  rewrite IH. f_equal. symmetry. apply nth_error_nth.
  now rewrite nth_error_map, Hi.
Qed.

Lemma members_of_clustering (tabVectors : list (tabVector num))
  (M : list (list num)) (target cap : Z) (clusters : list (cluster num)) :
  agglomerativeClustering tabVectors M target = Some clusters ->
  Forall (members_of tabVectors) (consolidateSingletons clusters cap).
Proof.
  intros Hagg.
  apply (clustering_invariant (members_of tabVectors) tabVectors M target cap
           clusters); auto; unfold members_of; simpl.
  - intros c1 c2. apply Forall2_app.
  - intros s t Hs Ht. now apply Forall2_app.
  - intros orphans Ho _ _. induction Ho; simpl; [constructor|].
    now apply Forall2_app.
  - intros k tv Hk. now repeat constructor.
Qed.

(** C1.  [clusterTabs] returns, and its results are built on disjoint groups
    of tab positions: the [tabIds] of each result are the identifiers of the
    tabs at the positions of one group, and no position is in two groups (nor
    twice in one).  So when the tabs have distinct identifiers, no identifier
    is in the [tabIds] of two results. *)
Theorem clusterTabs_tabIds_disjoint (tabs : list tab) (screenWidth : Z)
  (e : engine) :
  exists results e',
    clusterTabs new_URL executeScript extractor generateClusterName
      tabs screenWidth e = (Some results, e')
    /\ (exists groups : list (list nat),
           map tabIds results
           = map (map (fun i => nth i (map tab_id tabs) 0%Z)) groups
           /\ NoDup (concat groups)
           /\ Forall (fun i => i < length tabs) (concat groups))
    /\ (NoDup (map tab_id tabs) ->
        forall p q rp rq id,
          p <> q -> nth_error results p = Some rp -> nth_error results q = Some rq ->
          In id (tabIds rp) -> In id (tabIds rq) -> False).
Proof.
  assert (exists results e',
    clusterTabs new_URL executeScript extractor generateClusterName
      tabs screenWidth e = (Some results, e')
    /\ (exists groups : list (list nat),
           map tabIds results
           = map (map (fun i => nth i (map tab_id tabs) 0%Z)) groups
           /\ NoDup (concat groups)
           /\ Forall (fun i => i < length tabs) (concat groups))) as Hmain.
  { destruct (Nat.leb_spec (length tabs) 2) as [Hle | Hgt].
    - exists [], (snd (init e)). split.
      + unfold clusterTabs, bind. destruct (init e) as [[] e0].
        apply Nat.leb_le in Hle. now rewrite Hle.
      + exists []. simpl. repeat split; constructor.
    - destruct (clusterTabs_run new_URL executeScript extractor
                  generateClusterName tabs screenWidth e Hgt)
        as (tabVectors & clusters & e2 & Htabs & Hagg & Hrun).
      rewrite Hrun. eexists _, _. split; [reflexivity|].
      set (cap := calculateGroupCapacity screenWidth (length tabs)) in *.
      pose proof (clustering_has_members _ _ _ _ Hagg) as Hmem.
      destruct (consolidateSingletons_shape clusters cap Hmem)
        as (multis & singles & Hshape & Hm & Hs).
      pose proof (members_of_clustering _ _ _ cap _ Hagg) as Hof.
      pose proof (clustering_members indices tabVectors _ _ cap clusters
                    (fun _ _ => eq_refl) (fun _ _ => eq_refl)
                    (fun _ => eq_refl) (fun _ => eq_refl) Hagg) as Hperm.
      unfold mapi in Hperm. rewrite singletons_indices in Hperm.
      rewrite Hshape in *.
      unfold generateClusterMetadata.
      destruct (clusterMetadata_shape generateClusterName 0 multis singles e2 Hm Hs)
        as [Hids _].
      exists (map indices multis). rewrite Hids.
      assert (length tabVectors = length tabs) as Hlen
          by (rewrite <- Htabs; now rewrite length_map).
      repeat split.
      + rewrite map_map. apply map_ext_in. intros c Hc.
        rewrite (members_of_ids tabVectors).
        * rewrite <- Htabs, map_map. reflexivity.
        * eapply Forall_forall; [exact Hof|]. apply in_or_app; now left.
      + rewrite <- flat_map_concat_map.
        rewrite flat_map_app in Hperm.
        apply NoDup_app_remove_r with (l' := flat_map indices singles).
        eapply Permutation_NoDup; [apply Permutation_sym; exact Hperm|].
        apply seq_NoDup.
      + rewrite <- flat_map_concat_map. apply Forall_forall. intros i Hi.
        assert (In i (seq 0 (length tabVectors))) as Hin.
        { eapply Permutation_in; [exact Hperm|].
          rewrite flat_map_app. apply in_or_app; now left. }
        apply in_seq in Hin. lia. }
  destruct Hmain as (results & e' & Hrun & groups & Hids & Hnd & Hrange).
  exists results, e'. split; [exact Hrun|]. split; [now exists groups|].
  intros Hdistinct p q rp rq id Hpq Hp Hq Hinp Hinq.
  apply (NoDup_concat_disjoint (map tabIds results) p q (tabIds rp) (tabIds rq) id);
    auto using map_nth_error.
  rewrite Hids, <- concat_map.
  apply NoDup_map_on; [|exact Hnd].
  intros x y Hx Hy Hxy.
  rewrite Forall_forall in Hrange.
  apply (proj1 (NoDup_nth (map tab_id tabs) 0%Z) Hdistinct);
    rewrite ?length_map; auto.
Qed.

(** C7.  On at most two tabs [clusterTabs] returns the empty list; beyond
    loading the model (if it was not loaded yet) it asks nothing of the
    collaborators: no page script is run, no text is embedded. *)
Theorem clusterTabs_too_few_tabs (tabs : list tab) (screenWidth : Z)
  (e : engine) :
  length tabs <= 2 ->
  clusterTabs new_URL executeScript extractor generateClusterName
    tabs screenWidth e = (Some [], snd (init e))
  /\ (calls (snd (init e)) = calls e
      \/ calls (snd (init e)) = calls e ++ [LoadModel]).
Proof.
  intros Hlen. split.
  - unfold clusterTabs, bind. destruct (init e) as [[] e0].
    apply Nat.leb_le in Hlen. now rewrite Hlen.
  - unfold init. destruct (extractor_loaded e); simpl; auto.
Qed.

(** C9.  [clusterTabs] returns, and the colours of its results are the
    entries of the nine-colour palette at the results' positions 0, 1, 2, ...
    in the returned list, taken modulo nine. *)
Theorem clusterTabs_colors_round_robin (tabs : list tab) (screenWidth : Z)
  (e : engine) :
  exists results e',
    clusterTabs new_URL executeScript extractor generateClusterName
      tabs screenWidth e = (Some results, e')
    /\ length colors = 9
    /\ map color results
       = map (fun k => nth (k mod 9) colors "") (seq 0 (length results)).
Proof.
  destruct (Nat.leb_spec (length tabs) 2) as [Hle | Hgt].
  - exists [], (snd (init e)). split; [|split; reflexivity].
    unfold clusterTabs, bind. destruct (init e) as [[] e0].
    apply Nat.leb_le in Hle. now rewrite Hle.
  - destruct (clusterTabs_run new_URL executeScript extractor
                generateClusterName tabs screenWidth e Hgt)
      as (tabVectors & clusters & e2 & Htabs & Hagg & Hrun).
    rewrite Hrun. eexists _, _. split; [reflexivity|]. split; [reflexivity|].
    set (cap := calculateGroupCapacity screenWidth (length tabs)) in *.
    pose proof (clustering_has_members _ _ _ _ Hagg) as Hmem.
    destruct (consolidateSingletons_shape clusters cap Hmem)
      as (multis & singles & -> & Hm & Hs).
    unfold generateClusterMetadata.
    destruct (clusterMetadata_shape generateClusterName 0 multis singles e2 Hm Hs)
      as [Hids Hcolors].
    rewrite Hcolors.
    replace (length (fst (clusterMetadata_from generateClusterName 0
                            (multis ++ singles) e2)))
      with (length multis); [reflexivity|].
    rewrite <- (length_map item_ids multis), <- Hids. apply length_map.
Qed.

End PipelineTheorems.

Section ConsolidationTheorems.
Context {num : Type} `{Num num}.

(** C10.  The clusterer returns, and the consolidated list partitions the
    positions 0 .. n-1 of the tab vectors: the [indices] of its clusters, put
    end to end, are a rearrangement of 0, 1, ..., n-1, so every position is in
    exactly one cluster, once. *)
Theorem consolidateSingletons_partition (tabVectors : list (tabVector num))
  (M : list (list num)) (target groupCapacity : Z) :
  exists clusters,
    agglomerativeClustering tabVectors M target = Some clusters
    /\ Permutation (flat_map indices (consolidateSingletons clusters groupCapacity))
                   (seq 0 (length tabVectors)).
Proof.
  destruct (agglomerativeClustering_returns tabVectors M target)
    as (clusters & merges & _ & Hagg).
  exists clusters. split; [exact Hagg|].
  rewrite <- (singletons_indices 0 tabVectors).
  now apply (clustering_members indices tabVectors M target groupCapacity clusters).
Qed.

(** C4, as the code has it.  With at least [MIN_ORPHANS_FOR_MISC] true
    orphans after passes 1 and 2, the consolidated list has at most
    max(capacity, m + 1) clusters, [m] the number of multi-item clusters after
    those passes; and the list is longer than the capacity only with fewer
    than [MIN_ORPHANS_FOR_MISC] true orphans or with [m] at or above the
    capacity. *)
Theorem consolidateSingletons_capacity (clusters : list (cluster num))
  (groupCapacity : Z) :
  let multiClusters := fst (consolidationPasses clusters) in
  let trueOrphans := snd (consolidationPasses clusters) in
  let output := consolidateSingletons clusters groupCapacity in
  (MIN_ORPHANS_FOR_MISC <= length trueOrphans ->
   (Z.of_nat (length output)
    <= Z.max groupCapacity (Z.of_nat (length multiClusters) + 1))%Z)
  /\ ((groupCapacity < Z.of_nat (length output))%Z ->
      length trueOrphans < MIN_ORPHANS_FOR_MISC
      \/ (groupCapacity <= Z.of_nat (length multiClusters))%Z).
Proof.
  cbn zeta. unfold consolidateSingletons.
  destruct (length (filter isSingle clusters) =? 0) eqn:Hnone.
  - apply Nat.eqb_eq, length_zero_iff_nil in Hnone.
    unfold consolidationPasses. rewrite Hnone. simpl.
    unfold MIN_ORPHANS_FOR_MISC. split; intros; [lia | left; lia].
  - destruct (consolidationPasses clusters) as [multi finalOrphans];
      cbn [fst snd].
    destruct (Nat.eqb_spec (length finalOrphans) 0) as [Hzero | Hsome].
    { rewrite Hzero. unfold MIN_ORPHANS_FOR_MISC. split; intros; [lia | left; lia]. }
    destruct (Z.leb_spec (Z.of_nat (length multi + length finalOrphans))
                groupCapacity) as [Hfits | Hover].
    { rewrite length_app. split; intros; lia. }
    destruct (Nat.leb_spec MIN_ORPHANS_FOR_MISC (length finalOrphans))
      as [Hmin | Hfew].
    + rewrite length_app. simpl. split; intros; [lia | right; lia].
    + split; intros; [lia | now left].
Qed.

(** C2.  The clustering loop returns, and: every merge it made was made with
    more clusters than the target, on the pair [findBestMerge] chose, whose
    average linkage was not below the adaptive threshold
    base * max(0.85, 1 - (n - 10) * 0.01); it ended at or below the target, or
    where the best similarity is below the threshold; and wherever the best
    similarity is below the threshold the loop stops at once, without a
    merge, whatever the number of clusters. *)
Theorem agglomerativeClustering_merges (tabVectors : list (tabVector num))
  (M : list (list num)) (targetGroups : Z) :
  let threshold :=
    nmul CONTENT_SIMILARITY_THRESHOLD
      (nmax (dec 85 100)
         (nsub n_one
            (nmul (nofZ (Z.of_nat (length tabVectors) - 10)) (dec 1 100)))) in
  exists clusters merges,
    agglomerativeClustering_log tabVectors M targetGroups = Some (clusters, merges)
    /\ Forall (merge_allowed M threshold targetGroups) merges
    /\ loop_stopped M threshold targetGroups clusters
    /\ (forall fuel current i j similarity,
           findBestMerge current M = Some (i, j, similarity) ->
           nltb similarity threshold = true ->
           clusteringLoop fuel M threshold targetGroups current
           = Some (current, [])).
Proof.
  cbn zeta.
  destruct (agglomerativeClustering_returns tabVectors M targetGroups)
    as (clusters & merges & Hlog & _).
  exists clusters, merges. split; [exact Hlog|].
  unfold agglomerativeClustering_log, computeAdaptiveThreshold in Hlog.
  repeat split.
  - eapply clusteringLoop_merges; exact Hlog.
  - eapply clusteringLoop_stopped; exact Hlog.
  - intros. eapply clusteringLoop_stops_below; eassumption.
Qed.

End ConsolidationTheorems.


(* ------------------------------------------------------------------ *)
(** * Centroids, over the real numbers *)

Section Centroids.
Local Open Scope R_scope.

Lemma Rltb_true (x y : R) : x < y -> Rltb x y = true.
Proof. intros. unfold Rltb. destruct (Rlt_dec x y); [reflexivity | contradiction]. Qed.

Lemma Rltb_false (x y : R) : ~ x < y -> Rltb x y = false.
Proof. intros. unfold Rltb. destruct (Rlt_dec x y); [contradiction | reflexivity]. Qed.














End Centroids.


Section CentroidRecomputed.
Context {num : Type} `{Num num}.



End CentroidRecomputed.


Section CentroidTheorem.
Local Open Scope R_scope.


End CentroidTheorem.


(* ------------------------------------------------------------------ *)
(** * Pairwise similarity *)

Section MatrixSymmetry.
Context {num : Type} `{Num num}.

Lemma nth_mapi_from {A B} (f : nat -> A -> B) (i k : nat) (l : list A) (d : B) :
  nth k (mapi_from f i l) d
  = match nth_error l k with Some x => f (i + k) x | None => d end.
Proof.
  revert i k. induction l as [|a l IH]; intros i [|k]; simpl; auto.
  - now rewrite Nat.add_0_r.
  - rewrite IH. now replace (S i + k) with (i + S k) by lia.
Qed.

(** X25.  The matrix is symmetric, whatever the scores: both triangles are
    filled from one evaluation. *)
Lemma buildSimilarityMatrix_symmetric (tabVectors : list (tabVector num))
  (i j : nat) :
  entry (buildSimilarityMatrix tabVectors) i j
  = entry (buildSimilarityMatrix tabVectors) j i.
Proof.
  unfold entry, buildSimilarityMatrix, mapi.
  rewrite !nth_mapi_from. simpl.
  destruct (nth_error tabVectors i) as [ti|] eqn:Hi;
    destruct (nth_error tabVectors j) as [tj|] eqn:Hj;
    rewrite ?nth_mapi_from, ?Hi, ?Hj; simpl; try reflexivity;
    try (now destruct j); try (now destruct i).
  - destruct (Nat.ltb_spec i j), (Nat.ltb_spec j i); try reflexivity; lia.
  - now destruct i, j.
Qed.

End MatrixSymmetry.

Section SimilarityOverR.
Local Open Scope R_scope.

Lemma fold_left_shift {A} (f : A -> nat -> A) (l : list nat) (a : A) :
  fold_left f (map S l) a = fold_left (fun acc i => f acc (S i)) l a.
Proof. revert a. induction l; intros; simpl; auto. Qed.

Lemma cosineSimilarity_dot_product (a b : list R) :
  length a = length b -> cosineSimilarity a b = Spec.dot_product a b.
Proof.
  unfold cosineSimilarity.
  assert (forall (a b : list R) acc, length a = length b ->
             fold_left (fun dot i => nadd dot (nmul (nth i a nzero) (nth i b nzero)))
                       (seq 0 (length a)) acc
             = acc + Spec.dot_product a b) as Hgen.
  { clear a b. induction a as [|x a IH]; intros [|y b] acc Hlen;
      try discriminate; simpl; [lra|].
    rewrite <- seq_shift, fold_left_shift. simpl.
    rewrite IH by (simpl in Hlen; lia). lra. }
  intros Hlen. rewrite Hgen by assumption. unfold nzero. simpl. lra.
Qed.

Lemma nmin_Rmin (x y : R) : nmin x y = Rmin x y.
Proof.
  unfold nmin, Rmin. simpl. unfold Rltb.
  destruct (Rlt_dec y x), (Rle_dec x y); try reflexivity; lra.
Qed.

Lemma includes_In (l : list string) (x : string) :
  includes l x = if in_dec string_dec x l then true else false.
Proof.
  unfold includes. destruct (in_dec string_dec x l) as [Hin | Hout].
  - apply existsb_exists. exists x. split; [assumption | apply String.eqb_refl].
  - destruct (existsb (String.eqb x) l) eqn:E; [|reflexivity].
    apply existsb_exists in E. destruct E as (y & Hy & Hxy).
    apply String.eqb_eq in Hxy. subst. contradiction.
Qed.

(** Without a repeated token in the first item's path, the code counts the
    shared tokens. *)
Lemma commonTokens_shared (a b : tabVector R) :
  NoDup (tv_pathTokens a) ->
  length (commonTokens a b)
  = length (Spec.shared_tokens (tv_pathTokens a) (tv_pathTokens b)).
Proof.
  intros Hnd. unfold commonTokens, Spec.shared_tokens.
  rewrite nodup_fixed_point by (apply NoDup_filter; exact Hnd).
  f_equal. apply filter_ext. intros t. apply includes_In.
Qed.

(** On such items, with embeddings of one dimension, the code computes the
    similarity of the specification. *)
Lemma computePairwiseSimilarity_spec (a b : tabVector R) :
  length (tv_embedding a) = length (tv_embedding b) ->
  NoDup (tv_pathTokens a) ->
  computePairwiseSimilarity a b = Spec.pairwiseSimilarity a b.
Proof.
  intros Hlen Hnd. unfold computePairwiseSimilarity, Spec.pairwiseSimilarity.
  rewrite cosineSimilarity_dot_product by assumption.
  rewrite commonTokens_shared by assumption.
  cbn [nadd RNum]. f_equal; [f_equal|].
  - destruct (string_dec (tv_domain a) (tv_domain b)) as [E | E].
    + apply String.eqb_eq in E. rewrite E.
      unfold DOMAIN_AFFINITY_BOOST, dec. simpl. reflexivity.
    + apply String.eqb_neq in E. rewrite E.
      destruct (string_dec (tv_baseDomain a) (tv_baseDomain b)) as [E' | E'].
      * apply String.eqb_eq in E'. rewrite E'.
        unfold DOMAIN_AFFINITY_BOOST, dec. simpl. lra.
      * apply String.eqb_neq in E'. rewrite E'. reflexivity.
  - destruct (0 <? length (Spec.shared_tokens _ _))%nat; [|reflexivity].
    rewrite nmin_Rmin. unfold URL_PATH_BOOST, dec, n_one, nofnat. simpl.
    rewrite <- !INR_IZR_INZ. reflexivity.
Qed.

Lemma docs_twice_features :
  (Examples.docs_twice : tabVector R)
  = mkTabVector (mkTab 1 (Some "https://a.example/docs/docs") "alpha") "alpha"
                "a.example" "a.example" ["docs"; "docs"] [1; 0; 0; 0; 0; 0].
Proof. reflexivity. Qed.

Lemma docs_once_features :
  (Examples.docs_once : tabVector R)
  = mkTabVector (mkTab 2 (Some "https://b.example/docs") "alpha") "alpha"
                "b.example" "b.example" ["docs"] [1; 0; 0; 0; 0; 0].
Proof. reflexivity. Qed.

Lemma similarity_docs_twice_once :
  computePairwiseSimilarity (Examples.docs_twice : tabVector R) Examples.docs_once
  = 108 / 100.
Proof.
  rewrite docs_twice_features, docs_once_features.
  unfold computePairwiseSimilarity, commonTokens, cosineSimilarity. simpl.
  change (nmin n_one (nofnat 2 / nofnat 2)) with (nmin 1 (2 / 2)).
  rewrite nmin_Rmin. unfold Rmin.
  destruct (Rle_dec 1 (2 / 2)); unfold dec, nzero; simpl; lra.
Qed.

Lemma similarity_docs_once_twice :
  computePairwiseSimilarity (Examples.docs_once : tabVector R) Examples.docs_twice
  = 104 / 100.
Proof.
  rewrite docs_twice_features, docs_once_features.
  unfold computePairwiseSimilarity, commonTokens, cosineSimilarity. simpl.
  change (nmin n_one (nofnat 1 / nofnat 2)) with (nmin 1 (1 / 2)).
  rewrite nmin_Rmin. unfold Rmin.
  destruct (Rle_dec 1 (1 / 2)); unfold dec, nzero; simpl; lra.
Qed.

Lemma dot_product_symmetric (a b : list R) :
  Spec.dot_product a b = Spec.dot_product b a.
Proof.
  revert b. induction a as [|x a IH]; intros [|y b]; simpl; auto.
  rewrite IH. lra.
Qed.

Lemma shared_tokens_symmetric (ta tb : list string) :
  length (Spec.shared_tokens ta tb) = length (Spec.shared_tokens tb ta).
Proof.
  apply Permutation_length. unfold Spec.shared_tokens.
  apply NoDup_Permutation; try apply NoDup_nodup.
  intros t. rewrite !nodup_In, !filter_In.
  destruct (in_dec string_dec t tb), (in_dec string_dec t ta);
    intuition congruence.
Qed.

(** The similarity of the specification is symmetric; so is the code's on
    items whose paths repeat no token. *)
Lemma pairwiseSimilarity_symmetric (a b : tabVector R) :
  Spec.pairwiseSimilarity a b = Spec.pairwiseSimilarity b a.
Proof.
  unfold Spec.pairwiseSimilarity.
  rewrite (dot_product_symmetric (tv_embedding a)).
  rewrite (shared_tokens_symmetric (tv_pathTokens a)).
  rewrite (Nat.max_comm (length (tv_pathTokens a))).
  f_equal. f_equal.
  destruct (string_dec (tv_domain a) (tv_domain b)),
    (string_dec (tv_domain b) (tv_domain a)); try congruence.
  destruct (string_dec (tv_baseDomain a) (tv_baseDomain b)),
    (string_dec (tv_baseDomain b) (tv_baseDomain a)); congruence.
Qed.

(** X26.  Over the reals, the similarity of two items does not depend on
    their order when neither path repeats a token and the two embeddings
    have one length. *)
Lemma computePairwiseSimilarity_symmetric (a b : tabVector R) :
  length (tv_embedding a) = length (tv_embedding b) ->
  NoDup (tv_pathTokens a) -> NoDup (tv_pathTokens b) ->
  computePairwiseSimilarity a b = computePairwiseSimilarity b a.
Proof.
  intros Hlen Ha Hb.
  rewrite !computePairwiseSimilarity_spec by auto.
  apply pairwiseSimilarity_symmetric.
Qed.

(** C6 at an input: two items that share the path token "docs", which the
    first one's path repeats.  The similarity of the pair depends on the order
    of the two items. *)
Theorem computePairwiseSimilarity_not_symmetric :
  computePairwiseSimilarity (Examples.docs_twice : tabVector R) Examples.docs_once = 108 / 100
  /\ computePairwiseSimilarity (Examples.docs_once : tabVector R) Examples.docs_twice = 104 / 100
  /\ computePairwiseSimilarity (Examples.docs_twice : tabVector R) Examples.docs_once
     <> computePairwiseSimilarity Examples.docs_once Examples.docs_twice.
Proof.
  rewrite similarity_docs_twice_once, similarity_docs_once_twice.
  repeat split. lra.
Qed.

(** C5 at the same input: one token is shared, the code counts it twice. *)
Theorem computePairwiseSimilarity_counts_repeats :
  length (Spec.shared_tokens (tv_pathTokens (Examples.docs_twice : tabVector R))
                             (tv_pathTokens (Examples.docs_once : tabVector R))) = 1%nat
  /\ length (commonTokens (Examples.docs_twice : tabVector R) Examples.docs_once) = 2%nat
  /\ Spec.pairwiseSimilarity Examples.docs_twice Examples.docs_once = 104 / 100
  /\ computePairwiseSimilarity (Examples.docs_twice : tabVector R) Examples.docs_once = 108 / 100.
Proof.
  split; [reflexivity|]. split; [reflexivity|]. split.
  - rewrite docs_twice_features, docs_once_features.
    unfold Spec.pairwiseSimilarity. simpl.
    unfold Rmin. destruct (Rle_dec 1 (1 / (1 + 1))); lra.
  - apply similarity_docs_twice_once.
Qed.

End SimilarityOverR.


(* ------------------------------------------------------------------ *)
(** * The clustering loop, over the real numbers *)

Section LoopOverR.
Local Open Scope R_scope.

(** The adaptive threshold in numbers. *)
Lemma computeAdaptiveThreshold_real (tabCount : nat) (targetGroups : Z) :
  computeAdaptiveThreshold tabCount targetGroups
  = 38 / 100 * Rmax (85 / 100) (1 - (INR tabCount - 10) * (1 / 100)).
Proof.
  unfold computeAdaptiveThreshold, CONTENT_SIMILARITY_THRESHOLD, dec, n_one, nmax.
  cbn [nmul nsub ndiv nofZ nltb RNum].
  rewrite minus_IZR, <- INR_IZR_INZ.
  unfold Rmax, Rltb.
  destruct (Rlt_dec (85 / 100) (1 - (INR tabCount - 10) * (1 / 100))),
    (Rle_dec (85 / 100) (1 - (INR tabCount - 10) * (1 / 100)));
    try reflexivity; lra.
Qed.

(** The threshold is never below 0.85 of the base. *)
Lemma computeAdaptiveThreshold_floor (tabCount : nat) (targetGroups : Z) :
  38 / 100 * (85 / 100) <= computeAdaptiveThreshold tabCount targetGroups.
Proof.
  rewrite computeAdaptiveThreshold_real.
  pose proof (Rmax_l (85 / 100) (1 - (INR tabCount - 10) * (1 / 100))). lra.
Qed.

(** [findBestMerge] answers with a pair of the highest average linkage: no
    pair of clusters is more similar. *)
Lemma findBestMerge_maximal (clusters : list (cluster R)) (M : list (list R))
  (i j : nat) (s : R) :
  findBestMerge clusters M = Some (i, j, s) ->
  forall a b ca cb,
    (a < b)%nat -> nth_error clusters a = Some ca -> nth_error clusters b = Some cb ->
    averageLinkage M ca cb <= s.
Proof.
  unfold findBestMerge.
  set (step := fun best '((i, ci), (j, cj)) => _).
  assert (forall ps best i j s,
             fold_left step ps best = Some (i, j, s) ->
             (forall bi bj bs, best = Some (bi, bj, bs) -> bs <= s)
             /\ (forall a ca b cb, In ((a, ca), (b, cb)) ps ->
                                   averageLinkage M ca cb <= s)) as Hfold.
  { induction ps as [|[[a ca] [b cb]] ps IH]; intros best i' j' s' Hres;
      cbn [fold_left] in Hres.
    - split; [|intros ? ? ? ? []].
      intros bi bj bs ->. injection Hres as _ _ ->. lra.
    - destruct (IH _ _ _ _ Hres) as [Hbest Hrest]. split.
      + intros bi bj bs ->. cbn in Hbest.
        unfold ngtb in Hbest. cbn [nltb RNum] in Hbest. unfold Rltb in Hbest.
        destruct (Rlt_dec bs (averageLinkage M ca cb)) as [Hlt | Hge].
        * specialize (Hbest _ _ _ eq_refl). lra.
        * exact (Hbest _ _ _ eq_refl).
      + intros a' ca' b' cb' [Heq | Hin]; [|eauto].
        injection Heq as <- <- <- <-.
        destruct best as [[[bi bj] bs]|]; cbn in Hbest.
        * unfold ngtb in Hbest. cbn [nltb RNum] in Hbest. unfold Rltb in Hbest.
          destruct (Rlt_dec bs (averageLinkage M ca cb)) as [Hlt | Hge].
          -- exact (Hbest _ _ _ eq_refl).
          -- specialize (Hbest _ _ _ eq_refl). lra.
        * exact (Hbest _ _ _ eq_refl). }
  intros Hres a b ca cb Hab Ha Hb.
  destruct (Hfold _ _ _ _ _ Hres) as [_ Hall].
  apply (Hall a ca b cb).
  clear - Hab Ha Hb.
  assert (forall k (l : list (cluster R)) a b,
             (k <= a)%nat -> (a < b)%nat ->
             nth_error l (a - k) = Some ca -> nth_error l (b - k) = Some cb ->
             In ((a, ca), (b, cb)) (pairs_from k l)) as Hin.
  { intros k l. revert k. induction l as [|c l IH]; intros k a' b' Hka Hab' Ha' Hb'.
    - destruct (a' - k)%nat; discriminate.
    - cbn [pairs_from]. apply in_or_app.
      destruct (Nat.eq_dec a' k) as [-> | Hne].
      + left. rewrite Nat.sub_diag in Ha'. injection Ha' as ->.
        replace (b' - k)%nat with (S (b' - S k)) in Hb' by lia. cbn in Hb'.
        clear - Hb' Hab'.
        assert (forall m (l : list (cluster R)) b,
                   (m <= b)%nat -> nth_error l (b - m) = Some cb ->
                   In ((k, ca), (b, cb))
                      (mapi_from (fun j y => ((k, ca), (j, y))) m l)) as Hrow.
        { intros m l0. revert m. induction l0 as [|y l0 IHl]; intros m b0 Hmb Hnth.
          - destruct (b0 - m)%nat; discriminate.
          - cbn [mapi_from]. destruct (Nat.eq_dec b0 m) as [-> | Hnm].
            + rewrite Nat.sub_diag in Hnth. injection Hnth as ->. now left.
            + right. apply IHl; [lia|].
              replace (b0 - m)%nat with (S (b0 - S m)) in Hnth by lia.
              exact Hnth. }
        apply Hrow; [lia | exact Hb'].
      + right. apply IH; try lia.
        * replace (a' - k)%nat with (S (a' - S k)) in Ha' by lia. exact Ha'.
        * replace (b' - k)%nat with (S (b' - S k)) in Hb' by lia. exact Hb'. }
  apply Hin; rewrite ?Nat.sub_0_r; auto; lia.
Qed.

End LoopOverR.

(* ------------------------------------------------------------------ *)
(** * The theorems at the example inputs *)

Section AtExamples.
Import Examples.

(** The nine crowded tabs, run through the engine over the rationals. *)
Example crowded_run :
  fst (clusterTabs new_URL executeScript (extractor (num := Q))
         generateClusterName crowded_tabs crowded_width fresh)
  = Some [mkResult "GROUP" "blue" [11; 12]%Z;
          mkResult "GROUP" "green" [13; 14]%Z;
          mkResult "GROUP" "yellow" [15; 16]%Z;
          mkResult "MISC" "red" [17; 18; 19]%Z].
Proof. vm_compute. reflexivity. Qed.

Example docs_twice_parsed :
  parseUrl new_URL "https://a.example/docs/docs"
  = mkFeatures "a.example" "a.example" ["docs"; "docs"].
Proof. reflexivity. Qed.

(** C4, as the specification words it, fails on the crowded tabs: the window
    gives a capacity of 3, passes 1 and 2 leave three multi-item clusters and
    three true orphans, and the consolidated list has four clusters. *)
Lemma consolidateSingletons_over_capacity :
  calculateGroupCapacity 500 9 = 3%Z
  /\ crowded_capacity = 3%Z
  /\ agglomerativeClustering crowded_tabVectors
       (buildSimilarityMatrix crowded_tabVectors) crowded_capacity
     = Some crowded_clusters
  /\ length (fst (consolidationPasses crowded_clusters)) = 3
  /\ length (snd (consolidationPasses crowded_clusters)) = 3
  /\ length (consolidateSingletons crowded_clusters crowded_capacity) = 4
  /\ ~ capacity_respected crowded_clusters crowded_capacity.
Proof.
  split; [reflexivity|]. split; [reflexivity|].
  split; [vm_compute; reflexivity|].
  assert (length (snd (consolidationPasses crowded_clusters)) = 3) as Horphans
      by (vm_compute; reflexivity).
  assert (length (consolidateSingletons crowded_clusters crowded_capacity) = 4)
    as Hout by (vm_compute; reflexivity).
  split; [vm_compute; reflexivity|]. split; [exact Horphans|].
  split; [exact Hout|].
  unfold capacity_respected. rewrite Horphans, Hout.
  intros Hclaim. specialize (Hclaim (le_n 3)).
  change crowded_capacity with 3%Z in Hclaim. lia.
Qed.

Lemma consolidateSingletons_capacity_witness :
  (Z.of_nat (length (consolidateSingletons crowded_clusters crowded_capacity))
   <= Z.max crowded_capacity
        (Z.of_nat (length (fst (consolidationPasses crowded_clusters))) + 1))%Z
  /\ (length (snd (consolidationPasses crowded_clusters)) < MIN_ORPHANS_FOR_MISC
      \/ (crowded_capacity
          <= Z.of_nat (length (fst (consolidationPasses crowded_clusters))))%Z).
Proof.
  split.
  - apply (proj1 (consolidateSingletons_capacity crowded_clusters crowded_capacity)).
    vm_compute. apply le_n.
  - apply (proj2 (consolidateSingletons_capacity crowded_clusters crowded_capacity)).
    vm_compute. reflexivity.
Defined.

Lemma clusterTabs_too_few_tabs_witness :
  clusterTabs new_URL executeScript (extractor (num := Q)) generateClusterName
    (firstn 2 crowded_tabs) crowded_width fresh
  = (Some [], snd (init fresh))
  /\ (calls (snd (init fresh)) = calls fresh
      \/ calls (snd (init fresh)) = calls fresh ++ [LoadModel]).
Proof.
  apply clusterTabs_too_few_tabs. simpl. lia.
Defined.

Lemma crowded_ids_distinct : NoDup (map tab_id crowded_tabs).
Proof.
  simpl. repeat constructor; simpl; intuition discriminate.
Defined.

Lemma clusterTabs_tabIds_disjoint_witness :
  exists results e',
    clusterTabs new_URL executeScript (extractor (num := Q)) generateClusterName
      crowded_tabs crowded_width fresh = (Some results, e')
    /\ forall p q rp rq id,
         p <> q -> nth_error results p = Some rp -> nth_error results q = Some rq ->
         In id (tabIds rp) -> In id (tabIds rq) -> False.
Proof.
  destruct (clusterTabs_tabIds_disjoint new_URL executeScript
              (extractor (num := Q)) generateClusterName
              crowded_tabs crowded_width fresh)
    as (results & e' & Hrun & _ & Hdisjoint).
  exists results, e'. split; [exact Hrun|].
  exact (Hdisjoint crowded_ids_distinct).
Defined.

Lemma agglomerativeClustering_merges_witness :
  exists clusters merges,
    agglomerativeClustering_log (num := Q) crowded_tabVectors
      (buildSimilarityMatrix crowded_tabVectors) crowded_capacity
    = Some (clusters, merges)
    /\ Forall (merge_allowed (buildSimilarityMatrix crowded_tabVectors)
                 (computeAdaptiveThreshold 9 crowded_capacity) crowded_capacity)
              merges
    /\ clusteringLoop 9 (buildSimilarityMatrix crowded_tabVectors)
         (computeAdaptiveThreshold 9 crowded_capacity) crowded_capacity
         crowded_clusters
       = Some (crowded_clusters, []).
Proof.
  destruct (agglomerativeClustering_merges (num := Q) crowded_tabVectors
              (buildSimilarityMatrix crowded_tabVectors) crowded_capacity)
    as (clusters & merges & Hlog & Hallowed & _ & Hstops).
  exists clusters, merges. split; [exact Hlog|]. split; [exact Hallowed|].
  apply (Hstops 9 crowded_clusters 0 1 0%Q).
  - vm_compute. reflexivity.
  - vm_compute. reflexivity.
Defined.



End AtExamples.

(* ------------------------------------------------------------------ *)
(** * Group capacity *)

Lemma ceil_div_2 (a : Z) : (2 * ceil_div a 2 - 1 <= a <= 2 * ceil_div a 2)%Z.
Proof.
  unfold ceil_div.
  pose proof (Z.div_mod (- a) 2 ltac:(lia)).
  pose proof (Z.mod_pos_bound (- a) 2 ltac:(lia)). lia.
Qed.

(** X1.  Whatever the window width and the number of tabs, the capacity is
    between [MIN_GROUPS] and [MAX_GROUPS] (2 and 10), and it is at most half
    the number of tabs, rounded up, once that is two or more. *)
Theorem calculateGroupCapacity_bounds (screenWidth : Z) (tabCount : nat) :
  (MIN_GROUPS <= calculateGroupCapacity screenWidth tabCount <= MAX_GROUPS)%Z
  /\ (calculateGroupCapacity screenWidth tabCount
      <= Z.max 2 (ceil_div (Z.of_nat tabCount) 2))%Z
  /\ (2 * calculateGroupCapacity screenWidth tabCount
      <= Z.max 4 (Z.of_nat tabCount + 1))%Z.
Proof.
  unfold calculateGroupCapacity, MIN_GROUPS, MAX_GROUPS, PIXELS_PER_GROUP.
  pose proof (ceil_div_2 (Z.of_nat tabCount)). lia.
Qed.

(** X2.  A wider window or more tabs never lower the capacity. *)
Theorem calculateGroupCapacity_monotone (w w' : Z) (n n' : nat) :
  (w <= w')%Z -> n <= n' ->
  (calculateGroupCapacity w n <= calculateGroupCapacity w' n')%Z.
Proof.
  intros Hw Hn.
  unfold calculateGroupCapacity, MIN_GROUPS, MAX_GROUPS, PIXELS_PER_GROUP.
  assert (w / 130 <= w' / 130)%Z by (apply Z.div_le_mono; lia).
  pose proof (ceil_div_2 (Z.of_nat n)). pose proof (ceil_div_2 (Z.of_nat n')).
  lia.
Qed.

Lemma calculateGroupCapacity_monotone_witness :
  (calculateGroupCapacity 500 9 <= calculateGroupCapacity 1920 30)%Z.
Proof. apply calculateGroupCapacity_monotone; lia. Defined.

(* ------------------------------------------------------------------ *)
(** * The adaptive threshold *)

Section ThresholdOverR.
Local Open Scope R_scope.

(** X3.  Over the reals: more tabs never raise the threshold; up to ten tabs
    it is at least the base 0.38, and from twenty-five tabs on it is 0.85
    times the base. *)
Theorem computeAdaptiveThreshold_antitone (n n' : nat) (target target' : Z) :
  (n <= n')%nat ->
  computeAdaptiveThreshold n' target' <= computeAdaptiveThreshold n target
  /\ ((n <= 10)%nat -> 38 / 100 <= computeAdaptiveThreshold n target)
  /\ ((25 <= n)%nat -> computeAdaptiveThreshold n target = 38 / 100 * (85 / 100)).
Proof.
  intros Hn. rewrite !computeAdaptiveThreshold_real.
  apply le_INR in Hn.
  assert (forall m : nat, (m <= 10)%nat -> INR m <= 10) as Hten
      by (intros m Hm; apply le_INR in Hm; simpl in Hm; lra).
  assert (forall m : nat, (25 <= m)%nat -> 25 <= INR m) as H25
      by (intros m Hm; apply le_INR in Hm; simpl in Hm; lra).
  unfold Rmax.
  repeat split.
  - destruct (Rle_dec (85 / 100) (1 - (INR n' - 10) * (1 / 100))),
      (Rle_dec (85 / 100) (1 - (INR n - 10) * (1 / 100))); lra.
  - intros Hm. specialize (Hten n Hm).
    destruct (Rle_dec (85 / 100) (1 - (INR n - 10) * (1 / 100))); lra.
  - intros Hm. specialize (H25 n Hm).
    destruct (Rle_dec (85 / 100) (1 - (INR n - 10) * (1 / 100))); lra.
Qed.

Lemma computeAdaptiveThreshold_antitone_witness :
  computeAdaptiveThreshold 30 3 <= computeAdaptiveThreshold 5 2
  /\ 38 / 100 <= computeAdaptiveThreshold 5 2
  /\ computeAdaptiveThreshold 30 3 = 38 / 100 * (85 / 100).
Proof.
  destruct (computeAdaptiveThreshold_antitone 5 30 2 3 ltac:(lia)) as (H1 & H2 & _).
  destruct (computeAdaptiveThreshold_antitone 30 30 3 3 ltac:(lia)) as (_ & _ & H3).
  split; [exact H1|]. split; [apply H2; lia | apply H3; lia].
Defined.

End ThresholdOverR.

(* ------------------------------------------------------------------ *)
(** * Choosing the pair to merge *)

Section BestMerge.
Context {num : Type} `{Num num}.


End BestMerge.


Section BestMergeOverR.
Local Open Scope R_scope.

(** X5.  Over the reals: the pair [findBestMerge] answers with is the first
    pair of highest average linkage in the order the two loops visit the
    pairs.  Every pair visited before it is strictly less similar, no pair
    visited after it is more similar. *)
Theorem findBestMerge_first_best (clusters : list (cluster R))
  (M : list (list R)) (i j : nat) (s : R) :
  findBestMerge clusters M = Some (i, j, s) ->
  exists front back ci cj,
    pairs_from 0 clusters = front ++ ((i, ci), (j, cj)) :: back
    /\ s = averageLinkage M ci cj
    /\ Forall (fun p => averageLinkage M (snd (fst p)) (snd (snd p)) < s) front
    /\ Forall (fun p => averageLinkage M (snd (fst p)) (snd (snd p)) <= s) back.
Proof.
  unfold findBestMerge.
  set (g := fun p : (nat * cluster R) * (nat * cluster R) =>
              averageLinkage M (snd (fst p)) (snd (snd p))).
  set (step := fun best '((i, ci), (j, cj)) => _).
  assert (forall ps bi bj bs i j s,
             fold_left step ps (Some (bi, bj, bs)) = Some (i, j, s) ->
             ((i, j, s) = (bi, bj, bs) /\ Forall (fun p => g p <= bs) ps)
             \/ exists front back ci cj,
                 ps = front ++ ((i, ci), (j, cj)) :: back
                 /\ s = averageLinkage M ci cj /\ bs < s
                 /\ Forall (fun p => g p < s) front
                 /\ Forall (fun p => g p <= s) back) as Hfold.
  { induction ps as [|[[a ca] [b cb]] ps IH]; intros bi bj bs i' j' s' Hres;
      cbn [fold_left] in Hres.
    - left. injection Hres as <- <- <-. split; [reflexivity | constructor].
    - cbn [step] in Hres. unfold ngtb in Hres.
      cbn [nltb RNum] in Hres. unfold Rltb in Hres.
      destruct (Rlt_dec bs (averageLinkage M ca cb)) as [Hlt | Hge].
      + apply IH in Hres.
        destruct Hres as [[Heq Hall] | (front & back & ci & cj & -> & Hs & Hb & Hf & Hk)].
        * injection Heq as -> -> ->. right.
          exists [], ps, ca, cb.
          split; [reflexivity|]. split; [reflexivity|]. split; [exact Hlt|].
          split; [constructor | exact Hall].
        * right. exists (((a, ca), (b, cb)) :: front), back, ci, cj.
          split; [reflexivity|]. split; [exact Hs|]. split; [lra|].
          split; [constructor; [unfold g; simpl; lra | exact Hf] | exact Hk].
      + apply IH in Hres.
        destruct Hres as [[Heq Hall] | (front & back & ci & cj & -> & Hs & Hb & Hf & Hk)].
        * left. split; [exact Heq|]. constructor; [unfold g; simpl; lra | exact Hall].
        * right. exists (((a, ca), (b, cb)) :: front), back, ci, cj.
          split; [reflexivity|]. split; [exact Hs|]. split; [exact Hb|].
          split; [constructor; [unfold g; simpl; lra | exact Hf] | exact Hk]. }
  intros Hres.
  destruct (pairs_from 0 clusters) as [|[[a ca] [b cb]] ps]; [discriminate|].
  cbn [fold_left] in Hres. cbn [step] in Hres.
  apply Hfold in Hres.
  destruct Hres as [[Heq Hall] | (front & back & ci & cj & -> & Hs & Hb & Hf & Hk)].
  - injection Heq as -> -> ->.
    exists [], ps, ca, cb.
    split; [reflexivity|]. split; [reflexivity|]. split; [constructor | exact Hall].
  - exists (((a, ca), (b, cb)) :: front), back, ci, cj.
    split; [reflexivity|]. split; [exact Hs|].
    split; [constructor; [exact Hb | exact Hf] | exact Hk].
Qed.

End BestMergeOverR.

Lemma findBestMerge_first_best_witness :
  let c0 := singletonCluster 0 (Examples.docs_twice : tabVector R) in
  let c1 := singletonCluster 1 (Examples.docs_once : tabVector R) in
  let c2 := singletonCluster 2 (Examples.docs_once : tabVector R) in
  let M := [[0; 1; 2]; [1; 0; 2]; [2; 2; 0]]%R in
  findBestMerge [c0; c1; c2] M = Some (0, 2, averageLinkage M c0 c2)
  /\ exists front back ci cj,
      pairs_from 0 [c0; c1; c2] = front ++ ((0, ci), (2, cj)) :: back
      /\ front = [((0, c0), (1, c1))]
      /\ back = [((1, c1), (2, c2))]
      /\ averageLinkage M c0 c2 = averageLinkage M ci cj
      /\ Forall (fun p => (averageLinkage M (snd (fst p)) (snd (snd p))
                           < averageLinkage M c0 c2)%R) front
      /\ Forall (fun p => (averageLinkage M (snd (fst p)) (snd (snd p))
                           <= averageLinkage M c0 c2)%R) back.
Proof.
  intros c0 c1 c2 M.
  assert (averageLinkage M c0 c1 = 1%R /\ averageLinkage M c0 c2 = 2%R
          /\ averageLinkage M c1 c2 = 2%R) as (H01 & H02 & H12).
  { unfold averageLinkage, cell, nofnat, nzero; simpl.
    repeat split; field. }
  assert (findBestMerge [c0; c1; c2] M = Some (0, 2, averageLinkage M c0 c2))
    as Hbest.
  { unfold findBestMerge. cbn [pairs_from mapi_from app fold_left].
    cbn [above_neg_infinity RNum]. unfold ngtb. cbn [nltb RNum].
    rewrite (Rltb_true (averageLinkage M c0 c1) (averageLinkage M c0 c2))
      by (rewrite H01, H02; lra).
    rewrite (Rltb_false (averageLinkage M c0 c2) (averageLinkage M c1 c2))
      by (rewrite H02, H12; lra).
    reflexivity. }
  split; [exact Hbest|].
  destruct (findBestMerge_first_best [c0; c1; c2] M 0 2
              (averageLinkage M c0 c2) Hbest)
    as (front & back & ci & cj & Hpairs & Hs & Hfront & Hback).
  exists front, back, ci, cj.
  split; [exact Hpairs|].
  cbn [pairs_from mapi_from app] in Hpairs.
  destruct front as [|f1 [|f2 [|f3 front]]]; cbn [app] in Hpairs.
  - discriminate Hpairs.
  - injection Hpairs as <- _ _ <-. repeat split; assumption.
  - discriminate Hpairs.
  - destruct front; discriminate Hpairs.
Defined.

(* ------------------------------------------------------------------ *)
(** * The similarity matrix *)

Section MatrixShape.
Context {num : Type} `{Num num}.

(** X6.  The matrix is square, one row and one column per tab vector; its
    diagonal is zero; above the diagonal the entry is the similarity of the
    two tab vectors in list order, and the entry below the diagonal is the
    same score (not the similarity computed in the other order). *)
Theorem buildSimilarityMatrix_entries (tabVectors : list (tabVector num)) :
  length (buildSimilarityMatrix tabVectors) = length tabVectors
  /\ Forall (fun row => length row = length tabVectors)
            (buildSimilarityMatrix tabVectors)
  /\ (forall i, entry (buildSimilarityMatrix tabVectors) i i = nzero)
  /\ (forall i j ti tj,
         i < j -> nth_error tabVectors i = Some ti -> nth_error tabVectors j = Some tj ->
         entry (buildSimilarityMatrix tabVectors) i j = computePairwiseSimilarity ti tj
         /\ entry (buildSimilarityMatrix tabVectors) j i = computePairwiseSimilarity ti tj).
Proof.
  unfold buildSimilarityMatrix, mapi. split; [apply mapi_from_length|].
  split; [|split].
  - apply Forall_forall. intros row Hrow.
    apply mapi_from_In in Hrow. destruct Hrow as (k & x & -> & _).
    apply mapi_from_length.
  - intros i. unfold entry. rewrite nth_mapi_from.
    destruct (nth_error tabVectors i) as [ti|] eqn:Hi.
    + rewrite nth_mapi_from, Hi. simpl. now rewrite Nat.ltb_irrefl.
    + now destruct i.
  - intros i j ti tj Hij Hi Hj. unfold entry.
    rewrite !nth_mapi_from, Hi, Hj, !nth_mapi_from, Hi, Hj. simpl.
    destruct (Nat.ltb_spec i j); [|lia].
    destruct (Nat.ltb_spec j i); [lia|]. split; reflexivity.
Qed.

(** X8.  The centroid of one or more embeddings has the dimension of the
    first of them. *)
Theorem computeCentroid_dimension (e0 : list num) (embeddings : list (list num)) :
  length (computeCentroid (e0 :: embeddings)) = length e0.
Proof.
  destruct embeddings as [|e1 es]; [reflexivity|].
  cbn [computeCentroid].
  assert (forall (es' : list (list num)) (c : list num),
             length (fold_left
                       (fun centroid emb =>
                          mapi (fun i x => nfround (nadd x (nth i emb nundefined)))
                               centroid)
                       es' c) = length c) as Hlen.
  { induction es' as [|e es' IH]; intros c; simpl; [reflexivity|].
    rewrite IH. apply mapi_from_length. }
  destruct (ngtb _ _); rewrite ?length_map, Hlen; apply repeat_length.
Qed.

End MatrixShape.

Lemma buildSimilarityMatrix_entries_witness :
  entry (buildSimilarityMatrix [Examples.docs_twice; Examples.docs_once]) 0 1
  = computePairwiseSimilarity (Examples.docs_twice : tabVector Q) Examples.docs_once
  /\ entry (buildSimilarityMatrix [Examples.docs_twice; Examples.docs_once]) 1 0
     = computePairwiseSimilarity (Examples.docs_twice : tabVector Q) Examples.docs_once.
Proof.
  destruct (buildSimilarityMatrix_entries
              [(Examples.docs_twice : tabVector Q); Examples.docs_once])
    as (_ & _ & _ & Hentries).
  apply Hentries; [lia | reflexivity | reflexivity].
Defined.

Section SimilarityBounds.
Local Open Scope R_scope.

Lemma commonTokens_length (a b : tabVector R) :
  (length (commonTokens a b) <= length (tv_pathTokens a))%nat.
Proof. unfold commonTokens. apply filter_length_le. Qed.

(** X7.  Over the reals: the similarity of two items is their cosine
    similarity plus a boost between 0 and 0.23 (0.15 for the domain, 0.08 for
    the path).  The count of common tokens is at most the length of the first
    item's path, so the scale of the path boost is at most 1 by itself: the
    cap [Math.min(1, ...)] never binds. *)
Theorem computePairwiseSimilarity_bounds (a b : tabVector R) :
  cosineSimilarity (tv_embedding a) (tv_embedding b)
  <= computePairwiseSimilarity a b
  <= cosineSimilarity (tv_embedding a) (tv_embedding b) + 23 / 100
  /\ nmin n_one
       (ndiv (nofnat (length (commonTokens a b)))
          (nofnat (Nat.max (Nat.max (length (tv_pathTokens a))
                                    (length (tv_pathTokens b))) 1)))
     = INR (length (commonTokens a b))
       / INR (Nat.max (Nat.max (length (tv_pathTokens a))
                               (length (tv_pathTokens b))) 1).
Proof.
  set (c := length (commonTokens a b)).
  set (m := Nat.max (Nat.max (length (tv_pathTokens a)) (length (tv_pathTokens b))) 1).
  assert (0 < INR m) as Hm by (apply lt_0_INR; unfold m; lia).
  assert (INR c <= INR m) as Hc.
  { apply le_INR. pose proof (commonTokens_length a b). unfold c, m. lia. }
  assert (0 <= INR c) as Hc0 by apply pos_INR.
  assert (0 <= INR c / INR m <= 1) as Hratio.
  { split.
    - apply Rmult_le_pos; [assumption|]. left. now apply Rinv_0_lt_compat.
    - apply (Rmult_le_reg_r (INR m)); [assumption|].
      unfold Rdiv. rewrite Rmult_assoc, Rinv_l by lra. lra. }
  assert (nmin n_one (ndiv (nofnat c) (nofnat m)) = INR c / INR m) as Hmin.
  { rewrite nmin_Rmin. unfold n_one, nofnat. cbn [ndiv nofZ RNum].
    rewrite <- !INR_IZR_INZ. unfold Rmin.
    destruct (Rle_dec 1 (INR c / INR m)); lra. }
  split; [|exact Hmin].
  unfold computePairwiseSimilarity. fold c m. rewrite Hmin.
  unfold DOMAIN_AFFINITY_BOOST, URL_PATH_BOOST, dec, nzero.
  cbn [nadd nmul ndiv nofZ RNum].
  destruct (String.eqb (tv_domain a) (tv_domain b));
    [|destruct (String.eqb (tv_baseDomain a) (tv_baseDomain b))];
    destruct (0 <? c)%nat; nra.
Qed.

End SimilarityBounds.

(* ------------------------------------------------------------------ *)
(** * How many clusters *)

Section Counts.
Context {num : Type} `{Num num}.



(** Pass 1 never makes more clusters than it was given singletons. *)
Lemma clusterSingletonsTogether_length (singletons : list (cluster num)) :
  length (clusterSingletonsTogether singletons) <= length singletons.
Proof.
  unfold clusterSingletonsTogether.
  destruct (length singletons <=? 1); [lia|].
  assert (forall acc, length (fold_left placeSingleton singletons acc)
                      <= length acc + length singletons) as Hfold.
  { induction singletons as [|s ss IH]; intros acc; simpl; [lia|].
    eapply Nat.le_trans; [apply IH|].
    unfold placeSingleton.
    destruct (scanBest _ _ _ _ _) as [[idx|] bestScore];
      [destruct (ngeb bestScore SINGLETON_CLUSTER_THRESHOLD)|];
      rewrite ?update_at_length, ?length_app; simpl; lia. }
  apply (Hfold []).
Qed.

Lemma absorbOrphans_length (orphans multi finalOrphans : list (cluster num)) :
  length (fst (fold_left absorbOrphan orphans (multi, finalOrphans))) = length multi
  /\ length (snd (fold_left absorbOrphan orphans (multi, finalOrphans)))
     <= length finalOrphans + length orphans.
Proof.
  revert multi finalOrphans.
  induction orphans as [|o orphans IH]; intros multi finalOrphans;
    cbn [fold_left]; [simpl; lia|].
  assert (length (fst (absorbOrphan (multi, finalOrphans) o)) = length multi
          /\ length (snd (absorbOrphan (multi, finalOrphans) o))
             <= S (length finalOrphans)) as Hstep.
  { unfold absorbOrphan.
    destruct (findClosestCluster o multi) as [[idx|] similarity];
      [destruct (ngeb similarity SINGLETON_ABSORPTION_THRESHOLD)|];
      simpl; rewrite ?update_at_length, ?length_app; simpl; lia. }
  destruct (absorbOrphan (multi, finalOrphans) o) as [m' f']. simpl in Hstep.
  specialize (IH m' f'). simpl. lia.
Qed.

Lemma filter_single_multi_length (clusters : list (cluster num)) :
  length (filter isSingle clusters) + length (filter isMulti clusters)
  <= length clusters.
Proof.
  induction clusters as [|c l IH]; cbn [filter length]; [lia|].
  assert (isSingle c = true -> isMulti c = false) as Hexcl.
  { unfold isSingle, isMulti. intros E. apply Nat.eqb_eq in E. rewrite E.
    reflexivity. }
  destruct (isSingle c); [rewrite Hexcl by reflexivity|];
    [|destruct (isMulti c)]; cbn [length]; lia.
Qed.

Lemma consolidationPasses_length (clusters : list (cluster num)) :
  length (fst (consolidationPasses clusters))
  + length (snd (consolidationPasses clusters)) <= length clusters.
Proof.
  unfold consolidationPasses.
  set (groups := clusterSingletonsTogether (filter isSingle clusters)).
  destruct (absorbOrphans_length (filter isSingle groups)
              (filter isMulti clusters ++ filter isMulti groups) []) as [H1 H2].
  rewrite H1, length_app. simpl in H2.
  pose proof (filter_single_multi_length groups) as Hg.
  pose proof (filter_single_multi_length clusters) as Hc.
  pose proof (clusterSingletonsTogether_length (filter isSingle clusters)) as Hp.
  fold groups in Hp. fold groups. lia.
Qed.

(** X11.  The consolidator never returns more clusters than it was given, and
    without a single-item cluster it returns its input as it is. *)
Theorem consolidateSingletons_length (clusters : list (cluster num)) (cap : Z) :
  length (consolidateSingletons clusters cap) <= length clusters
  /\ (if forallb (fun c => negb (isSingle c)) clusters
      then consolidateSingletons clusters cap = clusters else True).
Proof.
  split.
  - unfold consolidateSingletons.
    destruct (length (filter isSingle clusters) =? 0); [lia|].
    pose proof (consolidationPasses_length clusters) as Hlen.
    destruct (consolidationPasses clusters) as [multi finalOrphans];
      cbn [fst snd] in Hlen.
    destruct (Nat.eqb_spec (length finalOrphans) 0); [lia|].
    destruct (Z.of_nat (length multi + length finalOrphans) <=? cap)%Z;
      [rewrite length_app; lia|].
    destruct (Nat.leb_spec MIN_ORPHANS_FOR_MISC (length finalOrphans)) as [Hmin|_];
      rewrite length_app; simpl; [unfold MIN_ORPHANS_FOR_MISC in Hmin|]; lia.
  - destruct (forallb (fun c => negb (isSingle c)) clusters) eqn:Hall; [|exact I].
    unfold consolidateSingletons.
    replace (filter isSingle clusters) with (@nil (cluster num)); [reflexivity|].
    symmetry. rewrite forallb_forall in Hall.
    induction clusters as [|c l IH]; simpl; [reflexivity|].
    pose proof (Hall c (or_introl eq_refl)) as Hc.
    destruct (isSingle c); [discriminate|].
    apply IH. intros x Hx. apply Hall. now right.
Qed.

(** X12.  Given clusters none of which is the catch-all, the consolidator
    returns at most one catch-all cluster.  When there is one it is the last
    of the list, it holds [MIN_ORPHANS_FOR_MISC] items or more, and leaving
    those items as clusters of their own would have exceeded the capacity. *)
Theorem consolidateSingletons_catch_all (clusters : list (cluster num)) (cap : Z) :
  Forall (fun c => isMisc c = false) clusters ->
  Forall (fun c => isMisc c = false) (consolidateSingletons clusters cap)
  \/ exists front misc,
      consolidateSingletons clusters cap = front ++ [misc]
      /\ Forall (fun c => isMisc c = false) front
      /\ isMisc misc = true
      /\ MIN_ORPHANS_FOR_MISC <= length (items misc)
      /\ (cap < Z.of_nat (length front + length (items misc)))%Z.
Proof.
  intros Hplain. unfold consolidateSingletons.
  destruct (length (filter isSingle clusters) =? 0); [now left|].
  destruct (consolidationPasses_invariant (fun c => isMisc c = false))
    with (clusters := clusters) as [Hm Ho]; auto.
  destruct (consolidationPasses_shape clusters) as [_ Hs].
  destruct (consolidationPasses clusters) as [multi finalOrphans];
    cbn [fst snd] in *.
  destruct (length finalOrphans =? 0); [now left|].
  destruct (Z.leb_spec (Z.of_nat (length multi + length finalOrphans)) cap)
    as [Hfits | Hover].
  { left. apply Forall_app; auto. }
  destruct (Nat.leb_spec MIN_ORPHANS_FOR_MISC (length finalOrphans)) as [Hmin | Hfew].
  - right. exists multi, (createMiscCluster finalOrphans).
    split; [reflexivity|]. split; [exact Hm|]. split; [reflexivity|].
    simpl. rewrite singles_items_length by assumption. split; [exact Hmin | exact Hover].
  - left. apply Forall_app; auto.
Qed.

End Counts.

Lemma consolidateSingletons_catch_all_witness :
  Forall (fun c => isMisc c = false)
         (consolidateSingletons Examples.crowded_clusters Examples.crowded_capacity)
  \/ exists front misc,
      consolidateSingletons Examples.crowded_clusters Examples.crowded_capacity
      = front ++ [misc]
      /\ Forall (fun c => isMisc c = false) front
      /\ isMisc misc = true
      /\ MIN_ORPHANS_FOR_MISC <= length (items misc)
      /\ (Examples.crowded_capacity
          < Z.of_nat (length front + length (items misc)))%Z.
Proof.
  apply consolidateSingletons_catch_all.
  vm_compute. repeat constructor.
Defined.

(* ------------------------------------------------------------------ *)
(** * What the engine returns and what it asks for *)

Section Results.
Context {num : Type} `{Num num}.
Variable new_URL : string -> option URL.
Variable executeScript : tab -> option string.
Variable extractor : string -> list num.
Variable generateClusterName : cluster num -> Async string.

Lemma flat_map_item_ids (clusters : list (cluster num)) :
  flat_map item_ids clusters
  = map (fun item => tab_id (tv_tab item)) (flat_map items clusters).
Proof.
  induction clusters as [|c l IH]; simpl; [reflexivity|].
  now rewrite map_app, IH.
Qed.

(** The groups made of the consolidated clusters: two tabs or more each, tabs
    of the input only, at most half as many groups as tabs. *)
Lemma consolidated_groups (tabVectors : list (tabVector num))
  (M : list (list num)) (target cap : Z) (clusters : list (cluster num))
  (e : engine) :
  agglomerativeClustering tabVectors M target = Some clusters ->
  let results := fst (generateClusterMetadata generateClusterName
                        (consolidateSingletons clusters cap) e) in
  Forall (fun r => 2 <= length (tabIds r)) results
  /\ incl (flat_map tabIds results)
          (map (fun tv => tab_id (tv_tab tv)) tabVectors)
  /\ 2 * length results <= length tabVectors.
Proof.
  intros Hagg.
  pose proof (clustering_has_members _ _ _ _ Hagg) as Hmem.
  destruct (consolidateSingletons_shape clusters cap Hmem)
    as (multis & singles & Hshape & Hm & Hs).
  pose proof (clustering_members items tabVectors _ _ cap clusters
                (fun _ _ => eq_refl) (fun _ _ => eq_refl)
                (fun _ => eq_refl) (fun _ => eq_refl) Hagg) as Hperm.
  unfold mapi in Hperm. rewrite singletons_items, Hshape, flat_map_app in Hperm.
  rewrite Hshape. unfold generateClusterMetadata.
  destruct (clusterMetadata_shape generateClusterName 0 multis singles e Hm Hs)
    as [Hids _].
  set (results := fst (clusterMetadata_from generateClusterName 0
                         (multis ++ singles) e)) in *.
  cbn zeta.
  assert (Forall (fun ids : list Z => 2 <= length ids) (map tabIds results)) as Hsizes.
  { rewrite Hids. apply Forall_forall. intros ids Hin.
    apply in_map_iff in Hin. destruct Hin as (c & <- & Hc).
    rewrite Forall_forall in Hm. specialize (Hm c Hc).
    unfold isMulti in Hm. apply Nat.ltb_lt in Hm.
    unfold item_ids. rewrite length_map. lia. }
  assert (flat_map tabIds results
          = map (fun item => tab_id (tv_tab item)) (flat_map items multis)) as Hflat.
  { rewrite flat_map_concat_map, Hids, <- flat_map_concat_map.
    apply flat_map_item_ids. }
  split; [|split].
  - apply Forall_forall. intros r Hr. rewrite Forall_forall in Hsizes.
    apply Hsizes. now apply in_map.
  - rewrite Hflat. intros id Hid. apply in_map_iff in Hid.
    destruct Hid as (item & <- & Hitem).
    apply (in_map (fun x : tabVector num => tab_id (tv_tab x))).
    eapply Permutation_in; [exact Hperm|]. apply in_or_app. now left.
  - assert (2 * length results <= length (flat_map tabIds results)) as Hsum.
    { clear - Hsizes. induction results as [|r rs IH]; simpl; [lia|].
      inversion Hsizes as [|? ? Hr Hrs]; subst. rewrite length_app.
      specialize (IH Hrs). lia. }
    rewrite Hflat, length_map in Hsum.
    apply Permutation_length in Hperm. rewrite length_app in Hperm. lia.
Qed.

(** X13.  Every group [clusterTabs] returns holds two tabs or more, every
    identifier in a group is the identifier of an input tab, and there are at
    most half as many groups as tabs. *)
Theorem clusterTabs_groups_sizes (tabs : list tab) (screenWidth : Z) (e : engine) :
  exists results e',
    clusterTabs new_URL executeScript extractor generateClusterName
      tabs screenWidth e = (Some results, e')
    /\ Forall (fun r => 2 <= length (tabIds r)) results
    /\ incl (flat_map tabIds results) (map tab_id tabs)
    /\ 2 * length results <= length tabs.
Proof.
  destruct (Nat.leb_spec (length tabs) 2) as [Hle | Hgt].
  - exists [], (snd (init e)). split.
    + unfold clusterTabs, bind. destruct (init e) as [[] e0].
      apply Nat.leb_le in Hle. now rewrite Hle.
    + split; [constructor|]. split; [intros x []|simpl; lia].
  - destruct (clusterTabs_run new_URL executeScript extractor
                generateClusterName tabs screenWidth e Hgt)
      as (tabVectors & clusters & e2 & Htabs & Hagg & Hrun).
    rewrite Hrun. eexists _, _. split; [reflexivity|].
    pose proof (consolidated_groups tabVectors _ _
                  (calculateGroupCapacity screenWidth (length tabs)) clusters e2 Hagg)
      as Hgroups.
    cbn zeta in Hgroups. destruct Hgroups as (H1 & H2 & H3).
    assert (length tabVectors = length tabs) as Hl
        by (rewrite <- Htabs; symmetry; apply length_map).
    assert (map (fun tv => tab_id (tv_tab tv)) tabVectors = map tab_id tabs) as Hids
        by (rewrite <- Htabs, map_map; reflexivity).
    rewrite Hids in H2. rewrite Hl in H3.
    split; [exact H1|]. split; [exact H2 | exact H3].
Qed.

(** X14.  [generateClusterMetadata] on any cluster list: one result per
    cluster that does not hold exactly one item, in order; its [tabIds] are
    the identifiers of the cluster's items; its colour is the palette entry
    at the cluster's position in the list given, single-item clusters counted;
    the catch-all is named "MISC". *)
Theorem generateClusterMetadata_results (clusters : list (cluster num))
  (e : engine) :
  Forall2 (fun r ic =>
             tabIds r = item_ids (snd ic)
             /\ color r = nth (fst ic mod 9) colors ""
             /\ (if isMisc (snd ic) then name r = "MISC" else True))
          (fst (generateClusterMetadata generateClusterName clusters e))
          (filter (fun ic => negb (isSingle (snd ic)))
                  (combine (seq 0 (length clusters)) clusters)).
Proof.
  unfold generateClusterMetadata.
  enough (forall i e0,
             Forall2 (fun r ic =>
                        tabIds r = item_ids (snd ic)
                        /\ color r = nth (fst ic mod 9) colors ""
                        /\ (if isMisc (snd ic) then name r = "MISC" else True))
                     (fst (clusterMetadata_from generateClusterName i clusters e0))
                     (filter (fun ic => negb (isSingle (snd ic)))
                             (combine (seq i (length clusters)) clusters)))
    as Hgen by apply Hgen.
  induction clusters as [|c l IH]; intros i e0; cbn [length seq combine filter].
  - constructor.
  - cbn [clusterMetadata_from snd]. unfold isSingle at 1.
    destruct (length (items c) =? 1); cbn [negb].
    + apply IH.
    + unfold bind.
      destruct ((if isMisc c then ret "MISC" else generateClusterName c) e0)
        as [nm e1] eqn:Hname.
      specialize (IH (S i) e1).
      destruct (clusterMetadata_from generateClusterName (S i) l e1) as [rs e2].
      cbn [fst ret] in *. constructor; [|exact IH].
      cbn [tabIds color name fst snd]. split; [reflexivity|].
      split; [reflexivity|].
      destruct (isMisc c); [|exact I]. unfold ret in Hname. congruence.
Qed.

Lemma for_each_cons {A B} (f : A -> Async B) (x : A) (xs : list A) (e : engine) :
  for_each f (x :: xs) e
  = (fst (f x e) :: fst (for_each f xs (snd (f x e))),
     snd (for_each f xs (snd (f x e)))).
Proof.
  cbn [for_each]. unfold bind, ret.
  destruct (f x e) as [y e1]. cbn [fst snd].
  destruct (for_each f xs e1) as [ys e2]. reflexivity.
Qed.

Lemma enrichTab_engine (t : tab) (e : engine) :
  snd (enrichTab new_URL executeScript t e)
  = if scriptable t
    then mkEngine (extractor_loaded e) (calls e ++ [RunScript (tab_id t)])
    else e.
Proof. unfold enrichTab, bind, called, ret. destruct (scriptable t); reflexivity. Qed.

Lemma extractAndEnrichTabs_calls (tabs : list tab) (e : engine) :
  calls (snd (extractAndEnrichTabs new_URL executeScript tabs e))
  = calls e ++ map (fun t => RunScript (tab_id t)) (filter scriptable tabs)
  /\ extractor_loaded (snd (extractAndEnrichTabs new_URL executeScript tabs e))
     = extractor_loaded e.
Proof.
  unfold extractAndEnrichTabs. revert e.
  induction tabs as [|t ts IH]; intros e.
  - simpl. now rewrite app_nil_r.
  - rewrite for_each_cons. cbn [snd filter]. rewrite enrichTab_engine.
    destruct (IH (if scriptable t
                  then mkEngine (extractor_loaded e)
                         (calls e ++ [RunScript (tab_id t)])
                  else e)) as [IH1 IH2].
    rewrite IH1, IH2.
    destruct (scriptable t); cbn [calls extractor_loaded map];
      rewrite <- ?app_assoc; split; reflexivity.
Qed.

Lemma generateEmbeddings_calls (enrichedTabs : list enrichedTab) (e : engine) :
  calls (snd (generateEmbeddings extractor enrichedTabs e))
  = calls e
    ++ map (fun tv => Embed (tv_content tv))
           (fst (generateEmbeddings extractor enrichedTabs e))
  /\ extractor_loaded (snd (generateEmbeddings extractor enrichedTabs e))
     = extractor_loaded e.
Proof.
  unfold generateEmbeddings.
  set (embedItem := fun item : enrichedTab => _).
  assert (forall item e0,
             embedItem item e0
             = (mkTabVector (en_tab item) (en_content item) (en_domain item)
                  (en_baseDomain item) (en_pathTokens item)
                  (extractor (en_content item)),
                mkEngine (extractor_loaded e0)
                  (calls e0 ++ [Embed (en_content item)]))) as Hitem
      by reflexivity.
  revert e. induction enrichedTabs as [|item items IH]; intros e.
  - simpl. now rewrite app_nil_r.
  - rewrite for_each_cons, Hitem. cbn [fst snd].
    destruct (IH (mkEngine (extractor_loaded e)
                    (calls e ++ [Embed (en_content item)]))) as [IH1 IH2].
    rewrite IH1, IH2. cbn [calls extractor_loaded map tv_content].
    rewrite <- app_assoc. split; reflexivity.
Qed.

(** X15.  What the first two steps ask of the collaborators: a page script on
    each tab that has a URL other than chrome:// or edge://, in tab order,
    then one embedding per tab, of its content, in tab order; nothing else,
    and the model is not reloaded. *)
Theorem enrich_and_embed_calls (tabs : list tab) (e : engine) :
  let enriched := extractAndEnrichTabs new_URL executeScript tabs e in
  let vectors := generateEmbeddings extractor (fst enriched) (snd enriched) in
  calls (snd vectors)
  = calls e
    ++ map (fun t => RunScript (tab_id t)) (filter scriptable tabs)
    ++ map (fun tv => Embed (tv_content tv)) (fst vectors)
  /\ extractor_loaded (snd vectors) = extractor_loaded e
  /\ map tv_tab (fst vectors) = tabs.
Proof.
  cbn zeta.
  destruct (extractAndEnrichTabs_calls tabs e) as [H1 H2].
  destruct (generateEmbeddings_calls
              (fst (extractAndEnrichTabs new_URL executeScript tabs e))
              (snd (extractAndEnrichTabs new_URL executeScript tabs e))) as [H3 H4].
  rewrite H3, H4, H1, H2, <- app_assoc.
  split; [reflexivity|]. split; [reflexivity|].
  apply tabVectors_of_tabs.
Qed.

End Results.

(* ------------------------------------------------------------------ *)
(** * More on the featurizer *)

Lemma string_forallb_append (p : ascii -> bool) (a b : string) :
  string_forallb p (a ++ b)%string = string_forallb p a && string_forallb p b.
Proof. induction a as [|c a IH]; simpl; [reflexivity|]. now rewrite IH, andb_assoc. Qed.

Lemma split_on_clean (sep : ascii -> bool) (s : string) :
  string_forallb (fun c => negb (sep c)) s = true -> split_on sep s = [s].
Proof.
  induction s as [|c s IH]; simpl; [reflexivity|].
  intros Hs. apply andb_prop in Hs. destruct Hs as [Hc Hs].
  apply negb_true_iff in Hc. rewrite Hc, IH by assumption. reflexivity.
Qed.

Lemma split_on_append (sep : ascii -> bool) (a : string) (c : ascii) (rest : string) :
  string_forallb (fun c => negb (sep c)) a = true -> sep c = true ->
  split_on sep (a ++ String c rest)%string = a :: split_on sep rest.
Proof.
  intros Ha Hc. induction a as [|x a IH]; simpl.
  - now rewrite Hc.
  - simpl in Ha. apply andb_prop in Ha. destruct Ha as [Hx Ha].
    apply negb_true_iff in Hx. rewrite Hx, IH by assumption. reflexivity.
Qed.

Lemma string_append_assoc (a b c : string) :
  ((a ++ b) ++ c)%string = (a ++ (b ++ c))%string.
Proof. induction a as [|x a IH]; simpl; [reflexivity | now rewrite IH]. Qed.

Lemma join_app (sep : string) (front : list string) (a : string) (back : list string) :
  join sep (front ++ a :: back)
  = match front with
    | [] => join sep (a :: back)
    | _ => (join sep front ++ sep ++ join sep (a :: back))%string
    end.
Proof.
  unfold join. induction front as [|x front IH]; [reflexivity|].
  destruct front as [|y front].
  - simpl. reflexivity.
  - change ((x :: y :: front) ++ a :: back) with (x :: ((y :: front) ++ a :: back)).
    cbn [String.concat app] in *. rewrite IH.
    now rewrite !string_append_assoc.
Qed.

Lemma last_two_split {A} (l : list A) :
  2 <= length l -> exists front a b, l = front ++ [a; b].
Proof.
  induction l as [|x l IH]; simpl; intros Hlen; [lia|].
  destruct l as [|y l]; [simpl in Hlen; lia|].
  destruct l as [|z l].
  - exists [], x, y. reflexivity.
  - destruct IH as (front & a & b & Heq); [simpl; lia|].
    exists (x :: front), a, b. now rewrite Heq.
Qed.

(** X16.  The base domain against the domain: with at most two labels the
    base domain is the domain; with more, the domain is some prefix, a dot
    and the base domain, and the base domain splits on dots into exactly two
    labels. *)
Theorem parseUrl_baseDomain (new_URL : string -> option URL) (urlString : string) :
  let features := parseUrl new_URL urlString in
  (length (split_on dot (uf_domain features)) <= 2
   /\ uf_baseDomain features = uf_domain features)
  \/ (exists prefix a b,
         uf_domain features = (prefix ++ "." ++ uf_baseDomain features)%string
         /\ uf_baseDomain features = (a ++ "." ++ b)%string
         /\ split_on dot (uf_baseDomain features) = [a; b]).
Proof.
  cbn zeta. unfold parseUrl.
  destruct (new_URL urlString) as [url|]; [|left; simpl; split; [lia | reflexivity]].
  cbn [uf_domain uf_baseDomain].
  set (domain := strip_www (hostname url)).
  pose proof (join_split_dot domain) as Hjoin.
  pose proof (split_on_pieces dot domain) as Hclean.
  destruct (Nat.leb_spec 2 (length (split_on dot domain))) as [Hlen | Hlen];
    [|left; split; [lia | reflexivity]].
  assert (exists front a b, split_on dot domain = front ++ [a; b]) as Hsplit.
  { apply last_two_split. exact Hlen. }
  destruct Hsplit as (front & a & b & Hsplit).
  assert (slice_last 2 (split_on dot domain) = [a; b]) as Hlast.
  { unfold slice_last. rewrite Hsplit, length_app. simpl.
    replace (length front + 2 - 2) with (length front + 0) by lia.
    rewrite skipn_app, Nat.add_0_r, skipn_all, Nat.sub_diag. reflexivity. }
  rewrite Hlast.
  assert (join "." [a; b] = (a ++ "." ++ b)%string) as Hab by reflexivity.
  destruct front as [|x front].
  - left. split; [rewrite Hsplit; simpl; lia|].
    transitivity (join "." (split_on dot domain)); [now rewrite Hsplit | exact Hjoin].
  - right. exists (join "." (x :: front)), a, b.
    rewrite Hab. split; [|split; [reflexivity|]].
    + transitivity (join "." (split_on dot domain)); [symmetry; exact Hjoin|].
      rewrite Hsplit, join_app. now rewrite Hab.
    + rewrite Hsplit in Hclean. apply Forall_app in Hclean.
      destruct Hclean as [_ Hclean].
      inversion Hclean as [|? ? Ha Hclean']; subst.
      inversion Hclean' as [|? ? Hb _]; subst.
      change (a ++ "." ++ b)%string with (a ++ String "." b)%string.
      rewrite split_on_append by (assumption || reflexivity).
      now rewrite split_on_clean.
Qed.

(** X17.  No path token holds one of the separators '/', '-', '_', and every
    token is one of the pieces of the path between separators. *)
Theorem parseUrl_tokens_clean (new_URL : string -> option URL) (urlString : string) :
  Forall (fun t => string_forallb (fun c => negb (path_separator c)) t = true)
         (uf_pathTokens (parseUrl new_URL urlString))
  /\ match new_URL urlString with
     | Some url => incl (uf_pathTokens (parseUrl new_URL urlString))
                        (split_on path_separator (pathname url))
     | None => uf_pathTokens (parseUrl new_URL urlString) = []
     end.
Proof.
  unfold parseUrl. destruct (new_URL urlString) as [url|];
    [|split; [constructor | reflexivity]].
  cbn [uf_pathTokens]. unfold slice_first.
  assert (incl (firstn 5 (filter (fun t => 2 <? String.length t)
                            (split_on path_separator (pathname url))))
               (split_on path_separator (pathname url))) as Hincl.
  { intros t Ht.
    assert (In t (filter (fun t => 2 <? String.length t)
                    (split_on path_separator (pathname url)))) as Hin.
    { rewrite <- (firstn_skipn 5). apply in_or_app. now left. }
    apply filter_In in Hin. tauto. }
  split; [|exact Hincl].
  apply Forall_forall. intros t Ht.
  pose proof (split_on_pieces path_separator (pathname url)) as Hclean.
  rewrite Forall_forall in Hclean. apply Hclean, Hincl, Ht.
Qed.

(* ------------------------------------------------------------------ *)
(** * Cluster names *)

Section CandidateFacts.
Import Naming.

Lemma bump_keys (key : string) (n : nat) (m : list (string * nat)) (k : string) :
  In k (map fst (bump key n m)) <-> k = key \/ In k (map fst m).
Proof.
  induction m as [|[k' v] m IH]; simpl.
  - intuition.
  - destruct (String.eqb_spec k' key) as [-> | Hne]; simpl; [intuition|].
    rewrite IH. intuition.
Qed.

Lemma bump_NoDup (key : string) (n : nat) (m : list (string * nat)) :
  NoDup (map fst m) -> NoDup (map fst (bump key n m)).
Proof.
  induction m as [|[k' v] m IH]; simpl; intros Hnd.
  - repeat constructor. intros [].
  - inversion Hnd as [|? ? Hk Hm]; subst.
    destruct (String.eqb_spec k' key) as [-> | Hne]; simpl; constructor; auto.
    rewrite bump_keys. intros [-> | Hin]; [congruence | contradiction].
Qed.

Lemma bump_ok (key : string) (n : nat) (m : list (string * nat)) :
  key <> "" -> table_ok m -> table_ok (bump key n m).
Proof.
  intros Hkey [Hnd Hne]. split; [now apply bump_NoDup|].
  apply Forall_forall. intros k Hk. apply bump_keys in Hk.
  destruct Hk as [-> | Hk]; [assumption|].
  rewrite Forall_forall in Hne. now apply Hne.
Qed.

Lemma fold_bump_ok (n : nat) (keys : list string) (m : list (string * nat)) :
  Forall (fun k => k <> "") keys -> table_ok m ->
  table_ok (fold_left (fun acc k => bump k n acc) keys m).
Proof.
  intros Hkeys. revert m. induction Hkeys as [|k keys Hk _ IH]; intros m Hm; simpl;
    [assumption|].
  apply IH. now apply bump_ok.
Qed.

Lemma bigrams_nonempty (words : list string) :
  Forall (fun k => k <> "") (bigrams words).
Proof.
  induction words as [|a [|b rest] IH]; simpl; try constructor.
  - destruct a; discriminate.
  - exact IH.
Qed.

Lemma titleWords_nonempty (title : string) :
  Forall (fun k => k <> "") (titleWords title).
Proof.
  unfold titleWords. apply Forall_forall. intros w Hw.
  apply filter_In in Hw. destruct Hw as [_ Hw].
  apply andb_prop in Hw. destruct Hw as [Hlen _].
  apply Nat.ltb_lt in Hlen. intros ->. simpl in Hlen. lia.
Qed.

Lemma collectCandidates_ok {num} (c : cluster num) : table_ok (collectCandidates c).
Proof.
  unfold collectCandidates.
  assert (table_ok (fold_left addDomain (domains c) [])) as Hdomains.
  { assert (forall ds m, table_ok m -> table_ok (fold_left addDomain ds m)) as Hfold.
    { induction ds as [|d ds IH]; intros m Hm; simpl; [assumption|].
      apply IH. unfold addDomain.
      destruct (String.eqb d ""); [assumption|].
      destruct (String.eqb_spec (mainLabel d) "") as [_ | Hne]; [assumption|].
      now apply bump_ok. }
    apply Hfold. split; constructor. }
  revert Hdomains. generalize (fold_left addDomain (domains c) []).
  induction (map (fun item => tab_title (tv_tab item)) (items c)) as [|t ts IH];
    intros m Hm; simpl; [assumption|].
  apply IH. unfold addTitle.
  apply fold_bump_ok; [apply bigrams_nonempty|].
  apply fold_bump_ok; [apply titleWords_nonempty | assumption].
Qed.

Lemma insertByWeight_perm (x : string * nat) (sorted : list (string * nat)) :
  Permutation (insertByWeight x sorted) (x :: sorted).
Proof.
  induction sorted as [|y rest IH]; simpl; [reflexivity|].
  destruct (snd y <? snd x); [reflexivity|].
  rewrite IH. apply perm_swap.
Qed.

Lemma sortByWeight_perm (entries : list (string * nat)) :
  Permutation (sortByWeight entries) entries.
Proof.
  unfold sortByWeight.
  assert (forall acc, Permutation (fold_left (fun s x => insertByWeight x s) entries acc)
                                  (acc ++ entries)) as Hfold.
  { induction entries as [|x entries IH]; intros acc; simpl.
    - now rewrite app_nil_r.
    - rewrite IH, insertByWeight_perm. apply Permutation_middle. }
  apply (Hfold []).
Qed.

Lemma topCandidates_facts (candidates : list (string * nat)) :
  table_ok candidates ->
  length (topCandidates candidates) <= 6
  /\ NoDup (topCandidates candidates)
  /\ Forall (fun k => k <> "") (topCandidates candidates)
  /\ incl (topCandidates candidates) (map fst candidates)
  /\ (candidates <> [] -> topCandidates candidates <> []).
Proof.
  intros [Hnd Hne]. unfold topCandidates, slice_first.
  pose proof (sortByWeight_perm candidates) as Hperm.
  set (sorted := sortByWeight candidates) in *.
  assert (incl (map fst (firstn 6 sorted)) (map fst candidates)) as Hincl.
  { intros k Hk. apply in_map_iff in Hk. destruct Hk as (kv & <- & Hkv).
    apply in_map. eapply Permutation_in; [exact Hperm|].
    rewrite <- (firstn_skipn 6 sorted). apply in_or_app. now left. }
  split; [rewrite length_map; apply firstn_le_length|].
  split; [|split; [|split; [exact Hincl|]]].
  - assert (NoDup (map fst sorted)) as Hsorted.
    { eapply Permutation_NoDup; [|exact Hnd].
      apply Permutation_map, Permutation_sym, Hperm. }
    rewrite <- (firstn_skipn 6 sorted), map_app in Hsorted.
    now apply NoDup_app_remove_r in Hsorted.
  - apply Forall_forall. intros k Hk. rewrite Forall_forall in Hne.
    apply Hne, Hincl, Hk.
  - intros Hsome Hnone.
    apply Permutation_length in Hperm.
    destruct sorted as [|x sorted']; [|discriminate].
    destruct candidates; [congruence | discriminate].
Qed.

Lemma toUpperCase_length (s : string) :
  String.length (toUpperCase s) = String.length s.
Proof. unfold toUpperCase. induction s; simpl; auto. Qed.

Lemma has_space_split (s : string) :
  has_space s = true -> 2 <= length (split_on (Ascii.eqb " ") s).
Proof.
  induction s as [|c s IH]; cbn [has_space split_on]; [discriminate|].
  pose proof (split_on_nonempty (Ascii.eqb " ") s) as Hne.
  rewrite (Ascii.eqb_sym " " c).
  destruct (Ascii.eqb c " ") eqn:Hc; cbn [orb].
  - intros _. destruct (split_on (Ascii.eqb " ") s); [congruence | cbn [length]; lia].
  - intros Hs. specialize (IH Hs).
    destruct (split_on (Ascii.eqb " ") s); cbn [length] in *; lia.
Qed.

Lemma formatName_nonempty (bestName : string) :
  bestName <> "" -> formatName bestName <> "".
Proof.
  intros Hne. unfold formatName.
  destruct (has_space bestName) eqn:Hspace.
  - apply has_space_split in Hspace.
    destruct (split_on (Ascii.eqb " ") bestName) as [|a [|b rest]];
      simpl in Hspace; try lia.
    unfold join. simpl. destruct (capitalize a); discriminate.
  - intros Hempty. apply (f_equal String.length) in Hempty.
    rewrite toUpperCase_length in Hempty.
    destruct bestName; [congruence | discriminate].
Qed.

End CandidateFacts.

Section NamerFacts.
Context {num : Type} `{Num num}.
Variable extractor : string -> list num.

Lemma pickBest_run (centroid : list num) (candidates : list string)
  (bestName : string) (bestScore : num) (e : engine) :
  let r := Naming.pickBest extractor centroid candidates bestName bestScore e in
  calls (snd r) = calls e ++ map Embed candidates
  /\ extractor_loaded (snd r) = extractor_loaded e
  /\ (fst r = bestName \/ In (fst r) candidates).
Proof.
  revert bestName bestScore e.
  induction candidates as [|c rest IH]; intros bestName bestScore e; cbn zeta.
  - simpl. rewrite app_nil_r. auto.
  - cbn [Naming.pickBest]. unfold bind at 1.
    unfold getEmbedding, bind, called, ret. cbn [fst snd].
    set (e1 := mkEngine (extractor_loaded e) (calls e ++ [Embed c])).
    destruct (ngtb _ bestScore).
    + destruct (IH c (cosineSimilarity (extractor c) centroid) e1) as (H1 & H2 & H3).
      split; [|split].
      * rewrite H1. unfold e1. cbn [calls map]. now rewrite <- app_assoc.
      * rewrite H2. reflexivity.
      * right. destruct H3 as [H3 | H3]; [left; symmetry; exact H3 | right; exact H3].
    + destruct (IH bestName bestScore e1) as (H1 & H2 & H3).
      split; [|split].
      * rewrite H1. unfold e1. cbn [calls map]. now rewrite <- app_assoc.
      * rewrite H2. reflexivity.
      * destruct H3 as [H3 | H3]; [left; exact H3 | right; right; exact H3].
Qed.

(** X18.  Naming a cluster asks the model for the embeddings of its top
    candidates, in order and nothing else: at most six texts, all different,
    none empty.  Without a candidate the name is "GROUP" and nothing is
    asked; otherwise the name is one of the candidates asked for, formatted. *)
Theorem generateClusterName_asks (c : cluster num) (e : engine) :
  let top := Naming.topCandidates (Naming.collectCandidates c) in
  let r := Naming.generateClusterName extractor c e in
  calls (snd r) = calls e ++ map Embed top
  /\ extractor_loaded (snd r) = extractor_loaded e
  /\ length top <= 6 /\ NoDup top /\ Forall (fun k => k <> "") top
  /\ match top with
     | [] => fst r = "GROUP"
     | _ :: _ => exists best, In best top /\ fst r = Naming.formatName best
     end.
Proof.
  cbn zeta. unfold Naming.generateClusterName.
  pose proof (collectCandidates_ok c) as Hok.
  destruct (topCandidates_facts _ Hok) as (Hlen & Hnd & Hne & _ & Hsome).
  destruct (Naming.collectCandidates c) as [|kv cands] eqn:Hcands.
  - simpl. rewrite app_nil_r. repeat split; auto; constructor.
  - cbn [length Nat.eqb]. unfold bind.
    specialize (Hsome ltac:(discriminate)).
    set (top := Naming.topCandidates (kv :: cands)) in *.
    pose proof (pickBest_run (centroid c) top (hd "" top) (nofZ (-1)) e) as Hrun.
    cbn zeta in Hrun.
    destruct (Naming.pickBest extractor (centroid c) top (hd "" top) (nofZ (-1)) e)
      as [best e1].
    cbn [fst snd ret] in *. destruct Hrun as (H1 & H2 & H3).
    split; [exact H1|]. split; [exact H2|]. split; [exact Hlen|].
    split; [exact Hnd|]. split; [exact Hne|].
    destruct top as [|t top']; [congruence|].
    exists best. split; [|reflexivity].
    destruct H3 as [-> | H3]; [now left | exact H3].
Qed.

(** X19.  The name of a cluster is never the empty string. *)
Theorem generateClusterName_nonempty (c : cluster num) (e : engine) :
  fst (Naming.generateClusterName extractor c e) <> "".
Proof.
  unfold Naming.generateClusterName.
  pose proof (collectCandidates_ok c) as Hok.
  destruct (topCandidates_facts _ Hok) as (_ & _ & Hne & _ & Hsome).
  destruct (Naming.collectCandidates c) as [|kv cands] eqn:Hcands.
  - simpl. discriminate.
  - cbn [length Nat.eqb]. unfold bind.
    specialize (Hsome ltac:(discriminate)).
    set (top := Naming.topCandidates (kv :: cands)) in *.
    pose proof (pickBest_run (centroid c) top (hd "" top) (nofZ (-1)) e) as Hrun.
    cbn zeta in Hrun.
    destruct (Naming.pickBest extractor (centroid c) top (hd "" top) (nofZ (-1)) e)
      as [best e1].
    cbn [fst snd ret] in *. destruct Hrun as (_ & _ & Hbest).
    apply formatName_nonempty. rewrite Forall_forall in Hne. apply Hne.
    destruct top as [|t top']; [congruence|].
    destruct Hbest as [-> | Hbest]; [now left | exact Hbest].
Qed.

Lemma clusterMetadata_from_embeds (clusters : list (cluster num)) (e : engine)
  (i : nat) :
  exists texts,
    calls (snd (clusterMetadata_from (Naming.generateClusterName extractor)
                  i clusters e))
    = calls e ++ map Embed texts
    /\ length texts
       <= 6 * length (fst (clusterMetadata_from
                             (Naming.generateClusterName extractor) i clusters e))
    /\ extractor_loaded
         (snd (clusterMetadata_from (Naming.generateClusterName extractor)
                 i clusters e))
       = extractor_loaded e.
Proof.
  revert e i.
  induction clusters as [|c l IH]; intros e i; cbn [clusterMetadata_from].
  - exists []. simpl. rewrite app_nil_r. auto.
  - destruct (length (items c) =? 1); [apply IH|].
    unfold bind.
    match goal with
    | |- context [let (_, _) := ?t in _] => set (named := t)
    end.
    assert (exists texts1 name e1,
               named = (name, e1)
               /\ calls e1 = calls e ++ map Embed texts1
               /\ length texts1 <= 6
               /\ extractor_loaded e1 = extractor_loaded e) as Hname.
    { subst named. destruct (isMisc c).
      - exists [], "MISC", e. simpl. rewrite app_nil_r. repeat split; auto; lia.
      - pose proof (pickBest_run (centroid c)
                      (Naming.topCandidates (Naming.collectCandidates c))
                      (hd "" (Naming.topCandidates (Naming.collectCandidates c)))
                      (nofZ (-1)) e) as Hrun.
        pose proof (collectCandidates_ok c) as Hok.
        destruct (topCandidates_facts _ Hok) as (Hlen & _).
        unfold Naming.generateClusterName.
        destruct (length (Naming.collectCandidates c) =? 0).
        + exists [], "GROUP", e. simpl. rewrite app_nil_r. repeat split; auto; lia.
        + cbn zeta in Hrun. unfold bind.
          destruct (Naming.pickBest extractor _ _ _ _ e) as [best e1].
          cbn [fst snd] in Hrun. destruct Hrun as (H1 & H2 & _).
          exists (Naming.topCandidates (Naming.collectCandidates c)),
                 (Naming.formatName best), e1.
          repeat split; auto. }
    destruct Hname as (texts1 & name & e1 & Hnamed & Hc1 & Hl1 & He1).
    rewrite Hnamed. clear Hnamed named.
    destruct (IH e1 (S i)) as (texts2 & Hc2 & Hl2 & He2).
    destruct (clusterMetadata_from _ (S i) l e1) as [results e2].
    cbn [fst snd ret length] in *.
    exists (texts1 ++ texts2). split; [|split].
    + rewrite Hc2, Hc1, map_app. now rewrite <- app_assoc.
    + rewrite length_app. lia.
    + now rewrite He2, He1.
Qed.

(** X20.  With this namer, [generateClusterMetadata] asks the model for
    embeddings only, at most six per group it returns and none for a list of
    single-item clusters, and does not reload the model. *)
Theorem generateClusterMetadata_embeds (clusters : list (cluster num))
  (e : engine) :
  let r := generateClusterMetadata (Naming.generateClusterName extractor)
             clusters e in
  exists texts,
    calls (snd r) = calls e ++ map Embed texts
    /\ length texts <= 6 * length (fst r)
    /\ extractor_loaded (snd r) = extractor_loaded e.
Proof. cbn zeta. apply clusterMetadata_from_embeds. Qed.

End NamerFacts.

Section TopCandidates.
Import Naming.

Lemma insertByWeight_sorted (x : string * nat) (sorted : list (string * nat)) :
  StronglySorted (fun a b => snd b <= snd a) sorted ->
  StronglySorted (fun a b => snd b <= snd a) (insertByWeight x sorted).
Proof.
  induction 1 as [|y rest Hrest IH Hy]; simpl.
  - constructor; constructor.
  - destruct (Nat.ltb_spec (snd y) (snd x)) as [Hlt | Hge].
    + constructor; [constructor; assumption|].
      constructor; [lia|].
      eapply Forall_impl; [|exact Hy]. simpl. intros; lia.
    + constructor; [exact IH|].
      eapply Permutation_Forall;
        [apply Permutation_sym, insertByWeight_perm|].
      constructor; assumption.
Qed.

Lemma sortByWeight_sorted (entries : list (string * nat)) :
  StronglySorted (fun a b => snd b <= snd a) (sortByWeight entries).
Proof.
  unfold sortByWeight.
  assert (forall acc, StronglySorted (fun a b => snd b <= snd a) acc ->
                      StronglySorted (fun a b => snd b <= snd a)
                        (fold_left (fun s x => insertByWeight x s) entries acc))
    as Hfold.
  { induction entries as [|x entries IH]; intros acc Hacc; simpl; [assumption|].
    apply IH. now apply insertByWeight_sorted. }
  apply Hfold. constructor.
Qed.

Lemma sorted_app_le (l1 l2 : list (string * nat)) :
  StronglySorted (fun a b => snd b <= snd a) (l1 ++ l2) ->
  forall a b, In a l1 -> In b l2 -> snd b <= snd a.
Proof.
  induction l1 as [|x l1 IH]; simpl; intros Hs a b Ha Hb; [contradiction|].
  inversion Hs as [|? ? Hrest Hx]; subst.
  destruct Ha as [-> | Ha].
  - rewrite Forall_forall in Hx. apply Hx, in_or_app. now right.
  - now apply IH.
Qed.

Lemma NoDup_keys_weight (l : list (string * nat)) (k : string) (w w' : nat) :
  NoDup (map fst l) -> In (k, w) l -> In (k, w') l -> w = w'.
Proof.
  induction l as [|[k0 w0] l IH]; simpl; intros Hnd H1 H2; [contradiction|].
  inversion Hnd as [|? ? Hk Hl]; subst.
  destruct H1 as [H1 | H1], H2 as [H2 | H2].
  - congruence.
  - inversion H1; subst. exfalso. apply Hk.
    apply (in_map fst) in H2. exact H2.
  - inversion H2; subst. exfalso. apply Hk.
    apply (in_map fst) in H1. exact H1.
  - now apply IH.
Qed.

(** X21.  The names scored against the centroid are the heaviest candidates
    of the cluster: a candidate that is left out weighs no more than any
    candidate that is scored. *)
Theorem topCandidates_heaviest {num} (c : cluster num) (k k' : string)
  (w w' : nat) :
  In (k, w) (collectCandidates c) ->
  In (k', w') (collectCandidates c) ->
  In k (topCandidates (collectCandidates c)) ->
  ~ In k' (topCandidates (collectCandidates c)) ->
  w' <= w.
Proof.
  pose proof (collectCandidates_ok c) as [Hnd _].
  generalize dependent (collectCandidates c). intros candidates Hnd Hk Hk' Htop Hout.
  unfold topCandidates, slice_first in *.
  pose proof (sortByWeight_perm candidates) as Hperm.
  pose proof (sortByWeight_sorted candidates) as Hsorted.
  set (sorted := sortByWeight candidates) in *.
  rewrite <- (firstn_skipn 6 sorted) in Hsorted, Hperm.
  apply in_map_iff in Htop. destruct Htop as ([k0 w0] & Hk0 & Hin0).
  simpl in Hk0. subst k0.
  assert (w0 = w) as ->.
  { apply (NoDup_keys_weight candidates k); auto.
    eapply Permutation_in; [exact Hperm|]. apply in_or_app. now left. }
  apply (Permutation_in _ (Permutation_sym Hperm)) in Hk'.
  apply in_app_or in Hk'. destruct Hk' as [Hk' | Hk'].
  - exfalso. apply Hout. apply (in_map fst) in Hk'. exact Hk'.
  - apply (sorted_app_le _ _ Hsorted (k, w) (k', w') Hin0 Hk').
Qed.

End TopCandidates.

Lemma topCandidates_heaviest_witness :
  let c : cluster Q :=
    mkCluster [0] [mkTabVector (mkTab 1 None "Alpha beta, gamma delta")
                     "Alpha beta, gamma delta" "" "" [] []]
              [[]] [""] [] false in
  In ("alpha beta", 2) (Naming.collectCandidates c)
  /\ In ("delta", 1) (Naming.collectCandidates c)
  /\ In "alpha beta" (Naming.topCandidates (Naming.collectCandidates c))
  /\ ~ In "delta" (Naming.topCandidates (Naming.collectCandidates c))
  /\ 1 <= 2.
Proof.
  cbn zeta.
  set (c := mkCluster _ _ _ _ _ _).
  assert (In ("alpha beta", 2) (Naming.collectCandidates c)) as H1
      by (vm_compute; tauto).
  assert (In ("delta", 1) (Naming.collectCandidates c)) as H2
      by (vm_compute; tauto).
  assert (In "alpha beta" (Naming.topCandidates (Naming.collectCandidates c))) as H3
      by (vm_compute; tauto).
  assert (~ In "delta" (Naming.topCandidates (Naming.collectCandidates c))) as H4.
  { vm_compute. intros Hin.
    repeat (destruct Hin as [Hin | Hin]; [discriminate|]). exact Hin. }
  repeat (split; [assumption|]).
  exact (topCandidates_heaviest c "alpha beta" "delta" 2 1 H1 H2 H3 H4).
Defined.

(* ------------------------------------------------------------------ *)
(** * The tab manager *)

Section TabManagerFacts.
Variable tabs_group : nat -> list Z -> option Z.

Lemma mapi_from_nth {A B} (f : nat -> A -> B) (i k : nat) (l : list A) (x : A) :
  nth_error l k = Some x -> In (f (i + k) x) (mapi_from f i l).
Proof.
  revert i k. induction l as [|a l IH]; intros i k Hk; [destruct k; discriminate|].
  destruct k as [|k]; simpl in Hk.
  - injection Hk as ->. left. f_equal. lia.
  - right. replace (i + S k) with (S i + k) by lia. now apply IH.
Qed.

Lemma applyGroup_calls (position : nat) (groupDef : ClusterResult)
  (c : chromeCall) :
  In c (applyGroup tabs_group position groupDef) ->
  tabIds groupDef <> []
  /\ (length (tabIds groupDef) = 1 -> name groupDef = "MISC")
  /\ In (Group (tabIds groupDef)) (applyGroup tabs_group position groupDef)
  /\ (c = Group (tabIds groupDef)
      \/ exists groupId,
           c = UpdateGroup groupId (name groupDef) (color groupDef)).
Proof.
  unfold applyGroup.
  destruct (length (tabIds groupDef) =? 0) eqn:Hzero; [intros []|].
  destruct (length (tabIds groupDef) =? 1) eqn:Hone; cbn [andb].
  - destruct (String.eqb_spec (name groupDef) "MISC") as [Hname | Hname];
      cbn [negb]; [|intros []].
    intros Hin. split; [intros Hnil; now rewrite Hnil in Hzero|].
    split; [auto|]. split; [now left|].
    destruct Hin as [<- | Hin]; [now left|]. right.
    destruct (tabs_group position (tabIds groupDef)) as [groupId|]; [|destruct Hin].
    destruct Hin as [<- | []]. now exists groupId.
  - intros Hin. split; [intros Hnil; now rewrite Hnil in Hzero|].
    split; [intros Hlen; rewrite Hlen in Hone; discriminate|].
    split; [now left|].
    destruct Hin as [<- | Hin]; [now left|]. right.
    destruct (tabs_group position (tabIds groupDef)) as [groupId|]; [|destruct Hin].
    destruct Hin as [<- | []]. now exists groupId.
Qed.

Lemma applyGroup_of_pair (position : nat) (groupDef : ClusterResult) :
  2 <= length (tabIds groupDef) ->
  filter isGroupCall (applyGroup tabs_group position groupDef)
  = [Group (tabIds groupDef)].
Proof.
  intros Hlen. unfold applyGroup.
  destruct (tabIds groupDef) as [|a [|b ids]]; simpl in Hlen; try lia.
  cbn [length Nat.eqb andb filter isGroupCall].
  now destruct (tabs_group position (a :: b :: ids)).
Qed.

Lemma applyGroups_of_pairs (groups : list ClusterResult) (i : nat) :
  Forall (fun r => 2 <= length (tabIds r)) groups ->
  filter isGroupCall (concat (mapi_from (applyGroup tabs_group) i groups))
  = map (fun r => Group (tabIds r)) groups.
Proof.
  intros Hall. revert i. induction Hall as [|g groups Hg _ IH]; intros i; simpl;
    [reflexivity|].
  now rewrite filter_app, applyGroup_of_pair, IH.
Qed.

Lemma concat_mapi_from_split {A B} (f : nat -> A -> list B) (i : nat)
  (l : list A) (c : B) :
  In c (concat (mapi_from f i l)) ->
  exists k x before after,
    nth_error l k = Some x /\ In c (f (i + k) x)
    /\ concat (mapi_from f i l) = before ++ f (i + k) x ++ after.
Proof.
  revert i. induction l as [|a l IH]; intros i Hin; simpl in Hin; [easy|].
  apply in_app_or in Hin. destruct Hin as [Hin | Hin].
  - exists 0, a, [], (concat (mapi_from f (S i) l)).
    rewrite Nat.add_0_r. repeat split; auto.
  - destruct (IH _ Hin) as (k & x & before & after & Hk & Hc & Heq).
    exists (S k), x, (f i a ++ before), after.
    replace (i + S k) with (S i + k) by lia.
    split; [exact Hk|]. split; [exact Hc|].
    simpl. rewrite Heq. now rewrite app_assoc.
Qed.

(** The calls one group definition leads to: none, the group call, or the
    group call and then the label. *)
Lemma applyGroup_shape (position : nat) (groupDef : ClusterResult) :
  applyGroup tabs_group position groupDef = []
  \/ applyGroup tabs_group position groupDef = [Group (tabIds groupDef)]
  \/ exists groupId,
      applyGroup tabs_group position groupDef
      = [Group (tabIds groupDef);
         UpdateGroup groupId (name groupDef) (color groupDef)].
Proof.
  unfold applyGroup.
  destruct (length (tabIds groupDef) =? 0); [now left|].
  destruct ((length (tabIds groupDef) =? 1)
            && negb (name groupDef =? "MISC")%string); [now left|].
  right. destruct (tabs_group position (tabIds groupDef)) as [groupId|].
  - right. now exists groupId.
  - now left.
Qed.

(** X23.  What [applyGroups] asks of the browser, whatever the groups: it
    never groups an empty list of tabs, nor a lone tab unless the group is
    named "MISC"; every group it makes is one of the groups given; every
    label it sets is the name and colour of one of the groups given and
    comes right after the call that made that group; and when it ungroups,
    that is its first call and no later one, for the tabs that are in a
    group, of which there is one at least. *)
Theorem applyGroups_calls (groups : list ClusterResult)
  (allTabs : list windowTab) :
  let calls := applyGroups tabs_group groups allTabs in
  (forall ids, In (Group ids) calls ->
     ids <> []
     /\ exists g, In g groups /\ ids = tabIds g
                  /\ (length ids = 1 -> name g = "MISC"))
  /\ (forall groupId title colour, In (UpdateGroup groupId title colour) calls ->
        exists g before after,
          In g groups /\ title = name g /\ colour = color g
          /\ calls = before ++ Group (tabIds g)
                               :: UpdateGroup groupId title colour :: after)
  /\ (forall ids, In (Ungroup ids) calls ->
        ids <> []
        /\ hd_error calls = Some (Ungroup ids)
        /\ ids = map wt_id
                   (filter (fun t => negb (wt_groupId t =? TAB_GROUP_ID_NONE)%Z)
                           allTabs))
  /\ (forall ids, ~ In (Ungroup ids) (tl calls)).
Proof.
  cbn zeta. unfold applyGroups.
  set (tabsInGroups := filter _ allTabs).
  set (first := if 0 <? length tabsInGroups then _ else _).
  set (rest := concat (mapi (applyGroup tabs_group) groups)).
  assert (forall c, In c rest ->
             exists g before after,
               In g groups
               /\ tabIds g <> []
               /\ (length (tabIds g) = 1 -> name g = "MISC")
               /\ (c = Group (tabIds g)
                   \/ exists groupId,
                        c = UpdateGroup groupId (name g) (color g)
                        /\ rest = before ++ Group (tabIds g) :: c :: after))
    as Hrest.
  { intros c Hc. unfold rest, mapi in *.
    apply concat_mapi_from_split in Hc.
    destruct Hc as (k & g & before & after & Hk & Hc & Heq).
    pose proof (applyGroup_calls _ _ _ Hc) as (Hne & Hone & _ & _).
    exists g, before, after. split; [eapply nth_error_In; exact Hk|].
    split; [exact Hne|]. split; [exact Hone|].
    destruct (applyGroup_shape (0 + k) g) as [Hs | [Hs | (groupId & Hs)]];
      rewrite Hs in Hc, Heq.
    - destruct Hc.
    - destruct Hc as [<- | []]. now left.
    - destruct Hc as [<- | [<- | []]]; [now left|].
      right. exists groupId. split; [reflexivity | exact Heq]. }
  assert (forall c, In c first -> c = Ungroup (map wt_id tabsInGroups)
                                  /\ tabsInGroups <> []
                                  /\ first = [c]) as Hfirst.
  { intros c. unfold first. destruct tabsInGroups; cbn [length Nat.ltb Nat.leb].
    - intros [].
    - intros [<- | []]. split; [reflexivity|]. split; [discriminate | reflexivity]. }
  assert (forall ids, ~ In (Ungroup ids) rest) as Hnone.
  { intros ids Hin.
    destruct (Hrest _ Hin) as (g & before & after & _ & _ & _ & Hform).
    destruct Hform as [Hform | (groupId & Hform & _)]; discriminate. }
  split; [|split; [|split]].
  - intros ids Hin. apply in_app_or in Hin. destruct Hin as [Hin | Hin].
    + apply Hfirst in Hin. destruct Hin as [Hin _]. discriminate.
    + destruct (Hrest _ Hin) as (g & before & after & Hg & Hne & Hone & Hform).
      destruct Hform as [Hform | (groupId & Hform & _)]; [|discriminate].
      injection Hform as ->. split; [exact Hne|]. exists g. auto.
  - intros groupId title colour Hin. apply in_app_or in Hin.
    destruct Hin as [Hin | Hin].
    + apply Hfirst in Hin. destruct Hin as [Hin _]. discriminate.
    + destruct (Hrest _ Hin) as (g & before & after & Hg & _ & _ & Hform).
      destruct Hform as [Hform | (groupId' & Hform & Heq)]; [discriminate|].
      injection Hform as _ Htitle Hcolour.
      exists g, (first ++ before), after. repeat (split; [auto|]).
      rewrite Heq. now rewrite app_assoc.
  - intros ids Hin. apply in_app_or in Hin. destruct Hin as [Hin | Hin].
    + apply Hfirst in Hin. destruct Hin as (Hin & Hne & ->).
      injection Hin as ->. split; [|split; reflexivity].
      destruct tabsInGroups; [congruence | discriminate].
    + exfalso. exact (Hnone ids Hin).
  - intros ids Hin. unfold first in Hin.
    destruct (0 <? length tabsInGroups); cbn [app tl] in Hin.
    + exact (Hnone ids Hin).
    + apply (Hnone ids). destruct rest; [destruct Hin | now right].
Qed.

End TabManagerFacts.

Section RegroupFacts.
Context {num : Type} `{Num num}.
Variable new_URL : string -> option URL.
Variable executeScript : tab -> option string.
Variable extractor : string -> list num.
Variable generateClusterName : cluster num -> Async string.
Variable tabs_group : nat -> list Z -> option Z.

(** X22.  The tab manager makes a group of every group the engine returns,
    in the engine's order and with the engine's tabs: none is skipped as
    empty or as a lone tab. *)
Theorem applyGroups_applies_every_group (tabs : list tab) (screenWidth : Z)
  (e : engine) (allTabs : list windowTab) :
  exists results e',
    clusterTabs new_URL executeScript extractor generateClusterName
      tabs screenWidth e = (Some results, e')
    /\ filter isGroupCall (applyGroups tabs_group results allTabs)
       = map (fun r => Group (tabIds r)) results.
Proof.
  assert (forall results,
             Forall (fun r => 2 <= length (tabIds r)) results ->
             filter isGroupCall (applyGroups tabs_group results allTabs)
             = map (fun r => Group (tabIds r)) results) as Happly.
  { intros results Hall. unfold applyGroups. rewrite filter_app.
    unfold mapi. rewrite (applyGroups_of_pairs tabs_group results 0 Hall).
    now destruct (0 <? length _). }
  destruct (Nat.leb_spec (length tabs) 2) as [Hle | Hgt].
  - exists [], (snd (init e)). split.
    + unfold clusterTabs, bind. destruct (init e) as [[] e0].
      apply Nat.leb_le in Hle. now rewrite Hle.
    + apply Happly. constructor.
  - destruct (clusterTabs_run new_URL executeScript extractor
                generateClusterName tabs screenWidth e Hgt)
      as (tabVectors & clusters & e2 & _ & Hagg & Hrun).
    rewrite Hrun. eexists _, _. split; [reflexivity|].
    apply Happly.
    apply (consolidated_groups generateClusterName tabVectors _ _
             (calculateGroupCapacity screenWidth (length tabs)) clusters e2 Hagg).
Qed.

End RegroupFacts.

Lemma computePairwiseSimilarity_symmetric_witness :
  let a : tabVector R :=
    mkTabVector (mkTab 1 (Some "https://docs.example.com/guide/intro") "Guide")
                "Guide" "docs.example.com" "example.com" ["guide"; "intro"]
                (Examples.unit_vec 6 0) in
  let b : tabVector R :=
    mkTabVector (mkTab 2 (Some "https://blog.example.com/intro") "Blog")
                "Blog" "blog.example.com" "example.com" ["intro"]
                (Examples.unit_vec 6 1) in
  length (tv_embedding a) = length (tv_embedding b)
  /\ NoDup (tv_pathTokens a) /\ NoDup (tv_pathTokens b)
  /\ computePairwiseSimilarity a b = computePairwiseSimilarity b a.
Proof.
  cbn zeta.
  set (a := mkTabVector (mkTab 1 _ _) _ _ _ _ _).
  set (b := mkTabVector (mkTab 2 _ _) _ _ _ _ _).
  assert (length (tv_embedding a) = length (tv_embedding b)) as Hlen
      by reflexivity.
  assert (NoDup (tv_pathTokens a)) as Ha.
  { repeat constructor; simpl; intuition discriminate. }
  assert (NoDup (tv_pathTokens b)) as Hb.
  { repeat constructor; simpl; intuition discriminate. }
  repeat (split; [assumption|]).
  exact (computePairwiseSimilarity_symmetric a b Hlen Ha Hb).
Defined.

(* ------------------------------------------------------------------ *)
(** * The whole run, with the namer of the engine *)

Section WholeRun.
Context {num : Type} `{Num num}.
Variable new_URL : string -> option URL.
Variable executeScript : tab -> option string.
Variable extractor : string -> list num.
Variable generateClusterName : cluster num -> Async string.

(** [clusterTabs] on three tabs or more, step by step. *)
Lemma clusterTabs_steps (tabs : list tab) (screenWidth : Z) (e : engine) :
  2 < length tabs ->
  let enriched := extractAndEnrichTabs new_URL executeScript tabs (snd (init e)) in
  let vectors := generateEmbeddings extractor (fst enriched) (snd enriched) in
  let groupCapacity := calculateGroupCapacity screenWidth (length tabs) in
  exists clusters,
    agglomerativeClustering (fst vectors) (buildSimilarityMatrix (fst vectors))
      groupCapacity = Some clusters
    /\ clusterTabs new_URL executeScript extractor generateClusterName
         tabs screenWidth e
       = (Some (fst (generateClusterMetadata generateClusterName
                       (consolidateSingletons clusters groupCapacity)
                       (snd vectors))),
          snd (generateClusterMetadata generateClusterName
                 (consolidateSingletons clusters groupCapacity) (snd vectors))).
Proof.
  intros Hlen. cbn zeta. unfold clusterTabs, bind.
  destruct (init e) as [[] e0]. cbn [snd].
  destruct (Nat.leb_spec (length tabs) 2) as [Hle|_]; [lia|].
  destruct (extractAndEnrichTabs new_URL executeScript tabs e0) as [enriched e1].
  cbn [fst snd].
  destruct (generateEmbeddings extractor enriched e1) as [tabVectors e2].
  cbn [fst snd].
  destruct (agglomerativeClustering_returns tabVectors
              (buildSimilarityMatrix tabVectors)
              (calculateGroupCapacity screenWidth (length tabs)))
    as (clusters & merges & _ & Hagg).
  exists clusters. rewrite Hagg. split; [reflexivity|].
  destruct (generateClusterMetadata _ _ e2); reflexivity.
Qed.

End WholeRun.

Section WholeRunCalls.
Context {num : Type} `{Num num}.
Variable new_URL : string -> option URL.
Variable executeScript : tab -> option string.
Variable extractor : string -> list num.

(** X24.  A whole run of [clusterTabs], named by [generateClusterName]: the
    model is loaded if it was not, and is loaded afterwards; then page
    scripts run on the scriptable tabs, in tab order; then the model embeds
    one content per tab, then at most three names per tab.  Nothing else is
    asked, and nothing but the load on two tabs or fewer. *)
Theorem clusterTabs_calls (tabs : list tab) (screenWidth : Z) (e : engine) :
  let r := clusterTabs new_URL executeScript extractor
             (Naming.generateClusterName extractor) tabs screenWidth e in
  extractor_loaded (snd r) = true
  /\ exists contents names,
       calls (snd r)
       = calls e
         ++ (if extractor_loaded e then [] else [LoadModel])
         ++ map (fun t => RunScript (tab_id t))
                (if length tabs <=? 2 then [] else filter scriptable tabs)
         ++ map Embed contents ++ map Embed names
       /\ length contents = (if length tabs <=? 2 then 0 else length tabs)
       /\ length names <= 3 * length contents.
Proof.
  cbn zeta.
  assert (extractor_loaded (snd (init e)) = true
          /\ calls (snd (init e))
             = calls e ++ (if extractor_loaded e then [] else [LoadModel]))
    as [Hloaded Hinit].
  { unfold init. destruct (extractor_loaded e) eqn:He; cbn [snd calls extractor_loaded].
    - now rewrite app_nil_r.
    - auto. }
  destruct (Nat.leb_spec (length tabs) 2) as [Hle | Hgt].
  - assert (clusterTabs new_URL executeScript extractor
              (Naming.generateClusterName extractor) tabs screenWidth e
            = (Some [], snd (init e))) as ->.
    { unfold clusterTabs, bind. destruct (init e) as [[] e0].
      apply Nat.leb_le in Hle. now rewrite Hle. }
    cbn [snd]. split; [exact Hloaded|]. exists [], [].
    rewrite Hinit. simpl. now rewrite !app_nil_r.
  - destruct (clusterTabs_steps new_URL executeScript extractor
                (Naming.generateClusterName extractor) tabs screenWidth e Hgt)
      as (clusters & Hagg & ->).
    cbn zeta in Hagg. cbn [snd].
    set (e0 := snd (init e)) in *.
    pose proof (extractAndEnrichTabs_calls new_URL executeScript tabs e0)
      as [Hc1 Hl1].
    pose proof (tabVectors_of_tabs new_URL executeScript extractor tabs e0) as Htabs.
    set (enriched := extractAndEnrichTabs new_URL executeScript tabs e0) in *.
    pose proof (generateEmbeddings_calls extractor (fst enriched) (snd enriched))
      as [Hc2 Hl2].
    set (vectors := generateEmbeddings extractor (fst enriched) (snd enriched)) in *.
    pose proof (consolidated_groups (Naming.generateClusterName extractor)
                  (fst vectors) _ _
                  (calculateGroupCapacity screenWidth (length tabs))
                  clusters (snd vectors) Hagg) as Hgroups.
    cbn zeta in Hgroups. destruct Hgroups as (_ & _ & Hhalf).
    unfold generateClusterMetadata in *.
    destruct (clusterMetadata_from_embeds extractor
                (consolidateSingletons clusters
                   (calculateGroupCapacity screenWidth (length tabs)))
                (snd vectors) 0) as (names & Hc3 & Hnames & Hl3).
    split; [now rewrite Hl3, Hl2, Hl1|].
    exists (map (fun tv => tv_content tv) (fst vectors)), names.
    rewrite length_map. split; [|split].
    + rewrite Hc3, Hc2, Hc1, Hinit, map_map, <- !app_assoc. reflexivity.
    + rewrite <- (length_map (fun tv => tv_tab tv) (fst vectors)).
      f_equal. apply Htabs.
    + lia.
Qed.

End WholeRunCalls.

